(** * lifecycle-agent: the prep-stage orchestration engine

    A shallow embedding of [controllers/prep_handlers.go] and of the helpers
    of package [common] it relies on, followed by the properties of the
    dispatcher, the worker pipeline, the job status poller, the retry policy
    and the duplicate-removal helpers.

    Go packages become modules of the same name.  Code that runs against the
    outside world (the API server, podman, ostree, the clock) is written in a
    state monad; every call to a collaborator leaves an event in a trace and
    takes its answer from an environment record, so that "what was called, in
    which order, how often" is a statement about the trace. *)

From stdpp Require Import base numbers list strings gmap pretty sorting.

(** ** Go errors *)

(** The [reason] of a Kubernetes API status error (k8s.io/apimachinery,
    [metav1.StatusReason]): a string, with the names the library gives to
    the reasons met here. *)
Definition StatusReason : Type := string.

Definition StatusReasonUnknown : StatusReason := "".
Definition StatusReasonNotFound : StatusReason := "NotFound".
Definition StatusReasonConflict : StatusReason := "Conflict".
Definition StatusReasonInternalError : StatusReason := "InternalError".
Definition StatusReasonServiceUnavailable : StatusReason := "ServiceUnavailable".

(** Error values.  [wrapError] is what [fmt.Errorf] builds for a format with
    a [%w] verb: the whole formatted message and the wrapped error.
    [StatusError] is an API server answer with its reason and its HTTP code,
    [Errno] a system call error, [ErrFailed] the sentinel
    [precache.ErrFailed] and [Canceled] the error of a canceled context. *)
Inductive error :=
| errorString (msg : string)
| wrapError (msg : string) (err : error)
| StatusError (reason : StatusReason) (code : Z) (msg : string)
| Errno (code : Z)
| ErrFailed
| Canceled.

(** [syscall.ECONNREFUSED] on Linux. *)
Definition ECONNREFUSED : Z := 111.

#[global] Instance error_eq_dec : EqDecision error.
Proof. solve_decision. Defined.

(** [err.Error()] *)
Definition Error (e : error) : string :=
  match e with
  | errorString msg => msg
  | wrapError msg _ => msg
  | StatusError _ _ msg => msg
  | Errno code => "errno " +:+ pretty code
  | ErrFailed => "precaching failed"
  | Canceled => "context canceled"
  end.

Module errors.

(** [errors.Unwrap] *)
Definition Unwrap (e : error) : option error :=
  match e with
  | wrapError _ err => Some err
  | _ => None
  end.

(** [errors.Is]: [target] is found somewhere on the chain of wrapped
    errors of [e]. *)
Fixpoint Is (e target : error) : bool :=
  bool_decide (e = target) ||
  match e with
  | wrapError _ err => Is err target
  | _ => false
  end.

End errors.

Module fmt.

(** [fmt.Sprintf("%d", n)] *)
Definition Sprintf_d (n : Z) : string := pretty n.

(** [fmt.Errorf(msg)] for a format without [%w]; the caller has
    substituted the [%s] and [%d] arguments into [msg]. *)
Definition Errorf (msg : string) : error := errorString msg.

(** [fmt.Errorf(prefix + "%w", err)]: every wrapping format of the sources
    ends in its [%w] verb. *)
Definition Errorf_w (prefix : string) (err : error) : error :=
  wrapError (prefix +:+ Error err) err.

(** The same with the [nil] error that [checkSeedImageCompatibility] can
    hand to [%w]: Go prints the bad operand and wraps nothing. *)
Definition Errorf_w_opt (prefix : string) (err : option error) : error :=
  match err with
  | Some e => Errorf_w prefix e
  | None => errorString (prefix +:+ "%!w(<nil>)")
  end.

End fmt.

(** ** A state monad for code with effects *)

Definition M (S A : Type) : Type := S → A * S.

Definition ret {S A} (a : A) : M S A := λ s, (a, s).

Definition bind {S A B} (m : M S A) (k : A → M S B) : M S B :=
  λ s, let '(a, s') := m s in k a s'.

Definition gets {S A} (f : S → A) : M S A := λ s, (f s, s).

Definition modify {S} (f : S → S) : M S unit := λ s, (tt, f s).

Declare Scope go_scope.
Delimit Scope go_scope with go.
Notation "'let*' p := m 'in' k" := (bind m (λ p, k))
  (at level 10, p pattern, m at level 100, k at level 200) : go_scope.
Notation "m ;; k" := (bind m (λ _, k))
  (at level 100, k at level 200, right associativity) : go_scope.
Local Open Scope go_scope.

(** ** The libraries the code calls *)

Module time.

(** [time.Second], in nanoseconds as [time.Duration] counts. *)
Definition Second : Z := 1000000000.

(** A state that keeps track of the time spent asleep. *)
Class Clock (St : Type) := Sleep : Z → M St unit.

End time.

Module filepath.

(** [filepath.Join] on two clean relative or absolute elements. *)
Definition Join (dir file : string) : string := dir +:+ "/" +:+ file.

End filepath.

Module apierrors.

(** Modelled from the spec: the predicates of [k8s.io/apimachinery] by
    which the retry policy tells "a write conflict, an internal server
    error, a service-unavailable condition", which are not among the
    sources.  They are written after the library. *)

(** [http.StatusConflict], [http.StatusInternalServerError] and
    [http.StatusServiceUnavailable]. *)
Definition StatusConflict : Z := 409.
Definition StatusInternalServerError : Z := 500.
Definition StatusServiceUnavailable : Z := 503.

(** [knownReasons]: the reasons the library has a name for;
    [StatusReasonUnknown] is not one of them. *)
Definition knownReasons : list StatusReason :=
  [ "Unauthorized"; "Forbidden"; "NotFound"; "AlreadyExists"; "Conflict";
    "Gone"; "Invalid"; "ServerTimeout"; "Timeout"; "TooManyRequests";
    "BadRequest"; "MethodNotAllowed"; "NotAcceptable";
    "RequestEntityTooLarge"; "UnsupportedMediaType"; "InternalError";
    "Expired"; "ServiceUnavailable" ].

(** [reasonAndCodeForError]: the reason and the code of the first API
    status on the chain of wrapped errors, and [StatusReasonUnknown] with
    code 0 when there is none. *)
Fixpoint reasonAndCodeForError (e : error) : StatusReason * Z :=
  match e with
  | StatusError reason code _ => (reason, code)
  | wrapError _ err => reasonAndCodeForError err
  | _ => (StatusReasonUnknown, 0%Z)
  end.

(** The body the three predicates share: the reason is [reason], or it is
    one the library has no name for and the code is [code]. *)
Definition hasReasonOrCode (e : error) (reason : StatusReason) (code : Z)
  : bool :=
  let '(r, c) := reasonAndCodeForError e in
  if bool_decide (r = reason) then true
  else if bool_decide (r ∉ knownReasons) && bool_decide (c = code) then true
  else false.

Definition IsConflict (e : error) : bool :=
  hasReasonOrCode e StatusReasonConflict StatusConflict.

Definition IsInternalError (e : error) : bool :=
  hasReasonOrCode e StatusReasonInternalError StatusInternalServerError.

Definition IsServiceUnavailable (e : error) : bool :=
  hasReasonOrCode e StatusReasonServiceUnavailable StatusServiceUnavailable.

End apierrors.

Module net.

(** Modelled from the spec: [net.IsConnectionRefused] of
    [k8s.io/apimachinery] ("a connection-refused condition"), written after
    the library: the first system call error on the chain of wrapped errors
    is [ECONNREFUSED]. *)
Fixpoint IsConnectionRefused (e : error) : bool :=
  match e with
  | Errno code => bool_decide (code = ECONNREFUSED)
  | wrapError _ err => IsConnectionRefused err
  | _ => false
  end.

End net.

Module wait.

(** [wait.Backoff]: the first delay, the factor it grows by and the number
    of attempts.  Jitter and cap are left out: no property below looks at
    the length of a delay. *)
Record Backoff := { Duration : Z; Factor : Z; Steps : Z }.

(** The delay after the one of length [d]. *)
Definition nextDuration (b : Backoff) (d : Z) : Z :=
  if bool_decide (Factor b = 0%Z) then d else (d * Factor b)%Z.

(** How far a call that may wait for ever has come. *)
Inductive Outcome := StillWaiting | Returned (err : option error).

(** Modelled from the spec: the "context-aware poll-until-true helper"
    [wait.PollUntilContextCancel(ctx, interval, immediate, condition)] of
    [k8s.io/apimachinery], which is not among the sources.  [condition] is
    run every [interval] until it returns true or an error, or until the
    context is done, which is looked at before every run ("if the worker's
    context is canceled while waiting, the wait aborts with a cancellation
    error rather than continuing to poll").  [ctxDone n] says whether
    the context is found done at the [n]-th look.  The loop has no bound
    of its own: [fuel] bounds the number of rounds, and [StillWaiting] is
    a wait that is still going on when the fuel is spent. *)
Fixpoint pollLoop `{time.Clock St} (fuel tick : nat) (ctxDone : nat → bool)
    (interval : Z) (condition : M St (bool * option error)) : M St Outcome :=
  match fuel with
  | O => ret StillWaiting
  | S fuel' =>
      if ctxDone tick then ret (Returned (Some Canceled))
      else
        time.Sleep interval ;;
        let* r := condition in
        match r with
        | (_, Some err) => ret (Returned (Some err))
        | (true, None) => ret (Returned None)
        | (false, None) => pollLoop fuel' (S tick) ctxDone interval condition
        end
  end.

Definition PollUntilContextCancel `{time.Clock St} (fuel : nat)
    (ctxDone : nat → bool) (interval : Z) (immediate : bool)
    (condition : M St (bool * option error)) : M St Outcome :=
  if immediate then
    let* r := condition in
    match r with
    | (_, Some err) => ret (Returned (Some err))
    | (true, None) => ret (Returned None)
    | (false, None) => pollLoop fuel 0 ctxDone interval condition
    end
  else pollLoop fuel 0 ctxDone interval condition.

End wait.

Module retry.

(** What a retried operation leaves behind: the state [op] of the
    operation itself and the delays slept between its attempts. *)
Record State (S : Type) := { op : S; slept : list Z }.
Arguments op {S} _.
Arguments slept {S} _.

#[global] Instance State_clock {S} : time.Clock (State S) :=
  λ d, modify (λ st, {| op := op st; slept := slept st ++ [d] |}).

(** Run the operation on the [op] part of the state. *)
Definition call {S A} (fn : M S A) : M (State S) A :=
  λ st, let '(a, s') := fn (op st) in (a, {| op := s'; slept := slept st |}).

(** Modelled from the spec: the loop of [retry.OnError] ("re-invokes the
    operation while the error remains retriable and the schedule is not
    exhausted").  [steps] attempts are left, the next delay is [d], and
    [lastErr] is the retriable error of the previous attempt. *)
Fixpoint onErrorLoop {S} (steps : nat) (b : wait.Backoff) (d : Z)
    (retriable : error → bool) (fn : M S (option error))
    (lastErr : option error) : M (State S) (option error) :=
  match steps with
  | O => ret lastErr
  | S steps' =>
      let* err := call fn in
      match err with
      | None => ret None
      | Some e =>
          if retriable e then
            match steps' with
            | O => ret (Some e)
            | S _ =>
                time.Sleep d ;;
                onErrorLoop steps' b (wait.nextDuration b d) retriable fn (Some e)
            end
          else ret (Some e)
      end
  end.

(** Modelled from the spec: [retry.OnError] of [k8s.io/client-go], which
    is not among the sources.  It "re-invokes the operation while the
    error remains retriable and the schedule is not exhausted" and
    "returns the last error once exhausted or once a non-retriable error
    is seen"; a schedule of no steps makes no attempt. *)
Definition OnError {S} (backoff : wait.Backoff) (retriable : error → bool)
    (fn : M S (option error)) : M (State S) (option error) :=
  onErrorLoop (Z.to_nat (wait.Steps backoff)) backoff (wait.Duration backoff)
              retriable fn None.

(** The operation run [n] times in a row: its results, oldest first, and
    the state it leaves. *)
Fixpoint invoke {S} (fn : M S (option error)) (n : nat) (s : S)
  : list (option error) * S :=
  match n with
  | O => ([], s)
  | S n' =>
      let '(r, s1) := fn s in
      let '(rs, s') := invoke fn n' s1 in
      (r :: rs, s')
  end.

(** The result of an attempt is an error the policy retries. *)
Definition retried (retriable : error → bool) (r : option error) : bool :=
  match r with
  | Some e => retriable e
  | None => false
  end.

End retry.

(** ** Package common *)

Module common.

(** The constants of the package that are declared outside the sources
    read here. *)
Class Consts := {
  SeedFormatOCILabel : string;
  SeedFormatVersion : Z;
  ImageRegistryAuthFile : string;
  LcaNamespace : string;
}.

(** [v1alpha1.ConfigMapRef] *)
Record ConfigMapRef := { Name : string; Namespace : string }.

#[global] Instance ConfigMapRef_eq_dec : EqDecision ConfigMapRef.
Proof. solve_decision. Defined.

#[global] Instance ConfigMapRef_countable : Countable ConfigMapRef.
Proof.
  apply (inj_countable' (λ r, (Name r, Namespace r))
                        (λ p, {| Name := p.1; Namespace := p.2 |})).
  by intros [].
Defined.

(** [corev1.ConfigMap], as far as this package looks into it. *)
Record ConfigMap := { cmRef : ConfigMapRef; cmData : gmap string string }.

(** The API server as [GetConfigMaps] sees it: the answer to a [Get] may
    depend on the reads made before it. *)
Definition Cluster : Type := list ConfigMapRef → ConfigMapRef → error + ConfigMap.

(** [c.Get]: the state is the list of reads made so far. *)
Definition clientGet (c : Cluster) (key : ConfigMapRef)
  : M (list ConfigMapRef) (error + ConfigMap) :=
  λ reads, (c reads key, reads ++ [key]).

(** [GetConfigMap] *)
Definition GetConfigMap (c : Cluster) (configMap : ConfigMapRef)
  : M (list ConfigMapRef) (error + ConfigMap) :=
  let* r := clientGet c configMap in
  match r with
  | inl err => ret (inl (fmt.Errorf_w "failed to get configMap " err))
  | inr cm => ret (inr cm)
  end.

(** The first loop of [GetConfigMaps]: one iteration. *)
Definition dedupStep (acc : gmap ConfigMapRef bool * list ConfigMapRef)
    (cm : ConfigMapRef) : gmap ConfigMapRef bool * list ConfigMapRef :=
  let '(cmSet, uniqueCms) := acc in
  match cmSet !! cm with
  | None => (<[cm := true]> cmSet, uniqueCms ++ [cm])
  | Some _ => (cmSet, uniqueCms)
  end.

(** The second loop of [GetConfigMaps]: fetch in order, stop at the first
    error. *)
Fixpoint fetchAll (c : Cluster) (uniqueCms : list ConfigMapRef)
    (cms : list ConfigMap) : M (list ConfigMapRef) (error + list ConfigMap) :=
  match uniqueCms with
  | [] => ret (inr cms)
  | cm :: rest =>
      let* r := GetConfigMap c cm in
      match r with
      | inl err => ret (inl err)
      | inr existingCm => fetchAll c rest (cms ++ [existingCm])
      end
  end.

(** [GetConfigMaps] *)
Definition GetConfigMaps (c : Cluster) (configMaps : list ConfigMapRef)
  : M (list ConfigMapRef) (error + list ConfigMap) :=
  let uniqueCms := (fold_left dedupStep configMaps (∅, [])).2 in
  fetchAll c uniqueCms [].

(** [isConflictOrRetriable] *)
Definition isConflictOrRetriable (err : error) : bool :=
  apierrors.IsConflict err || apierrors.IsInternalError err ||
  apierrors.IsServiceUnavailable err || net.IsConnectionRefused err.

(** [RetryOnConflictOrRetriable] *)
Definition RetryOnConflictOrRetriable {S} (backoff : wait.Backoff)
    (fn : M S (option error)) : M (retry.State S) (option error) :=
  retry.OnError backoff isConflictOrRetriable fn.

(** [RemoveDuplicates]: one iteration of the loop over [list]. *)
Definition removeStep `{Countable T} (acc : list T * gmap T bool) (item : T)
  : list T * gmap T bool :=
  let '(result, mp) := acc in
  match mp !! item with
  | Some _ => (result, mp)
  | None => (result ++ [item], <[item := true]> mp)
  end.

(** [RemoveDuplicates]; the parameter is [list] in the source. *)
Definition RemoveDuplicates `{Countable T} (items : list T) : list T :=
  (fold_left removeStep items ([], ∅)).1.

(** The distinct elements of a list in the order of their first occurrence,
    said directly: keep the head, drop its later copies, go on. *)
Fixpoint firstOccurrences `{EqDecision T} (l : list T) : list T :=
  match l with
  | [] => []
  | x :: l' => x :: filter (λ y, y ≠ x) (firstOccurrences l')
  end.

End common.

(** ** Collaborators of the prep stage *)

Module semver.

(** [github.com/coreos/go-semver]: parsing and the three-way comparison,
    negative, zero or positive. *)
Class Lib (Version : Type) := {
  NewVersion : string → error + Version;
  Compare : Version → Version → Z;
}.

End semver.

Module json.

(** One element of the output of [podman inspect --format json]. *)
Record ImageInspect := { Labels : gmap string string }.

(** [json.Unmarshal] into a slice of [ImageInspect]. *)
Class Decoder := Unmarshal : string → error + list ImageInspect.

End json.

Module precache.

(** The state of the precaching job in [precache.Status]; [Other] stands
    for a state string that is none of the three constants. *)
Inductive Phase := Active | Succeeded | Failed | Other.

#[global] Instance Phase_eq_dec : EqDecision Phase.
Proof. solve_decision. Defined.

(** [precache.Status] *)
Record Status := { Status_ : Phase; Message : string }.

(** [precache.ErrFailed] *)
Definition ErrFailed : error := ErrFailed.

End precache.

Module utils.

(** [utils.IBUWorkspacePath] *)
Class Consts := IBUWorkspacePath : string.

(** Modelled from the spec: the prep status condition of the upgrade
    resource that [SetPrepStatusInProgress], [SetPrepStatusCompleted] and
    [SetPrepStatusFailed] write ("one externally visible phase status ...
    taking one of: Initialized(message), InProgress(message),
    Completed(message), Failed(message)"). *)
Inductive PrepStatus :=
| Initialized (message : string)
| InProgress (message : string)
| Completed (message : string)
| Failed (message : string).

End utils.

(** ** Package controllers: what the prep stage works on *)

Module controllers.

(** [ibu.Spec.SeedImageRef] *)
Record SeedImageRef := {
  Image : string;
  Version : string;
  PullSecretRef : option string;
}.

(** [corev1.EnvVar], [corev1.Container] and [corev1.Pod], as far as
    [getPodEnvVars] reads them. *)
Record EnvVar := { envName : string; envValue : string; ValueFrom : option string }.
Record Container := { containerName : string; containerEnv : list EnvVar }.
Record Pod := { Containers : list Container }.

(** [seedclusterinfo.SeedClusterInfo], the two fields [launchPrecaching]
    reads. *)
Record SeedClusterInfo := {
  MirrorRegistryConfigured : bool;
  ReleaseRegistry : string;
}.

(** The places where the worker looks at its derived context. *)
Inductive Checkpoint :=
| BeforePull
| BeforeStateroot
| BeforePrecaching
| PollTick (n : nat).

#[global] Instance Checkpoint_eq_dec : EqDecision Checkpoint.
Proof. solve_decision. Defined.

(** What the collaborators answer during one run of the worker.
    [ctxDone] tells at each checkpoint whether the derived context is
    found canceled there; [queryJobStatus n] is the answer to the [n]-th
    status query, a Go pair of a status pointer and an error;
    [pathOutsideChroot f] is what [common.PathOutsideChroot f] returns
    during the run, [f] itself or [f] under the host mount. *)
Record Env := {
  ctxDone : Checkpoint → bool;
  getClusterVersion : error + string;
  getSecretData : error + string;
  writeFile : option error;
  podmanPull : option error;
  podmanInspect : string * option error;
  prepSetupStateroot : option error;
  rpmOstreeCleanup : option error;
  writeIBUAutoRollbackConfigFile : option error;
  backupKubeconfigCrypto : option error;
  getReleaseRegistry : error + string;
  readSeedClusterInfoFromFile : error + SeedClusterInfo;
  shouldOverrideSeedRegistry : error + bool;
  readPrecachingList : error + list string;
  getPod : error + Pod;
  createJob : option error;
  queryJobStatus : nat → option precache.Status * option error;
  pathOutsideChroot : string → string;
}.

(** A call to a collaborator, as it shows in the trace. *)
Inductive Event :=
| EvGetClusterVersion
| EvGetSecretData (name : string)
| EvWriteFile (path : string)
| EvRemove (path : string)
| EvExecute (command : string) (args : list string)
| EvSetupStateroot (image version imageListFile : string)
| EvRpmOstreeCleanup
| EvWriteIBUAutoRollbackConfigFile
| EvBackupKubeconfigCrypto
| EvGetReleaseRegistry
| EvReadSeedClusterInfoFromFile
| EvShouldOverrideSeedRegistry
| EvReadPrecachingList (imageListFile : string)
| EvGetPod
| EvCreateJob (imageList : list string) (envVars : list EnvVar)
| EvQueryJobStatus
| EvSleep (d : Z)
| EvMkdir (path : string)
| EvGo.

#[global] Instance EnvVar_eq_dec : EqDecision EnvVar.
Proof. solve_decision. Defined.

#[global] Instance Event_eq_dec : EqDecision Event.
Proof. solve_decision. Defined.

(** The Phase Task State [r.PrepTask].  [Cancel] and [done] hold the
    identity of a cancel function and of a channel, or are [nil]. *)
Record Task := {
  Active : bool;
  Success : bool;
  Cancel : option nat;
  Progress : string;
  done : option nat;
}.

(** Everything the dispatcher and the worker can change: the task, the
    channels closed so far (one entry per [close]), the cancel functions
    called so far, the allocator of channels and contexts, whether a
    [close] has panicked, the prep status of the upgrade resource, the
    trace of calls, the number of status queries made and the log. *)
Record World := {
  PrepTask : Task;
  closed : list nat;
  canceled : list nat;
  nextId : nat;
  panicked : bool;
  prepStatus : utils.PrepStatus;
  trace : list Event;
  queries : nat;
  logs : list string;
}.

Definition withTask (f : Task → Task) (w : World) : World :=
  {| PrepTask := f (PrepTask w); closed := closed w; canceled := canceled w;
     nextId := nextId w; panicked := panicked w; prepStatus := prepStatus w;
     trace := trace w; queries := queries w; logs := logs w |}.

Definition withTrace (f : list Event → list Event) (w : World) : World :=
  {| PrepTask := PrepTask w; closed := closed w; canceled := canceled w;
     nextId := nextId w; panicked := panicked w; prepStatus := prepStatus w;
     trace := f (trace w); queries := queries w; logs := logs w |}.

Definition withLogs (f : list string → list string) (w : World) : World :=
  {| PrepTask := PrepTask w; closed := closed w; canceled := canceled w;
     nextId := nextId w; panicked := panicked w; prepStatus := prepStatus w;
     trace := trace w; queries := queries w; logs := f (logs w) |}.

Definition withQueries (f : nat → nat) (w : World) : World :=
  {| PrepTask := PrepTask w; closed := closed w; canceled := canceled w;
     nextId := nextId w; panicked := panicked w; prepStatus := prepStatus w;
     trace := trace w; queries := f (queries w); logs := logs w |}.

Definition withPrepStatus (s : utils.PrepStatus) (w : World) : World :=
  {| PrepTask := PrepTask w; closed := closed w; canceled := canceled w;
     nextId := nextId w; panicked := panicked w; prepStatus := s;
     trace := trace w; queries := queries w; logs := logs w |}.

Definition withNextId (n : nat) (w : World) : World :=
  {| PrepTask := PrepTask w; closed := closed w; canceled := canceled w;
     nextId := n; panicked := panicked w; prepStatus := prepStatus w;
     trace := trace w; queries := queries w; logs := logs w |}.

Definition withClosed (f : list nat → list nat) (w : World) : World :=
  {| PrepTask := PrepTask w; closed := f (closed w); canceled := canceled w;
     nextId := nextId w; panicked := panicked w; prepStatus := prepStatus w;
     trace := trace w; queries := queries w; logs := logs w |}.

Definition withCanceled (f : list nat → list nat) (w : World) : World :=
  {| PrepTask := PrepTask w; closed := closed w; canceled := f (canceled w);
     nextId := nextId w; panicked := panicked w; prepStatus := prepStatus w;
     trace := trace w; queries := queries w; logs := logs w |}.

Definition withPanic (w : World) : World :=
  {| PrepTask := PrepTask w; closed := closed w; canceled := canceled w;
     nextId := nextId w; panicked := true; prepStatus := prepStatus w;
     trace := trace w; queries := queries w; logs := logs w |}.

(** *** Primitive effects *)

Definition emit (e : Event) : M World unit := modify (withTrace (λ t, t ++ [e])).

(** [r.Log.Info] and [r.Log.Error]: the message is kept, the key-value
    pairs are not. *)
Definition logInfo (msg : string) : M World unit :=
  modify (withLogs (λ l, l ++ [msg])).

#[global] Instance World_clock : time.Clock World := λ d, emit (EvSleep d).

(** The task with another [Progress], with another [Success]. *)
Definition progressed (s : string) (t : Task) : Task :=
  {| Active := Active t; Success := Success t; Cancel := Cancel t;
     Progress := s; done := done t |}.

Definition succeeded (b : bool) (t : Task) : Task :=
  {| Active := Active t; Success := b; Cancel := Cancel t;
     Progress := Progress t; done := done t |}.

(** [r.PrepTask.Progress = s] *)
Definition setProgress (s : string) : M World unit :=
  modify (withTask (progressed s)).

(** [r.PrepTask.Success = b] *)
Definition setSuccess (b : bool) : M World unit :=
  modify (withTask (succeeded b)).

(** [make(chan struct{})] and [context.WithCancel]: a fresh identity. *)
Definition fresh : M World nat :=
  λ w, (nextId w, withNextId (S (nextId w)) w).

(** [close(ch)]: closing a [nil] channel or a closed one panics. *)
Definition close (ch : option nat) : M World unit :=
  match ch with
  | None => modify withPanic
  | Some c =>
      λ w, if bool_decide (c ∈ closed w) then (tt, withPanic w)
           else (tt, withClosed (λ l, l ++ [c]) w)
  end.

(** The non-blocking receive [case <-ch:] of a [select] with a [default]:
    ready when the channel is closed, never on a [nil] channel. *)
Definition fired (ch : option nat) (w : World) : bool :=
  match ch with
  | None => false
  | Some c => bool_decide (c ∈ closed w)
  end.

(** Calling a cancel function. *)
Definition callCancel (c : nat) : M World unit :=
  modify (withCanceled (λ l, l ++ [c])).

(** Modelled from the spec: [Task.Reset], declared outside the sources
    read here ("clears active, success, progress to initial values ...
    releases the prior cancel/done handles"). *)
Definition Reset : M World unit :=
  modify (withTask (λ _, {| Active := false; Success := false; Cancel := None;
                            Progress := ""; done := None |})).

(** Modelled from the spec: the two results [doNotRequeue] and
    [requeueWithShortInterval] build ("requeue after short interval" or
    "no further requeue needed for this phase"). *)
Inductive Result := doNotRequeue | requeueWithShortInterval.

(** What [os.Stat] finds. *)
Inductive StatResult := StatOk | StatNotExist | StatError (err : error).

(** The file system as one invocation of [handlePrep] finds it. *)
Record Fs := {
  statHost : StatResult;
  statWorkspace : StatResult;
  mkdirWorkspace : option error;
}.

(** The error of a failed [os.Stat]. *)
Definition statErr (r : StatResult) : option error :=
  match r with
  | StatOk => None
  | StatNotExist => Some (errorString "no such file or directory")
  | StatError err => Some err
  end.

(** *** The steps of the worker *)

Section Worker.

Context `{!common.Consts, !utils.Consts, !json.Decoder}.
Context `{!semver.Lib SemVer}.
Variable env : Env.

(** [checkSeedImageCompatibility] *)
Definition checkSeedImageCompatibility (seedImageRef : string)
  : M World (option error) :=
  emit (EvExecute "podman" ["inspect"; "--format"; "json"; seedImageRef]) ;;
  let '(inspectRaw, err) := podmanInspect env in
  if bool_decide (err ≠ None) || bool_decide (inspectRaw = "") then
    ret (Some (fmt.Errorf_w_opt "failed to inspect image: " err))
  else
    match json.Unmarshal inspectRaw with
    | inl err =>
        ret (Some (fmt.Errorf_w "failed to unmarshal image inspect output: " err))
    | inr inspect =>
        match inspect with
        | [image] =>
            match json.Labels image !! common.SeedFormatOCILabel with
            | None =>
                ret (Some (fmt.Errorf
                  ("seed image " +:+ seedImageRef +:+ " is missing the " +:+
                   common.SeedFormatOCILabel +:+
                   " label, please build a new image using the latest version of the lca-cli")))
            | Some seedFormatLabelValue =>
                if bool_decide (seedFormatLabelValue ≠
                                fmt.Sprintf_d common.SeedFormatVersion) then
                  ret (Some (fmt.Errorf
                    ("seed image format version mismatch: expected " +:+
                     fmt.Sprintf_d common.SeedFormatVersion +:+ ", got " +:+
                     seedFormatLabelValue)))
                else ret None
            end
        | _ =>
            ret (Some (fmt.Errorf
              ("expected 1 image inspect result, got " +:+
               fmt.Sprintf_d (Z.of_nat (length inspect)))))
        end
    end.

(** The part of [getSeedImage] after the pull secret is in place. *)
Definition pullAndCheck (pullSecretFilename : string) (ibu : SeedImageRef)
  : M World (option error) :=
  logInfo "Pulling seed image" ;;
  emit (EvExecute "podman" ["pull"; "--authfile"; pullSecretFilename; Image ibu]) ;;
  match podmanPull env with
  | Some err => ret (Some (fmt.Errorf_w "failed to pull image: " err))
  | None =>
      logInfo "Checking seed image compatibility" ;;
      let* cerr := checkSeedImageCompatibility (Image ibu) in
      match cerr with
      | Some err => ret (Some (fmt.Errorf_w "checking seed image compatibility: " err))
      | None => ret None
      end
  end.

(** [getSeedImage]: the deferred [os.Remove] runs on every way out once
    the secret file has been written. *)
Definition getSeedImage (ibu : SeedImageRef) : M World (option error) :=
  match PullSecretRef ibu with
  | Some name =>
      emit (EvGetSecretData name) ;;
      match getSecretData env with
      | inl err =>
          ret (Some (fmt.Errorf_w
            ("failed to retrieve pull-secret from secret " +:+ name +:+ ", err: ") err))
      | inr pullSecret =>
          let pullSecretFilename :=
            filepath.Join utils.IBUWorkspacePath "seed-pull-secret" in
          emit (EvWriteFile pullSecretFilename) ;;
          match writeFile env with
          | Some err =>
              ret (Some (fmt.Errorf_w
                ("failed to write seed image pull-secret to file " +:+
                 pullSecretFilename +:+ ", err: ") err))
          | None =>
              let* r := pullAndCheck pullSecretFilename ibu in
              emit (EvRemove pullSecretFilename) ;;
              ret r
          end
      end
  | None => pullAndCheck common.ImageRegistryAuthFile ibu
  end.

(** [validateSeedOcpVersion] *)
Definition validateSeedOcpVersion (seedOcpVersion : string)
  : M World (option error) :=
  emit EvGetClusterVersion ;;
  match getClusterVersion env with
  | inl err => ret (Some (fmt.Errorf_w "failed to get ClusterVersion for target: " err))
  | inr targetOCP =>
      match semver.NewVersion targetOCP with
      | inl err =>
          ret (Some (fmt.Errorf_w
            ("failed to parse target version " +:+ targetOCP +:+ ": ") err))
      | inr targetSemVer =>
          match semver.NewVersion seedOcpVersion with
          | inl err =>
              ret (Some (fmt.Errorf_w
                ("failed to parse seed version " +:+ seedOcpVersion +:+ ": ") err))
          | inr seedSemVer =>
              if bool_decide (semver.Compare seedSemVer targetSemVer ≤ 0)%Z then
                ret (Some (fmt.Errorf
                  ("seed OCP version (" +:+ seedOcpVersion +:+
                   ") must be higher than current OCP version (" +:+
                   targetOCP +:+ ")")))
              else
                logInfo "OCP versions are validated" ;;
                ret None
          end
      end
  end.

(** The loop of [getPodEnvVars] over the containers of the pod. *)
Fixpoint managerEnvVars (containers : list Container) : list EnvVar :=
  match containers with
  | [] => []
  | container :: rest =>
      if bool_decide (containerName container = "manager") then
        filter (λ envVar, ValueFrom envVar = None) (containerEnv container)
      else managerEnvVars rest
  end.

(** [getPodEnvVars] *)
Definition getPodEnvVars : M World (error + list EnvVar) :=
  emit EvGetPod ;;
  match getPod env with
  | inl err => ret (inl (fmt.Errorf_w "failed to get pod info: " err))
  | inr pod => ret (inr (managerEnvVars (Containers pod)))
  end.

(** [launchPrecaching] *)
Definition launchPrecaching (imageListFile : string)
  : M World (bool * option error) :=
  emit EvGetReleaseRegistry ;;
  match getReleaseRegistry env with
  | inl err => ret (false, Some (fmt.Errorf_w "failed to get cluster registry: " err))
  | inr clusterRegistry =>
  emit EvReadSeedClusterInfoFromFile ;;
  match readSeedClusterInfoFromFile env with
  | inl err => ret (false, Some (fmt.Errorf_w "failed to read seed info: " err))
  | inr seedInfo =>
  emit EvShouldOverrideSeedRegistry ;;
  match shouldOverrideSeedRegistry env with
  | inl err =>
      ret (false, Some (fmt.Errorf_w "failed to check ShouldOverrideSeedRegistry " err))
  | inr shouldOverrideRegistry =>
  emit (EvReadPrecachingList imageListFile) ;;
  match readPrecachingList env with
  | inl err =>
      ret (false, Some (fmt.Errorf_w
        ("failed to read pre-caching image file: " +:+
         pathOutsideChroot env imageListFile +:+ ", ") err))
  | inr imageList =>
  let* vars := getPodEnvVars in
  match vars with
  | inl err => ret (false, Some (fmt.Errorf_w "failed to get pod env vars: " err))
  | inr envVars =>
  emit (EvCreateJob imageList envVars) ;;
  match createJob env with
  | Some err => ret (false, Some (fmt.Errorf_w "failed to create precaching job: " err))
  | None => ret (true, None)
  end end end end end end.

(** [r.Precache.QueryJobStatus]: the next answer of the job runtime. *)
Definition QueryJobStatus : M World (option precache.Status * option error) :=
  emit EvQueryJobStatus ;;
  let* n := gets queries in
  modify (withQueries S) ;;
  ret (queryJobStatus env n).

(** [queryPrecachingStatus] *)
Definition queryPrecachingStatus : M World (option precache.Status * option error) :=
  let* (status, err) := QueryJobStatus in
  match err with
  | Some _ =>
      logInfo "Failed to get precaching job status" ;;
      ret (status, err)
  | None =>
      match status with
      | None =>
          logInfo "Precaching job status is nil" ;;
          ret (status, err)
      | Some st =>
          if bool_decide (precache.Status_ st = precache.Failed) then
            ret (status, Some precache.ErrFailed)
          else
            let logMsg :=
              match precache.Status_ st with
              | precache.Active => "Precaching in-progress"
              | precache.Succeeded => "Precaching completed"
              | _ => ""
              end in
            let logMsg :=
              if bool_decide (precache.Message st ≠ "") then
                logMsg +:+ ": " +:+ precache.Message st
              else logMsg in
            logInfo logMsg ;;
            ret (status, err)
      end
  end.

(** [SetupStateroot] *)
Definition SetupStateroot (ibu : SeedImageRef) (imageListFile : string)
  : M World (option error) :=
  emit (EvSetupStateroot (Image ibu) (Version ibu) imageListFile) ;;
  match prepSetupStateroot env with
  | Some err => ret (Some (fmt.Errorf_w "failed to setup stateroot: " err))
  | None =>
  emit EvRpmOstreeCleanup ;;
  match rpmOstreeCleanup env with
  | Some err => ret (Some (fmt.Errorf_w "failed rpm-ostree cleanup -b: " err))
  | None =>
  emit EvWriteIBUAutoRollbackConfigFile ;;
  match writeIBUAutoRollbackConfigFile env with
  | Some err => ret (Some (fmt.Errorf_w "failed to write auto-rollback config: " err))
  | None =>
  emit EvBackupKubeconfigCrypto ;;
  match backupKubeconfigCrypto env with
  | Some err => ret (Some (fmt.Errorf_w "failed to backup cerificaties: " err))
  | None => ret None
  end end end end.

(** The loop of the condition [verifyPrecachingCompleteFunc] returns:
    [n] iterations are left; [None] is the loop running to its end. *)
Fixpoint verifyLoop (n : nat) (interval : Z) : M World (option (bool * option error)) :=
  match n with
  | O => ret None
  | S n' =>
      let* (status, err) := queryPrecachingStatus in
      if match err with
         | Some e => errors.Is e precache.ErrFailed
         | None => false
         end
      then ret (Some (false, err))
      else
        let retryAfterInterval :=
          time.Sleep interval ;;
          verifyLoop n' interval in
        match status with
        | Some st =>
            (if bool_decide (precache.Message st ≠ "") then
               setProgress ("Precaching progress: " +:+ precache.Message st)
             else ret tt) ;;
            if bool_decide (precache.Status_ st = precache.Succeeded) then
              ret (Some (true, None))
            else if bool_decide (precache.Status_ st = precache.Active) then
              ret (Some (false, None))
            else retryAfterInterval
        | None => retryAfterInterval
        end
  end.

(** [verifyPrecachingCompleteFunc] *)
Definition verifyPrecachingCompleteFunc (retries : Z) (interval : Z)
  : M World (bool * option error) :=
  logInfo "Querying pre-caching job for completion..." ;;
  let* r := verifyLoop (Z.to_nat retries) interval in
  match r with
  | Some res => ret res
  | None =>
      ret (false, Some (fmt.Errorf
        ("failed more than " +:+ fmt.Sprintf_d retries +:+
         " times to fetch precaching job status")))
  end.

(** The function [prepStageWorker] runs in its error group is a row of
    blocks, each leaving the function with its error.  The blocks come
    first, under the name of the comment that opens them in the source;
    [imageListFile] is the local variable they share. *)
Definition imageListFile : string :=
  filepath.Join utils.IBUWorkspacePath "image-list-file".

(** "check spec against this cluster's version and possibly exit early" *)
Definition checkSpecVersion (ibu : SeedImageRef) : M World (option error) :=
  let* verr := validateSeedOcpVersion (Version ibu) in
  match verr with
  | Some err =>
      ret (Some (fmt.Errorf_w
        "failed to validate seed image OCP version in spec: " err))
  | None => ret None
  end.

(** "Pull seed image" *)
Definition pullSeedImage (ibu : SeedImageRef) : M World (option error) :=
  if ctxDone env BeforePull then
    ret (Some (fmt.Errorf_w "context canceled before pulling seed image: " Canceled))
  else
    setProgress "Pulling seed image" ;;
    let* perr := getSeedImage ibu in
    match perr with
    | Some err => ret (Some (fmt.Errorf_w "failed to pull seed image: " err))
    | None =>
        logInfo "Successfully pulled seed image" ;;
        setProgress "Successfully pulled seed image" ;;
        ret None
    end.

(** "Setup state-root" *)
Definition setupStateroot (ibu : SeedImageRef) : M World (option error) :=
  if ctxDone env BeforeStateroot then
    ret (Some (fmt.Errorf_w "context canceled before setting up stateroot: " Canceled))
  else
    setProgress "Setting up stateroot" ;;
    let* serr := SetupStateroot ibu imageListFile in
    match serr with
    | Some err =>
        ret (Some (fmt.Errorf_w
          "failed to setup stateroot with prep stage worker: " err))
    | None =>
        logInfo "Successfully setup stateroot" ;;
        setProgress "Successfully setup stateroot" ;;
        ret None
    end.

(** "Launch precaching job" *)
Definition launchPrecachingJob : M World (option error) :=
  if ctxDone env BeforePrecaching then
    ret (Some (fmt.Errorf_w
      "context canceled before creating precaching job: " Canceled))
  else
    setProgress "Creating precaching job" ;;
    let* (ok, lerr) := launchPrecaching imageListFile in
    match lerr with
    | Some err => ret (Some (fmt.Errorf_w "failed to launch pre-caching phase: " err))
    | None =>
        if negb ok then ret (Some (fmt.Errorf "failed to create precaching job"))
        else
          logInfo "Successfully created precaching job" ;;
          setProgress "Successfully created precaching job" ;;
          ret None
    end.

(** "Wait for precaching job to complete" *)
Definition waitForPrecaching (fuel : nat) : M World wait.Outcome :=
  setProgress "Waiting for precaching job to complete" ;;
  let interval := (30 * time.Second)%Z in
  let* werr := wait.PollUntilContextCancel fuel (λ n, ctxDone env (PollTick n))
                 interval false (verifyPrecachingCompleteFunc 5 interval) in
  match werr with
  | wait.StillWaiting => ret wait.StillWaiting
  | wait.Returned (Some err) =>
      ret (wait.Returned (Some (fmt.Errorf_w "failed to precache images: " err)))
  | wait.Returned None => ret (wait.Returned None)
  end.

(** "Fetch final precaching job report summary" *)
Definition finalReport : M World unit :=
  let msg := "Prep completed successfully" in
  let* (status, err) := QueryJobStatus in
  match err, status with
  | None, Some st =>
      if bool_decide (precache.Message st ≠ "") then logInfo msg else ret tt
  | _, _ => ret tt
  end ;;
  setProgress msg.

(** The function itself. *)
Definition pipeline (fuel : nat) (ibu : SeedImageRef) : M World wait.Outcome :=
  let* e1 := checkSpecVersion ibu in
  match e1 with
  | Some err => ret (wait.Returned (Some err))
  | None =>
  let* e2 := pullSeedImage ibu in
  match e2 with
  | Some err => ret (wait.Returned (Some err))
  | None =>
  let* e3 := setupStateroot ibu in
  match e3 with
  | Some err => ret (wait.Returned (Some err))
  | None =>
  let* e4 := launchPrecachingJob in
  match e4 with
  | Some err => ret (wait.Returned (Some err))
  | None =>
  let* r5 := waitForPrecaching fuel in
  match r5 with
  | wait.Returned None =>
      finalReport ;;
      ret (wait.Returned None)
  | r => ret r
  end end end end end.

(** [prepStageWorker]: the cancel function of the derived context is
    stored in the task and, being deferred, called on the way out. *)
Definition prepStageWorker (fuel : nat) (ibu : SeedImageRef) : M World wait.Outcome :=
  let* c := fresh in
  modify (withTask (λ t, {| Active := Active t; Success := Success t;
                            Cancel := Some c; Progress := Progress t;
                            done := done t |})) ;;
  let* r := pipeline fuel ibu in
  match r with
  | wait.StillWaiting => ret wait.StillWaiting
  | wait.Returned (Some err) =>
      setProgress ("Prep failed with error: " +:+ Error err) ;;
      callCancel c ;;
      ret (wait.Returned (Some (fmt.Errorf_w
        "encountered error while running prep-stage worker goroutine: " err)))
  | wait.Returned None =>
      callCancel c ;;
      ret (wait.Returned None)
  end.

(** The goroutine [handlePrep] starts: the worker, then the completion
    signal, then the outcome. *)
Definition prepGoroutine (fuel : nat) (ibu : SeedImageRef) : M World wait.Outcome :=
  let* r := prepStageWorker fuel ibu in
  match r with
  | wait.StillWaiting => ret wait.StillWaiting
  | wait.Returned err =>
      let* ch := gets (λ w, done (PrepTask w)) in
      close ch ;;
      match err with
      | Some _ =>
          logInfo "Prep stage failed with error" ;;
          setSuccess false
      | None =>
          logInfo "Prep stage completed successfully!" ;;
          setSuccess true
      end ;;
      ret (wait.Returned err)
  end.

End Worker.

(** *** The dispatcher *)

Section Dispatcher.

Context `{!utils.Consts}.

(** Modelled from the spec: [utils.SetPrepStatusInProgress],
    [utils.SetPrepStatusCompleted] and [utils.SetPrepStatusFailed],
    declared outside the sources read here, set the prep status of the
    upgrade resource to the state of their name with the message. *)
Definition SetPrepStatusInProgress (msg : string) : M World unit :=
  modify (withPrepStatus (utils.InProgress msg)).
Definition SetPrepStatusCompleted (msg : string) : M World unit :=
  modify (withPrepStatus (utils.Completed msg)).
Definition SetPrepStatusFailed (msg : string) : M World unit :=
  modify (withPrepStatus (utils.Failed msg)).

(** [handlePrep].  The statement [go func() { ... }()] leaves [EvGo] in
    the trace; the goroutine itself is [prepGoroutine], which runs
    beside the dispatcher.  The goroutine writes the named result [err] of
    [handlePrep] when the worker returns; the error returned here is the one
    the dispatcher itself has set. *)
Definition handlePrep (fs : Fs) : M World (Result * option error) :=
  match statErr (statHost fs) with
  | Some err => ret (doNotRequeue, Some (fmt.Errorf_w "host dir does not exist: " err))
  | None =>
      let* err :=
        match statWorkspace fs with
        | StatNotExist =>
            emit (EvMkdir utils.IBUWorkspacePath) ;;
            ret (mkdirWorkspace fs)
        | r => ret (statErr r)
        end in
      match err with
      | Some e => ret (doNotRequeue, Some e)
      | None =>
          let* task := gets PrepTask in
          if negb (Active task) then
            let* ch := fresh in
            modify (withTask (λ t, {| Active := true; Success := false;
                                      Cancel := Cancel t;
                                      Progress := "Prep stage initialized";
                                      done := Some ch |})) ;;
            emit EvGo ;;
            let* progress := gets (λ w, Progress (PrepTask w)) in
            SetPrepStatusInProgress progress ;;
            ret (requeueWithShortInterval, None)
          else
            let* isDone := gets (fired (done task)) in
            if isDone then
              (if Success task then SetPrepStatusCompleted (Progress task)
               else SetPrepStatusFailed (Progress task)) ;;
              Reset ;;
              ret (doNotRequeue, None)
            else
              SetPrepStatusInProgress (Progress task) ;;
              ret (requeueWithShortInterval, None)
      end
  end.

End Dispatcher.

End controllers.

(** ** The vocabulary of the properties *)

Import controllers.

(** The map of the loop of [RemoveDuplicates] holds exactly the items of the
    result so far. *)
Definition tracks `{Countable T} (mp : gmap T bool) (r : list T) : Prop :=
  ∀ x, is_Some (mp !! x) ↔ x ∈ r.

(** The chain of an error: the error itself and what [errors.Unwrap] gives,
    again and again. *)
Fixpoint chain (e : error) : list error :=
  e :: match e with
       | wrapError _ err => chain err
       | _ => []
       end.

(** The reason and code of an error that is an API status, and the number
    of one that is a system call error. *)
Definition apiStatus (e : error) : option (StatusReason * Z) :=
  match e with
  | StatusError reason code _ => Some (reason, code)
  | _ => None
  end.

Definition errno (e : error) : option Z :=
  match e with
  | Errno code => Some code
  | _ => None
  end.

Section Vocabulary.

Context `{!common.Consts, !utils.Consts, !json.Decoder}.
Implicit Types (env : Env) (w : World) (fs : Fs).

(** The gate makes one call, whatever it answers. *)
Definition asked (w : World) : World :=
  withTrace (λ t, t ++ [EvGetClusterVersion]) w.

(** What [podman inspect] must have shown for the image to pass: output
    without error, not empty, that decodes to one image whose labels carry
    the format version this build expects. *)
Definition compatible env : Prop :=
  ∃ inspectRaw image,
    podmanInspect env = (inspectRaw, None)
    ∧ inspectRaw ≠ ""
    ∧ json.Unmarshal inspectRaw = inr [image]
    ∧ json.Labels image !! common.SeedFormatOCILabel
      = Some (fmt.Sprintf_d common.SeedFormatVersion).

Definition inspected (seedImageRef : string) (w : World) : World :=
  withTrace (λ t, t ++ [EvExecute "podman" ["inspect"; "--format"; "json"; seedImageRef]]) w.

(** The calls of the version gate and of the image acquisition. *)
Definition acquisition (e : Event) : bool :=
  match e with
  | EvGetClusterVersion | EvGetSecretData _ | EvWriteFile _ | EvRemove _
  | EvExecute _ _ => true
  | _ => false
  end.

(** [w'] is [w] after the calls [evs], all of them before the deployment
    is set up. *)
Definition acquiring (w w' : World) : Prop :=
  ∃ evs, trace w' = trace w ++ evs ∧ Forall (λ e, acquisition e = true) evs.

(** The world after one status query. *)
Definition queried (w : World) : World :=
  withQueries S (withTrace (λ t, t ++ [EvQueryJobStatus]) w).

(** An answer that settles nothing: no status, and no error or an error
    other than the failure of the job.  A Go call that returns an error
    returns a [nil] status with it. *)
Definition indeterminate (a : option precache.Status * option error) : Prop :=
  a.1 = None ∧
  match a.2 with
  | Some e => errors.Is e precache.ErrFailed = false
  | None => True
  end.

(** An answer on which the poller sleeps and asks again: it brings no
    failure of the job (no error that is the failure, and no status [Failed]
    free of a query error), and no status [Succeeded] or [Active]. *)
Definition unsettled (a : option precache.Status * option error) : Prop :=
  match a.2 with
  | Some e => errors.Is e precache.ErrFailed = false
  | None => ∀ st, a.1 = Some st → precache.Status_ st ≠ precache.Failed
  end
  ∧ ∀ st, a.1 = Some st →
      precache.Status_ st ≠ precache.Succeeded
      ∧ precache.Status_ st ≠ precache.Active.

(** The progress the poller shows after it has seen [st]. *)
Definition progressAfter (st : precache.Status) (old : string) : string :=
  if bool_decide (precache.Message st ≠ "") then
    "Precaching progress: " +:+ precache.Message st
  else old.

(** The error of the workspace check: a missing directory is made. *)
Definition workspaceErr fs : option error :=
  match statWorkspace fs with
  | StatNotExist => mkdirWorkspace fs
  | r => statErr r
  end.

(** Both precondition checks of [handlePrep] pass. *)
Definition preconditionsMet fs : Prop :=
  statErr (statHost fs) = None ∧ workspaceErr fs = None.

(** The world once the workspace has been looked at. *)
Definition prepared fs w : World :=
  match statWorkspace fs with
  | StatNotExist => withTrace (λ t, t ++ [EvMkdir utils.IBUWorkspacePath]) w
  | _ => w
  end.

(** The task of a run that has just been started on channel [ch]. *)
Definition startedTask (ch : nat) (t : Task) : Task :=
  {| Active := true; Success := false; Cancel := Cancel t;
     Progress := "Prep stage initialized"; done := Some ch |}.

(** The number of worker goroutines started so far. *)
Definition isGo (e : Event) : bool :=
  match e with EvGo => true | _ => false end.

Definition started w : nat := length (List.filter isGo (trace w)).

(** What the worker of a run may do to the world while it has not
    returned: it leaves [Active], [done], the closed channels and the
    goroutines started alone, and gives no identity out twice. *)
Definition interference w w' : Prop :=
  Active (PrepTask w') = Active (PrepTask w)
  ∧ done (PrepTask w') = done (PrepTask w)
  ∧ closed w' = closed w
  ∧ nextId w ≤ nextId w'
  ∧ started w' = started w.

(** The life of the controller while no worker completes: reconciles, with
    any file system, and steps of the running worker in between. *)
Inductive step : World → World → Prop :=
| step_reconcile fs w : step w (handlePrep fs w).2
| step_worker w w' : interference w w' → step w w'.

(** The channels closed so far were given out by the allocator. *)
Definition allocated w : Prop := ∀ c, c ∈ closed w → c < nextId w.

(** What holds of every world reached from [w0] while no worker completes:
    no channel is closed, and a worker has been started exactly when the
    task is active, its completion signal still open. *)
Definition oneWorker (w0 w : World) : Prop :=
  closed w = closed w0
  ∧ nextId w0 ≤ nextId w
  ∧ if Active (PrepTask w)
    then started w = S (started w0) ∧ fired (done (PrepTask w)) w = false
    else started w = started w0.

(** The steps of the worker write the progress, the cancel function, the
    trace, the log and the counters; everything the dispatcher decides on
    stays as it is. *)
Definition frame w w' : Prop :=
  Active (PrepTask w') = Active (PrepTask w)
  ∧ Success (PrepTask w') = Success (PrepTask w)
  ∧ done (PrepTask w') = done (PrepTask w)
  ∧ closed w' = closed w
  ∧ panicked w' = panicked w
  ∧ prepStatus w' = prepStatus w
  ∧ nextId w ≤ nextId w'
  ∧ started w' = started w.

(** A computation all of whose runs stay within the frame. *)
Definition framed {A} (m : M World A) : Prop := ∀ w, frame w (m w).2.

(** The error of a block that finds its context canceled. *)
Definition canceledBefore (step : string) : error :=
  fmt.Errorf_w ("context canceled before " +:+ step +:+ ": ") Canceled.

(** The world in which the steps run: the cancel function of the derived
    context is in the task. *)
Definition derived w : World :=
  withTask (λ t, {| Active := Active t; Success := Success t;
                    Cancel := Some (nextId w); Progress := Progress t;
                    done := done t |})
           (withNextId (S (nextId w)) w).

End Vocabulary.

(** ** Test doubles

    Stand-ins for the collaborators, to run the code on concrete inputs. *)

Module testing.

(** A dotted-triple reading of [semver.NewVersion] and [Compare]: three
    decimal numbers, compared from the left. *)
Definition digit (a : Ascii.ascii) : option nat :=
  let n := Ascii.nat_of_ascii a in
  if (48 <=? n)%nat && (n <=? 57)%nat then Some (n - 48)%nat else None.

Fixpoint parseDigits (s : string) (acc : nat) : option nat :=
  match s with
  | EmptyString => Some acc
  | String a s' =>
      match digit a with
      | Some d => parseDigits s' (10 * acc + d)%nat
      | None => None
      end
  end.

Definition parseNumber (s : string) : option Z :=
  if bool_decide (s = "") then None else Z.of_nat <$> parseDigits s 0.

Fixpoint splitOnDot (s cur : string) : list string :=
  match s with
  | EmptyString => [cur]
  | String a s' =>
      if bool_decide (Ascii.nat_of_ascii a = 46%nat) then cur :: splitOnDot s' ""
      else splitOnDot s' (cur +:+ String a "")
  end.

Definition parseVersion (s : string) : error + Z * Z * Z :=
  match splitOnDot s "" with
  | [a; b; c] =>
      match parseNumber a, parseNumber b, parseNumber c with
      | Some x, Some y, Some z => inr (x, y, z)
      | _, _, _ => inl (errorString (s +:+ ": invalid syntax"))
      end
  | _ => inl (errorString (s +:+ " is not in dotted-tri format"))
  end.

Definition compareZ (a b : Z) : Z :=
  if bool_decide (a < b)%Z then (-1)%Z
  else if bool_decide (b < a)%Z then 1%Z else 0%Z.

Definition compareVersion (v w : Z * Z * Z) : Z :=
  let '(a1, b1, c1) := v in
  let '(a2, b2, c2) := w in
  if bool_decide (compareZ a1 a2 ≠ 0%Z) then compareZ a1 a2
  else if bool_decide (compareZ b1 b2 ≠ 0%Z) then compareZ b1 b2
  else compareZ c1 c2.

#[export] Instance semverLib : semver.Lib (Z * Z * Z) :=
  {| semver.NewVersion := parseVersion; semver.Compare := compareVersion |}.

#[export] Instance commonConsts : common.Consts :=
  {| common.SeedFormatOCILabel := "com.openshift.lifecycle-agent.seed_format_version";
     common.SeedFormatVersion := 3;
     common.ImageRegistryAuthFile := "/var/lib/kubelet/config.json";
     common.LcaNamespace := "openshift-lifecycle-agent" |}.

#[export] Instance utilsConsts : utils.Consts := "/var/ibu".

(** A decoder that knows three outputs of [podman inspect]. *)
Definition labelled (value : string) : json.ImageInspect :=
  {| json.Labels := {[ "com.openshift.lifecycle-agent.seed_format_version" := value ]} |}.

#[export] Instance decoder : json.Decoder := λ raw,
  if bool_decide (raw = "one-v3") then inr [labelled "3"]
  else if bool_decide (raw = "one-v2") then inr [labelled "2"]
  else if bool_decide (raw = "one-unlabelled") then inr [{| json.Labels := ∅ |}]
  else if bool_decide (raw = "two-v3") then inr [labelled "3"; labelled "3"]
  else if bool_decide (raw = "none") then inr []
  else inl (errorString "invalid character").

(** The job runtime answering from a script, then with no status. *)
Definition scripted (answers : list (option precache.Status * option error))
  : nat → option precache.Status * option error :=
  λ n, default (None, None) (answers !! n).

Definition status (phase : precache.Phase) (message : string)
  : option precache.Status * option error :=
  (Some {| precache.Status_ := phase; precache.Message := message |}, None).

Definition managerPod : controllers.Pod :=
  {| controllers.Containers :=
       [ {| controllers.containerName := "manager";
            controllers.containerEnv :=
              [ {| controllers.envName := "HTTP_PROXY";
                   controllers.envValue := "http://proxy";
                   controllers.ValueFrom := None |};
                {| controllers.envName := "MY_POD_NAME";
                   controllers.envValue := "";
                   controllers.ValueFrom := Some "metadata.name" |} ] |} ] |}.

(** A run in which every collaborator but the ones named succeeds:
    [done_] says where the context is found canceled, [current] is the
    version of the cluster, [inspect] the output of [podman inspect] and
    [answers] the script of the job runtime. *)
Definition env (done_ : controllers.Checkpoint → bool) (current : string)
    (inspect : string * option error)
    (answers : list (option precache.Status * option error)) : controllers.Env :=
  {| controllers.ctxDone := done_;
     controllers.getClusterVersion := inr current;
     controllers.getSecretData := inr "{}";
     controllers.writeFile := None;
     controllers.podmanPull := None;
     controllers.podmanInspect := inspect;
     controllers.prepSetupStateroot := None;
     controllers.rpmOstreeCleanup := None;
     controllers.writeIBUAutoRollbackConfigFile := None;
     controllers.backupKubeconfigCrypto := None;
     controllers.getReleaseRegistry := inr "quay.io";
     controllers.readSeedClusterInfoFromFile :=
       inr {| controllers.MirrorRegistryConfigured := false;
              controllers.ReleaseRegistry := "quay.io" |};
     controllers.shouldOverrideSeedRegistry := inr false;
     controllers.readPrecachingList := inr ["quay.io/a"; "quay.io/b"];
     controllers.getPod := inr managerPod;
     controllers.createJob := None;
     controllers.queryJobStatus := scripted answers;
     controllers.pathOutsideChroot := λ filename, "/host" +:+ filename |}.

(** Nothing canceled, a newer seed image with the expected label, and a
    job seen active twice before it has succeeded. *)
Definition happy : controllers.Env :=
  env (λ _, false) "4.13.0" ("one-v3", None)
      [status precache.Active "1/2"; status precache.Active "";
       status precache.Succeeded "2/2"; status precache.Succeeded "2/2"].

Definition ibu (version : string) : controllers.SeedImageRef :=
  {| controllers.Image := "quay.io/seed:latest";
     controllers.Version := version;
     controllers.PullSecretRef := Some "seed-pull" |}.

(** The controller before its first reconcile. *)
Definition idle : controllers.World :=
  {| controllers.PrepTask :=
       {| controllers.Active := false; controllers.Success := false;
          controllers.Cancel := None; controllers.Progress := "";
          controllers.done := None |};
     controllers.closed := []; controllers.canceled := [];
     controllers.nextId := 0; controllers.panicked := false;
     controllers.prepStatus := utils.Initialized "";
     controllers.trace := []; controllers.queries := 0;
     controllers.logs := [] |}.

(** A host with its workspace directory in place. *)
Definition hostReady : controllers.Fs :=
  {| controllers.statHost := controllers.StatOk;
     controllers.statWorkspace := controllers.StatOk;
     controllers.mkdirWorkspace := None |}.

(** The controller after the reconcile that starts the worker. *)
Definition running : World := (handlePrep hostReady idle).2.

(** The context of the run is canceled from the start. *)
Definition canceledFromStart (current : string) : Env :=
  env (λ _, true) current ("one-v3", None) [].

(** The context is found canceled at the checkpoint [cp] only. *)
Definition canceledAt (cp : Checkpoint) : Env :=
  env (λ c, bool_decide (c = cp)) "4.13.0" ("one-v3", None) [].

(** An operation that meets two write conflicts before it goes through;
    its state counts the invocations. *)
Definition flaky : M nat (option error) :=
  λ n, (if bool_decide (n < 2) then Some (StatusError StatusReasonConflict 409 "conflict")
        else None, S n).

Definition threeSteps : wait.Backoff :=
  {| wait.Duration := 10; wait.Factor := 2; wait.Steps := 3 |}.

(** The worker of the started run, waiting for its job. *)
Definition waiting : World := (prepStageWorker happy 0 (ibu "4.14.0") running).2.

(** The run after its goroutine has returned. *)
Definition finished : World := (prepGoroutine happy 4 (ibu "4.14.0") running).2.

(** The job has failed when it is first looked at. *)
Definition failedJob : Env :=
  env (λ _, false) "4.13.0" ("one-v3", None) [status precache.Failed "pull error"].


End testing.

(** * More of the two packages *)

(** ** Stateroot names and paths (package common) *)

Module gostrings.

(** [strings.HasPrefix] *)
Fixpoint HasPrefix (s prefix : string) : bool :=
  match prefix, s with
  | EmptyString, _ => true
  | String a prefix', String b s' => bool_decide (a = b) && HasPrefix s' prefix'
  | String _ _, EmptyString => false
  end.

(** The scan of [strings.ReplaceAll]: [skip] bytes of a match of [old] are
    still to be passed over. *)
Fixpoint replaceFrom (s old new : string) (skip : nat) : string :=
  match s with
  | EmptyString => EmptyString
  | String c s' =>
      match skip with
      | S skip' => replaceFrom s' old new skip'
      | O =>
          if HasPrefix s old then new +:+ replaceFrom s' old new (String.length old - 1)
          else String c (replaceFrom s' old new 0)
      end
  end.

(** [strings.ReplaceAll(s, old, new)] for a non-empty [old]: the matches of
    [old] are replaced from the left, without overlap. *)
Definition ReplaceAll (s old new : string) : string := replaceFrom s old new 0.

End gostrings.

Module stateroot.

(** [common.GetStaterootName] *)
Definition GetStaterootName (seedImageVersion : string) : string :=
  "rhcos_" +:+ gostrings.ReplaceAll seedImageVersion "-" "_".

(** [common.GetDesiredStaterootName] *)
Definition GetDesiredStaterootName (ibu : SeedImageRef) : string :=
  GetStaterootName (Version ibu).

(** [common.GetStaterootPath]; [OstreeDeployPathPrefix] is the package
    variable of that name. *)
Definition GetStaterootPath (OstreeDeployPathPrefix osname : string) : string :=
  OstreeDeployPathPrefix +:+ "/ostree/deploy/" +:+ osname.

(** The byte [-]. *)
Definition dash : Ascii.ascii := Ascii.ascii_of_nat 45.

(** The bytes of a string. *)
Fixpoint bytes (s : string) : list Ascii.ascii :=
  match s with
  | EmptyString => []
  | String c s' => c :: bytes s'
  end.

End stateroot.

(** ** The calls of the worker, as they show in the trace *)

(** The call [podman pull] of [getSeedImage] with the credentials in
    [authfile], and the call [podman inspect] of the label check. *)
Definition podmanPullEvent (authfile : string) (ibu : SeedImageRef) : Event :=
  EvExecute "podman" ["pull"; "--authfile"; authfile; Image ibu].

Definition podmanInspectEvent (ibu : SeedImageRef) : Event :=
  EvExecute "podman" ["inspect"; "--format"; "json"; Image ibu].

(** The file [getSeedImage] writes the pull secret to. *)
Definition secretFile `{!utils.Consts} : string :=
  filepath.Join utils.IBUWorkspacePath "seed-pull-secret".

(** The calls of a pull with [authfile]: the inspection follows a pull that
    went through. *)
Definition pullEvents (env : Env) (authfile : string) (ibu : SeedImageRef)
  : list Event :=
  podmanPullEvent authfile ibu
  :: match podmanPull env with
     | Some _ => []
     | None => [podmanInspectEvent ibu]
     end.

(** The four calls of [SetupStateroot], in the order of the source, each
    with the answer of its collaborator. *)
Definition staterootCalls (env : Env) (ibu : SeedImageRef) (file : string)
  : list (Event * option error) :=
  [ (EvSetupStateroot (Image ibu) (Version ibu) file, prepSetupStateroot env);
    (EvRpmOstreeCleanup, rpmOstreeCleanup env);
    (EvWriteIBUAutoRollbackConfigFile, writeIBUAutoRollbackConfigFile env);
    (EvBackupKubeconfigCrypto, backupKubeconfigCrypto env) ].

(** The calls made of a row of calls that stops at the first failure: those
    up to and with the first that fails. *)
Fixpoint callsMade (calls : list (Event * option error)) : list Event :=
  match calls with
  | [] => []
  | (e, None) :: rest => e :: callsMade rest
  | (e, Some _) :: _ => [e]
  end.

(** The error of the first call that fails. *)
Fixpoint firstFailure (calls : list (Event * option error)) : option error :=
  match calls with
  | [] => None
  | (_, None) :: rest => firstFailure rest
  | (_, Some err) :: _ => Some err
  end.

(** The text [SetupStateroot] puts before the error of the call that failed. *)
Definition staterootFailure (env : Env) : string :=
  match prepSetupStateroot env, rpmOstreeCleanup env,
        writeIBUAutoRollbackConfigFile env with
  | Some _, _, _ => "failed to setup stateroot: "
  | None, Some _, _ => "failed rpm-ostree cleanup -b: "
  | None, None, Some _ => "failed to write auto-rollback config: "
  | None, None, None => "failed to backup cerificaties: "
  end.

(** The reads of [launchPrecaching] before it creates the job, each with the
    error it may have met. *)
Definition errOf {A} (r : error + A) : option error :=
  match r with
  | inl err => Some err
  | inr _ => None
  end.

Definition launchCalls (env : Env) (file : string) : list (Event * option error) :=
  [ (EvGetReleaseRegistry, errOf (getReleaseRegistry env));
    (EvReadSeedClusterInfoFromFile, errOf (readSeedClusterInfoFromFile env));
    (EvShouldOverrideSeedRegistry, errOf (shouldOverrideSeedRegistry env));
    (EvReadPrecachingList file, errOf (readPrecachingList env));
    (EvGetPod, errOf (getPod env)) ].

(** ** What an answer of the job runtime settles *)

(** The answer [a] is one on which the poller returns [res] at once: a job
    that has succeeded for "done", a job in progress for "not yet", and for
    an error either a failed job, which gives the sentinel, or a query error
    that is the failure of the job, which is handed on. *)
Definition settles (a : option precache.Status * option error)
    (res : bool * option error) : Prop :=
  match res with
  | (true, None) =>
      ∃ st oe, a = (Some st, oe) ∧ precache.Status_ st = precache.Succeeded
  | (false, None) =>
      ∃ st oe, a = (Some st, oe) ∧ precache.Status_ st = precache.Active
  | (false, Some err) =>
      errors.Is err precache.ErrFailed = true
      ∧ ((∃ st, a = (Some st, None) ∧ precache.Status_ st = precache.Failed
                ∧ err = precache.ErrFailed)
         ∨ ∃ status, a = (status, Some err))
  | (true, Some _) => False
  end.

(** The error of a poller whose budget of [retries] attempts is spent. *)
Definition budgetSpent (retries : Z) : error :=
  errorString ("failed more than " +:+ fmt.Sprintf_d retries +:+
               " times to fetch precaching job status").

(** The interval and the budget [prepStageWorker] gives to its wait. *)
Definition pollInterval : Z := (30 * time.Second)%Z.
Definition pollRetries : Z := 5.

(** ** The footprint of the worker *)

(** The calls of the worker: every event but the two of the dispatcher. *)
Definition workerCall (e : Event) : bool :=
  match e with
  | EvGo | EvMkdir _ => false
  | _ => true
  end.

(** [w'] is [w] but for the progress of the task, calls of the worker added
    to the trace, lines added to the log and status queries made. *)
Definition footprint (w w' : World) : Prop :=
  PrepTask w' = progressed (Progress (PrepTask w')) (PrepTask w)
  ∧ closed w' = closed w
  ∧ canceled w' = canceled w
  ∧ nextId w' = nextId w
  ∧ panicked w' = panicked w
  ∧ prepStatus w' = prepStatus w
  ∧ (∃ evs, trace w' = trace w ++ evs ∧ Forall (λ e, workerCall e = true) evs)
  ∧ (∃ msgs, logs w' = logs w ++ msgs)
  ∧ queries w ≤ queries w'.

(** Every run of [m] takes a world to one related to it by [R]. *)
Definition respects (R : World → World → Prop) {A} (m : M World A) : Prop :=
  ∀ w, R w (m w).2.

(** ** The steps of the worker and what lets each of them through *)

(** The step of the worker a call belongs to: the version gate, the image
    acquisition, the setup of the deployment, the launch of the job and the
    wait for it. *)
Definition stage (e : Event) : nat :=
  match e with
  | EvGetClusterVersion => 0
  | EvGetSecretData _ | EvWriteFile _ | EvRemove _ | EvExecute _ _ => 1
  | EvSetupStateroot _ _ _ | EvRpmOstreeCleanup
  | EvWriteIBUAutoRollbackConfigFile | EvBackupKubeconfigCrypto => 2
  | EvGetReleaseRegistry | EvReadSeedClusterInfoFromFile
  | EvShouldOverrideSeedRegistry | EvReadPrecachingList _ | EvGetPod
  | EvCreateJob _ _ => 3
  | EvQueryJobStatus | EvSleep _ => 4
  | EvMkdir _ | EvGo => 0
  end.

Section Passes.

Context `{!common.Consts, !utils.Consts, !json.Decoder}.
Context `{!semver.Lib SemVer}.

(** The seed version of the resource is newer than the version the
    cluster reports, both being semantic versions. *)
Definition gatePassed (env : Env) (ibu : SeedImageRef) : Prop :=
  ∃ target seedSemVer targetSemVer,
    getClusterVersion env = inr target
    ∧ semver.NewVersion (Version ibu) = inr seedSemVer
    ∧ semver.NewVersion target = inr targetSemVer
    ∧ (0 < semver.Compare seedSemVer targetSemVer)%Z.

(** The pull secret, if one is named, could be read and written, the pull
    went through and the image carries the expected label. *)
Definition acquired (env : Env) (ibu : SeedImageRef) : Prop :=
  (PullSecretRef ibu = None
   ∨ ((∃ pullSecret, getSecretData env = inr pullSecret) ∧ writeFile env = None))
  ∧ podmanPull env = None
  ∧ compatible env.

(** The four calls of [SetupStateroot] went through. *)
Definition staterootReady (env : Env) : Prop :=
  prepSetupStateroot env = None ∧ rpmOstreeCleanup env = None
  ∧ writeIBUAutoRollbackConfigFile env = None
  ∧ backupKubeconfigCrypto env = None.

(** The five reads of [launchPrecaching] and the creation of the job went
    through. *)
Definition launched (env : Env) : Prop :=
  errOf (getReleaseRegistry env) = None
  ∧ errOf (readSeedClusterInfoFromFile env) = None
  ∧ errOf (shouldOverrideSeedRegistry env) = None
  ∧ errOf (readPrecachingList env) = None
  ∧ errOf (getPod env) = None
  ∧ createJob env = None.

End Passes.

(** The calls [evs] come step by step: none of an earlier step after one of
    a later step. *)
Definition inOrder (evs : list Event) : Prop :=
  StronglySorted (λ a b, stage a ≤ stage b) evs.

Section Licence.

Context `{!common.Consts, !utils.Consts, !json.Decoder}.
Context `{!semver.Lib SemVer}.

(** What must have gone well for the worker to make the call [e]: every
    step before the step of [e] went through, and the context was not found
    canceled on entering a step up to that of [e]. *)
Definition licensed (env : Env) (ibu : SeedImageRef) (e : Event) : Prop :=
  (1 ≤ stage e → gatePassed env ibu ∧ ctxDone env BeforePull = false)
  ∧ (2 ≤ stage e → acquired env ibu ∧ ctxDone env BeforeStateroot = false)
  ∧ (3 ≤ stage e → staterootReady env ∧ ctxDone env BeforePrecaching = false)
  ∧ (4 ≤ stage e → launched env).

(** Calls of step [k] and later, each of them licensed, in order. *)
Definition staged (env : Env) (ibu : SeedImageRef) (k : nat)
    (evs : list Event) : Prop :=
  Forall (λ e, k ≤ stage e ∧ licensed env ibu e) evs ∧ inOrder evs.

End Licence.

(** ** The goroutine in two steps, and the life of the controller *)

Section Life.

Context `{!common.Consts, !utils.Consts, !json.Decoder}.
Context `{!semver.Lib SemVer}.

(** The goroutine of [handlePrep] up to and with [close(r.PrepTask.done)],
    and what it does after: the log line and the write of [Success]. *)
Definition prepGoroutineClosing (env : Env) (fuel : nat) (ibu : SeedImageRef)
  : M World wait.Outcome :=
  let* r := prepStageWorker env fuel ibu in
  match r with
  | wait.StillWaiting => ret wait.StillWaiting
  | wait.Returned err =>
      let* ch := gets (λ w, done (PrepTask w)) in
      close ch ;;
      ret (wait.Returned err)
  end.

Definition prepGoroutineOutcome (err : option error) : M World unit :=
  match err with
  | Some _ =>
      logInfo "Prep stage failed with error" ;;
      setSuccess false
  | None =>
      logInfo "Prep stage completed successfully!" ;;
      setSuccess true
  end.

(** The life of the controller over any number of runs: reconciles under
    any file system, steps of a worker, the close of the completion signal
    by a goroutine that has been started and has not closed yet, and the
    write of the outcome. *)
Inductive life : World → World → Prop :=
| life_reconcile fs w : life w (handlePrep fs w).2
| life_worker w w' : frame w w' → life w w'
| life_close w :
    length (closed w) < started w → life w (close (done (PrepTask w)) w).2
| life_outcome b w : life w (setSuccess b w).2.

(** No close has panicked, no channel is closed twice, and there is at most
    one goroutine that has not closed yet: when there is none, an active
    task has its signal fired; when there is one, the task is active and its
    signal is an open channel. *)
Definition healthy (w : World) : Prop :=
  panicked w = false
  ∧ allocated w
  ∧ NoDup (closed w)
  ∧ ((started w = length (closed w)
      ∧ (Active (PrepTask w) = true → fired (done (PrepTask w)) w = true))
     ∨ (started w = S (length (closed w))
        ∧ Active (PrepTask w) = true
        ∧ ∃ ch, done (PrepTask w) = Some ch ∧ (ch ∉ closed w) ∧ ch < nextId w)).

End Life.

(** ** More test doubles *)

Module fixtures.

Import testing.

(** An API server on which one config map is missing. *)
Definition oneMissing : common.Cluster :=
  λ _ ref,
    if bool_decide (common.Name ref = "missing") then
      inl (StatusError StatusReasonNotFound 404 "configmaps missing not found")
    else inr {| common.cmRef := ref; common.cmData := ∅ |}.

Definition ref (name : string) : common.ConfigMapRef :=
  {| common.Name := name; common.Namespace := "openshift-lifecycle-agent" |}.


(** A job runtime that shows a failed job together with a query error. *)
Definition failedWithError : Env :=
  env (λ _, false) "4.13.0" ("one-v3", None)
      [(Some {| precache.Status_ := precache.Failed;
                precache.Message := "pull error" |},
        Some (errorString "connection reset"))].

(** A job runtime that never settles anything, in three ways: no status,
    a failed job reported together with a query error, and a state the
    poller does not know. *)
Definition stuck : Env :=
  env (λ _, false) "4.13.0" ("one-v3", None)
      [(None, None);
       (Some {| precache.Status_ := precache.Failed;
                precache.Message := "pull error" |},
        Some (errorString "connection reset"));
       (Some {| precache.Status_ := precache.Other;
                precache.Message := "" |}, None)].

(** A job runtime each of whose answers is a query error, not the failure
    of the job, that comes with the status of a job that has succeeded. *)
Definition doneWithError : Env :=
  env (λ _, false) "4.13.0" ("one-v3", None)
      (replicate 3
         (Some {| precache.Status_ := precache.Succeeded;
                  precache.Message := "2/2" |},
          Some (errorString "connection reset"))).

(** A container without the host file system mounted. *)
Definition noHost : Fs :=
  {| statHost := StatNotExist; statWorkspace := StatNotExist;
     mkdirWorkspace := None |}.

End fixtures.

(** * Properties *)

(** ** Running monadic code *)

Lemma bind_run {S A B} (m : M S A) (k : A → M S B) s a s' :
  m s = (a, s') → bind m k s = k a s'.
Proof. unfold bind. by intros ->. Qed.

(** ** Duplicate removal *)

Section RemoveDuplicates.

Context `{Countable T}.
Implicit Types (l r : list T) (mp : gmap T bool).

Lemma tracks_empty : tracks (∅ : gmap T bool) [].
Proof. intros x. rewrite lookup_empty, elem_of_nil. split; [by intros [? ?]|done]. Qed.

Lemma tracks_insert mp r x : tracks mp r → tracks (<[x := true]> mp) (r ++ [x]).
Proof.
  intros Hinv y. rewrite elem_of_app, list_elem_of_singleton, <-(Hinv y).
  destruct (decide (x = y)) as [->|Hne].
  - rewrite lookup_insert_eq. split; eauto.
  - rewrite lookup_insert_ne by done. split; [eauto|]. intros [?|?]; [done|congruence].
Qed.

Lemma filter_keeps_all (P : T → Prop) `{∀ x, Decision (P x)} l :
  (∀ x, x ∈ l → P x) → filter P l = l.
Proof.
  induction l as [|y l IH]; intros HP; [done|].
  rewrite filter_cons_True by (apply HP; left).
  f_equal. apply IH. intros x Hx. apply HP. by right.
Qed.

Lemma removeStep_loop l : ∀ r mp,
  tracks mp r →
  (fold_left common.removeStep l (r, mp)).1
  = r ++ filter (λ y, y ∉ r) (common.firstOccurrences l).
Proof.
  induction l as [|x l IH]; intros r mp Hinv; simpl.
  - by rewrite app_nil_r.
  - destruct (mp !! x) as [b|] eqn:Hx.
    + assert (x ∈ r) as Hin by (apply Hinv; eauto).
      rewrite IH by done. f_equal.
      rewrite filter_cons_False by (intros Hn; by apply Hn).
      rewrite list_filter_filter. apply list_filter_iff.
      intros y. simpl. split; [|by intros [? _]].
      intros Hy. split; [done|]. by intros ->.
    + assert (x ∉ r) as Hnin.
      { intros Hin. apply Hinv in Hin as [? ?]. congruence. }
      rewrite IH by (by apply tracks_insert).
      rewrite <-app_assoc. f_equal. simpl.
      rewrite filter_cons_True by done. f_equal.
      rewrite list_filter_filter. apply list_filter_iff.
      intros y. simpl. rewrite elem_of_app, list_elem_of_singleton. tauto.
Qed.

Lemma RemoveDuplicates_firstOccurrences l :
  common.RemoveDuplicates l = common.firstOccurrences l.
Proof.
  unfold common.RemoveDuplicates.
  rewrite (removeStep_loop l [] ∅ tracks_empty). simpl.
  apply filter_keeps_all. intros y _. apply not_elem_of_nil.
Qed.

Lemma firstOccurrences_elem_of l x : x ∈ common.firstOccurrences l ↔ x ∈ l.
Proof.
  induction l as [|y l IH]; simpl; [done|].
  rewrite !elem_of_cons, list_elem_of_filter, IH.
  destruct (decide (x = y)); tauto.
Qed.

Lemma firstOccurrences_NoDup l : NoDup (common.firstOccurrences l).
Proof.
  induction l as [|y l IH]; simpl; [constructor|].
  apply NoDup_cons. split.
  - rewrite list_elem_of_filter. tauto.
  - by apply NoDup_filter.
Qed.

Lemma firstOccurrences_id l : NoDup l → common.firstOccurrences l = l.
Proof.
  induction 1 as [|y l Hy _ IH]; simpl; [done|].
  rewrite IH. f_equal.
  apply filter_keeps_all. by intros z Hz ->.
Qed.

Lemma firstOccurrences_snoc l x :
  common.firstOccurrences (l ++ [x])
  = if decide (x ∈ l) then common.firstOccurrences l
    else common.firstOccurrences l ++ [x].
Proof.
  induction l as [|y l IH]; simpl.
  - done.
  - rewrite IH. destruct (decide (x ∈ l)) as [Hin|Hnin].
    + rewrite decide_True by (apply elem_of_cons; auto). done.
    + destruct (decide (x = y)) as [->|Hne].
      * rewrite decide_True by (apply elem_of_cons; auto).
        rewrite filter_app, filter_cons_False by (intros Hn; by apply Hn).
        simpl. by rewrite app_nil_r.
      * rewrite decide_False by (rewrite elem_of_cons; tauto).
        rewrite filter_app, filter_cons_True by done. done.
Qed.

End RemoveDuplicates.

Section GetConfigMaps.

Implicit Types (refs reads : list common.ConfigMapRef).

Lemma dedupStep_removeStep refs : ∀ mp r,
  fold_left common.dedupStep refs (mp, r)
  = ((fold_left common.removeStep refs (r, mp)).2,
     (fold_left common.removeStep refs (r, mp)).1).
Proof.
  induction refs as [|x refs IH]; intros mp r; simpl; [done|].
  destruct (mp !! x); apply IH.
Qed.

Lemma GetConfigMaps_unique c refs :
  common.GetConfigMaps c refs
  = common.fetchAll c (common.firstOccurrences refs) [].
Proof.
  unfold common.GetConfigMaps. rewrite dedupStep_removeStep. simpl.
  f_equal. apply RemoveDuplicates_firstOccurrences.
Qed.

Lemma GetConfigMap_run c ref reads :
  common.GetConfigMap c ref reads
  = (match c reads ref with
     | inl e => inl (fmt.Errorf_w "failed to get configMap " e)
     | inr cm => inr cm
     end, reads ++ [ref]).
Proof.
  unfold common.GetConfigMap, common.clientGet, bind, ret.
  by destruct (c reads ref).
Qed.

Lemma fetchAll_cons c x unique cms reads :
  common.fetchAll c (x :: unique) cms reads
  = match c reads x with
    | inl e => (inl (fmt.Errorf_w "failed to get configMap " e), reads ++ [x])
    | inr cm => common.fetchAll c unique (cms ++ [cm]) (reads ++ [x])
    end.
Proof.
  cbn [common.fetchAll]. unfold bind. rewrite GetConfigMap_run.
  by destruct (c reads x).
Qed.

Lemma fetchAll_run c unique : ∀ cms reads,
  ∃ fetched,
    (common.fetchAll c unique cms reads).2 = reads ++ fetched
    ∧ fetched `prefix_of` unique
    ∧ match (common.fetchAll c unique cms reads).1 with
      | inr out =>
          fetched = unique
          ∧ ∃ new, out = cms ++ new ∧ length new = length unique
            ∧ ∀ i ref, unique !! i = Some ref →
                ∃ cm, new !! i = Some cm ∧ c (reads ++ take i unique) ref = inr cm
      | inl err =>
          ∃ before ref e,
            fetched = before ++ [ref] ∧ c (reads ++ before) ref = inl e
            ∧ err = fmt.Errorf_w "failed to get configMap " e
      end.
Proof.
  induction unique as [|x unique IH]; intros cms reads.
  - exists []. simpl. rewrite app_nil_r. repeat split; [done|].
    exists []. rewrite app_nil_r. repeat split. intros i ref Hi. by destruct i.
  - rewrite fetchAll_cons.
    destruct (c reads x) as [e|cm] eqn:Hc.
    + exists [x]. simpl. split; [done|]. split; [by exists unique|].
      exists [], x, e. by rewrite app_nil_r.
    + destruct (IH (cms ++ [cm]) (reads ++ [x])) as (fetched & Hreads & Hpre & Hres).
      exists (x :: fetched). rewrite Hreads, <-app_assoc. split; [done|].
      split; [by apply prefix_cons|].
      destruct (common.fetchAll c unique (cms ++ [cm]) (reads ++ [x])).1 as [err|out].
      * destruct Hres as (before & ref & e & -> & He & ->).
        exists (x :: before), ref, e. repeat split.
        by rewrite <-app_assoc in He.
      * destruct Hres as (-> & new & -> & Hlen & Hnew).
        split; [done|]. exists (cm :: new). rewrite <-app_assoc.
        repeat split; [simpl; by rewrite Hlen|].
        intros [|i] ref Hi; simpl in *.
        -- injection Hi as <-. exists cm. by rewrite app_nil_r.
        -- destruct (Hnew i ref Hi) as (cm' & ? & Hcm').
           exists cm'. split; [done|]. by rewrite <-app_assoc in Hcm'.
Qed.

End GetConfigMaps.

(** C10.  [RemoveDuplicates] returns the distinct elements of its input, each
    once, in the order of their first occurrence, and is idempotent.
    [GetConfigMaps] reads the distinct references in that same order, none
    twice: all of them when it returns the config maps, each being the answer
    of the cluster at its turn, and up to the failing one when a read fails. *)
Theorem RemoveDuplicates_GetConfigMaps_first_occurrence :
  (∀ (T : Type) `(Countable T) (l : list T),
     common.RemoveDuplicates l = common.firstOccurrences l
     ∧ NoDup (common.RemoveDuplicates l)
     ∧ (∀ x, x ∈ common.RemoveDuplicates l ↔ x ∈ l)
     ∧ (∀ x, common.RemoveDuplicates (l ++ [x])
             = if decide (x ∈ l) then common.RemoveDuplicates l
               else common.RemoveDuplicates l ++ [x])
     ∧ common.RemoveDuplicates (common.RemoveDuplicates l)
       = common.RemoveDuplicates l)
  ∧ (∀ (c : common.Cluster) (configMaps reads : list common.ConfigMapRef),
     ∃ fetched,
       (common.GetConfigMaps c configMaps reads).2 = reads ++ fetched
       ∧ NoDup fetched
       ∧ fetched `prefix_of` common.firstOccurrences configMaps
       ∧ match (common.GetConfigMaps c configMaps reads).1 with
         | inr cms =>
             fetched = common.firstOccurrences configMaps
             ∧ length cms = length fetched
             ∧ ∀ i ref, fetched !! i = Some ref →
                 ∃ cm, cms !! i = Some cm ∧ c (reads ++ take i fetched) ref = inr cm
         | inl err =>
             ∃ before ref e,
               fetched = before ++ [ref] ∧ c (reads ++ before) ref = inl e
               ∧ err = fmt.Errorf_w "failed to get configMap " e
         end).
Proof.
  split.
  - intros T ? ? l. rewrite !RemoveDuplicates_firstOccurrences.
    split; [done|]. split; [apply firstOccurrences_NoDup|].
    split; [apply firstOccurrences_elem_of|].
    split.
    { intros x. rewrite RemoveDuplicates_firstOccurrences.
      apply firstOccurrences_snoc. }
    apply firstOccurrences_id, firstOccurrences_NoDup.
  - intros c configMaps reads. rewrite GetConfigMaps_unique.
    destruct (fetchAll_run c (common.firstOccurrences configMaps) [] reads)
      as (fetched & Hreads & Hpre & Hres).
    exists fetched. split; [done|]. split.
    { destruct Hpre as [k Hk].
      pose proof (firstOccurrences_NoDup configMaps) as Hnd.
      rewrite Hk in Hnd. by apply NoDup_app in Hnd as [? _]. }
    split; [done|].
    destruct (common.fetchAll c (common.firstOccurrences configMaps) [] reads).1
      as [err|out]; [done|].
    destruct Hres as (-> & new & -> & Hlen & Hnew). simpl. by repeat split.
Qed.

(** ** The retry policy *)

Section Retry.

Context {St : Type}.
Implicit Types (fn : M St (option error)) (st : retry.State St).

(** The clauses of [onErrorLoop_run] when the loop stops at once. *)
Ltac one_attempt :=
  repeat split;
  try done; try lia;
  try (exists []; by rewrite app_nil_r);
  try (intros; lia);
  try (by left); try (by right).

Lemma onErrorLoop_S b retriable fn steps d lastErr st :
  retry.onErrorLoop (S steps) b d retriable fn lastErr st
  = match fn (retry.op st) with
    | (None, s1) => (None, {| retry.op := s1; retry.slept := retry.slept st |})
    | (Some e, s1) =>
        if retriable e then
          match steps with
          | O => (Some e, {| retry.op := s1; retry.slept := retry.slept st |})
          | S _ =>
              retry.onErrorLoop steps b (wait.nextDuration b d) retriable fn (Some e)
                {| retry.op := s1; retry.slept := retry.slept st ++ [d] |}
          end
        else (Some e, {| retry.op := s1; retry.slept := retry.slept st |})
    end.
Proof.
  cbn [retry.onErrorLoop]. unfold bind, retry.call.
  destruct (fn (retry.op st)) as [[e|] s1]; [|done].
  destruct (retriable e); [|done]. by destruct steps.
Qed.

Lemma onErrorLoop_run b retriable fn steps : ∀ d lastErr st,
  ∃ n,
    n ≤ steps ∧ (0 < steps → 0 < n)
    ∧ retry.op (retry.onErrorLoop steps b d retriable fn lastErr st).2
      = (retry.invoke fn n (retry.op st)).2
    ∧ (∃ delays,
         retry.slept (retry.onErrorLoop steps b d retriable fn lastErr st).2
         = retry.slept st ++ delays ∧ length delays = pred n)
    ∧ (∀ i r, S i < n → (retry.invoke fn n (retry.op st)).1 !! i = Some r →
         retry.retried retriable r = true)
    ∧ (if decide (n = 0)
       then (retry.onErrorLoop steps b d retriable fn lastErr st).1 = lastErr
       else last (retry.invoke fn n (retry.op st)).1
            = Some (retry.onErrorLoop steps b d retriable fn lastErr st).1)
    ∧ (n = steps
       ∨ retry.retried retriable
           (retry.onErrorLoop steps b d retriable fn lastErr st).1 = false).
Proof.
  induction steps as [|steps IH]; intros d lastErr st.
  - exists 0. simpl. one_attempt.
  - rewrite onErrorLoop_S.
    destruct (fn (retry.op st)) as [r s1] eqn:Hfn.
    assert (∀ k, retry.invoke fn (S k) (retry.op st)
                 = (r :: (retry.invoke fn k s1).1, (retry.invoke fn k s1).2))
      as Hinv.
    { intros k. cbn [retry.invoke]. rewrite Hfn.
      by destruct (retry.invoke fn k s1). }
    destruct r as [e|]; [destruct (retriable e) eqn:Hre|].
    + destruct steps as [|steps'].
      * exists 1. rewrite Hinv. simpl. one_attempt.
      * set (st1 := {| retry.op := s1; retry.slept := retry.slept st ++ [d] |}).
        destruct (IH (wait.nextDuration b d) (Some e) st1)
          as (n & Hle & Hpos & Hop & (delays & Hsl & Hlen) & Hall & Hlast & Hstop).
        assert (0 < n) as Hn by (apply Hpos; lia).
        exists (S n). rewrite Hinv. simpl retry.op in *. simpl retry.slept in *.
        split; [lia|]. split; [lia|]. split; [done|]. split.
        { exists (d :: delays). rewrite Hsl, <-app_assoc. split; [done|].
          simpl. lia. }
        split.
        { intros [|i] r Hi; simpl; intros Hr.
          - injection Hr as <-. done.
          - apply (Hall i r); [lia|done]. }
        split.
        { rewrite decide_False by lia. rewrite decide_False in Hlast by lia.
          simpl. destruct (retry.invoke fn n s1).1 as [|r0 rs] eqn:Hrs; [done|].
          done. }
        destruct Hstop as [->|Hstop]; [by left|by right].
    + exists 1. rewrite Hinv. simpl. one_attempt.
    + exists 1. rewrite Hinv. simpl. one_attempt.
Qed.

End Retry.

Lemma isConflictOrRetriable_wrap msg err :
  common.isConflictOrRetriable (wrapError msg err)
  = common.isConflictOrRetriable err.
Proof. done. Qed.

Lemma hasReasonOrCode_status reason0 code0 msg reason code :
  apierrors.hasReasonOrCode (StatusError reason0 code0 msg) reason code = true ↔
  reason0 = reason ∨ ((reason0 ∉ apierrors.knownReasons) ∧ code0 = code).
Proof.
  unfold apierrors.hasReasonOrCode. simpl.
  case_bool_decide as Hr; [by split; [left|]|].
  case_bool_decide as Hk; case_bool_decide as Hc; simpl; naive_solver.
Qed.

Lemma hasReasonOrCode_none e reason code :
  apierrors.reasonAndCodeForError e = (StatusReasonUnknown, 0%Z) →
  reason ≠ StatusReasonUnknown → code ≠ 0%Z →
  apierrors.hasReasonOrCode e reason code = false.
Proof.
  intros He Hr Hc. unfold apierrors.hasReasonOrCode. rewrite He.
  rewrite bool_decide_false by (intros ?; by apply Hr).
  rewrite (bool_decide_false (0%Z = code)) by (intros ?; by apply Hc).
  by destruct (bool_decide (StatusReasonUnknown ∉ apierrors.knownReasons)).
Qed.

Lemma isConflictOrRetriable_none e :
  apierrors.reasonAndCodeForError e = (StatusReasonUnknown, 0%Z) →
  common.isConflictOrRetriable e = net.IsConnectionRefused e.
Proof.
  intros He. unfold common.isConflictOrRetriable, apierrors.IsConflict,
    apierrors.IsInternalError, apierrors.IsServiceUnavailable.
  by rewrite !hasReasonOrCode_none.
Qed.

Lemma isConflictOrRetriable_iff err :
  common.isConflictOrRetriable err = true ↔
  (∃ reason code,
     head (omap apiStatus (chain err)) = Some (reason, code)
     ∧ (reason ∈ [StatusReasonConflict; StatusReasonInternalError;
                  StatusReasonServiceUnavailable]
        ∨ ((reason ∉ apierrors.knownReasons) ∧ code ∈ [409; 500; 503]%Z)))
  ∨ head (omap errno (chain err)) = Some ECONNREFUSED.
Proof.
  induction err as [msg|msg err IH|reason code msg|code| |];
    try rewrite isConflictOrRetriable_none by done.
  - split; [done|]. simpl. naive_solver.
  - rewrite isConflictOrRetriable_wrap. exact IH.
  - unfold common.isConflictOrRetriable, apierrors.IsConflict,
      apierrors.IsInternalError, apierrors.IsServiceUnavailable.
    rewrite !orb_true_iff, !hasReasonOrCode_status. simpl.
    unfold apierrors.StatusConflict, apierrors.StatusInternalServerError,
      apierrors.StatusServiceUnavailable.
    split.
    + intros [[[Hc|Hi]|Hu]|?]; [| | |done]; left; exists reason, code;
        (split; [done|]); rewrite !elem_of_cons; naive_solver.
    + intros [(r & c & [= <- <-] & Hcase)|?]; [|done].
      rewrite !elem_of_cons, !elem_of_nil in Hcase. naive_solver.
  - simpl. rewrite bool_decide_eq_true. split; [intros ->; by right|].
    intros [(r & c & ? & _)|[= ->]]; done.
  - split; [done|]. simpl. naive_solver.
  - split; [done|]. simpl. naive_solver.
Qed.

(** C9.  An error is retried exactly when the first API status on its chain
    is a write conflict, an internal server error or a service-unavailable
    answer, by its reason or, for a reason the library has no name for, by
    its code 409, 500 or 503, or when the first system call error on its
    chain is a refused connection; wrapping an error changes nothing to
    that.  Under a schedule of [steps] attempts the operation is invoked [n]
    times in a row, [n] at most [steps] and at least one when the schedule
    has a step; every attempt but the last ended in an error of that kind;
    the call returns the result of the last attempt; and it stops because
    the schedule is used up or because that result is not retried.  One
    delay is slept between two attempts. *)
Theorem RetryOnConflictOrRetriable_policy :
  (∀ err : error,
     common.isConflictOrRetriable err = true ↔
     (∃ reason code,
        head (omap apiStatus (chain err)) = Some (reason, code)
        ∧ (reason ∈ [StatusReasonConflict; StatusReasonInternalError;
                     StatusReasonServiceUnavailable]
           ∨ ((reason ∉ apierrors.knownReasons) ∧ code ∈ [409; 500; 503]%Z)))
     ∨ head (omap errno (chain err)) = Some ECONNREFUSED)
  ∧ (∀ prefix err,
       common.isConflictOrRetriable (fmt.Errorf_w prefix err)
       = common.isConflictOrRetriable err)
  ∧ (∀ (St : Type) (backoff : wait.Backoff) (fn : M St (option error))
       (st : retry.State St),
     ∃ n : nat,
       n ≤ Z.to_nat (wait.Steps backoff)
       ∧ (0 < Z.to_nat (wait.Steps backoff) → 0 < n)
       ∧ retry.op (common.RetryOnConflictOrRetriable backoff fn st).2
         = (retry.invoke fn n (retry.op st)).2
       ∧ (∃ delays,
            retry.slept (common.RetryOnConflictOrRetriable backoff fn st).2
            = retry.slept st ++ delays ∧ length delays = pred n)
       ∧ (∀ i r, S i < n → (retry.invoke fn n (retry.op st)).1 !! i = Some r →
            retry.retried common.isConflictOrRetriable r = true)
       ∧ (if decide (n = 0)
          then (common.RetryOnConflictOrRetriable backoff fn st).1 = None
          else last (retry.invoke fn n (retry.op st)).1
               = Some (common.RetryOnConflictOrRetriable backoff fn st).1)
       ∧ (n = Z.to_nat (wait.Steps backoff)
          ∨ retry.retried common.isConflictOrRetriable
              (common.RetryOnConflictOrRetriable backoff fn st).1 = false)).
Proof.
  split; [apply isConflictOrRetriable_iff|].
  split; [intros prefix err; apply isConflictOrRetriable_wrap|].
  intros St backoff fn st.
  unfold common.RetryOnConflictOrRetriable, retry.OnError.
  apply onErrorLoop_run.
Qed.

(** ** The prep stage *)


Section VersionGate.

Context `{!common.Consts, !utils.Consts, !json.Decoder}.
Context `{!semver.Lib SemVer}.
Implicit Types (env : Env) (w : World) (ibu : SeedImageRef).

Lemma validateSeedOcpVersion_run env seedOcpVersion w :
  validateSeedOcpVersion env seedOcpVersion w
  = match getClusterVersion env with
    | inl err =>
        (Some (fmt.Errorf_w "failed to get ClusterVersion for target: " err), asked w)
    | inr targetOCP =>
        match semver.NewVersion targetOCP with
        | inl err =>
            (Some (fmt.Errorf_w
               ("failed to parse target version " +:+ targetOCP +:+ ": ") err),
             asked w)
        | inr targetSemVer =>
            match semver.NewVersion seedOcpVersion with
            | inl err =>
                (Some (fmt.Errorf_w
                   ("failed to parse seed version " +:+ seedOcpVersion +:+ ": ") err),
                 asked w)
            | inr seedSemVer =>
                if bool_decide (semver.Compare seedSemVer targetSemVer ≤ 0)%Z then
                  (Some (fmt.Errorf
                     ("seed OCP version (" +:+ seedOcpVersion +:+
                      ") must be higher than current OCP version (" +:+
                      targetOCP +:+ ")")),
                   asked w)
                else
                  (None, withLogs (λ l, l ++ ["OCP versions are validated"]) (asked w))
            end
        end
    end.
Proof.
  unfold validateSeedOcpVersion, bind, emit, modify, ret, logInfo. simpl.
  destruct (getClusterVersion env) as [?|targetOCP]; [done|].
  destruct (semver.NewVersion targetOCP); [done|].
  destruct (semver.NewVersion seedOcpVersion); [done|].
  by case_bool_decide.
Qed.

Lemma validateSeedOcpVersion_rejected env seedOcpVersion w err :
  (validateSeedOcpVersion env seedOcpVersion w).1 = Some err →
  (validateSeedOcpVersion env seedOcpVersion w).2 = asked w.
Proof.
  rewrite validateSeedOcpVersion_run.
  destruct (getClusterVersion env) as [?|targetOCP]; [done|].
  destruct (semver.NewVersion targetOCP); [done|].
  destruct (semver.NewVersion seedOcpVersion); [done|].
  by case_bool_decide.
Qed.

Lemma pipeline_rejected env fuel ibu w err :
  (validateSeedOcpVersion env (Version ibu) w).1 = Some err →
  pipeline env fuel ibu w
  = (wait.Returned (Some (fmt.Errorf_w
       "failed to validate seed image OCP version in spec: " err)), asked w).
Proof.
  intros Hv. pose proof (validateSeedOcpVersion_rejected _ _ _ _ Hv) as Hw.
  unfold pipeline, checkSpecVersion, bind.
  destruct (validateSeedOcpVersion env (Version ibu) w) as [r w1].
  simpl in *. by subst.
Qed.

(** C3.  With the cluster at version [target], the gate lets the seed
    version through exactly when both strings parse as semantic versions
    and the seed compares greater than the target.  An equal or lesser seed
    is turned down with an error that quotes both strings, and whenever the
    gate turns a version down the worker function returns that error with
    nothing done but the gate's own read of the cluster version: no image
    is pulled. *)
Theorem validateSeedOcpVersion_forward_only env seed target w :
  getClusterVersion env = inr target →
  ((validateSeedOcpVersion env seed w).1 = None ↔
     ∃ seedSemVer targetSemVer,
       semver.NewVersion seed = inr seedSemVer
       ∧ semver.NewVersion target = inr targetSemVer
       ∧ (0 < semver.Compare seedSemVer targetSemVer)%Z)
  ∧ (∀ seedSemVer targetSemVer,
       semver.NewVersion seed = inr seedSemVer →
       semver.NewVersion target = inr targetSemVer →
       (semver.Compare seedSemVer targetSemVer ≤ 0)%Z →
       (validateSeedOcpVersion env seed w).1
       = Some (errorString
           ("seed OCP version (" +:+ seed +:+
            ") must be higher than current OCP version (" +:+ target +:+ ")")))
  ∧ (∀ fuel ibu err,
       Version ibu = seed →
       (validateSeedOcpVersion env seed w).1 = Some err →
       pipeline env fuel ibu w
       = (wait.Returned (Some (fmt.Errorf_w
            "failed to validate seed image OCP version in spec: " err)),
          withTrace (λ t, t ++ [EvGetClusterVersion]) w)).
Proof.
  intros Hget. split; [|split].
  - rewrite validateSeedOcpVersion_run, Hget.
    destruct (semver.NewVersion target) as [e|tv].
    { split; [done|]. by intros (? & ? & _ & ? & _). }
    destruct (semver.NewVersion seed) as [e|sv].
    { split; [done|]. by intros (? & ? & ? & _). }
    case_bool_decide as Hcmp; simpl.
    + split; [done|]. intros (sv' & tv' & [= <-] & [= <-] & ?). lia.
    + split; [|done]. intros _. exists sv, tv. repeat split. lia.
  - intros sv tv Hs Ht Hcmp.
    rewrite validateSeedOcpVersion_run, Hget, Ht, Hs.
    by rewrite bool_decide_true.
  - intros fuel ibu err <-. apply pipeline_rejected.
Qed.

End VersionGate.

Section SeedImage.

Context `{!common.Consts, !utils.Consts, !json.Decoder}.
Context `{!semver.Lib SemVer}.
Implicit Types (env : Env) (w : World) (ibu : SeedImageRef).

Lemma checkSeedImageCompatibility_world env seedImageRef w :
  (checkSeedImageCompatibility env seedImageRef w).2 = inspected seedImageRef w.
Proof.
  unfold checkSeedImageCompatibility, bind, emit, modify, ret. simpl.
  destruct (podmanInspect env) as [inspectRaw err].
  destruct (bool_decide (err ≠ None) || bool_decide (inspectRaw = "")); [done|].
  destruct (json.Unmarshal inspectRaw) as [?|inspect]; [done|].
  destruct inspect as [|image [|? ?]]; try done.
  destruct (json.Labels image !! common.SeedFormatOCILabel); [|done].
  by case_bool_decide.
Qed.

Lemma checkSeedImageCompatibility_ok env seedImageRef w :
  (checkSeedImageCompatibility env seedImageRef w).1 = None ↔ compatible env.
Proof.
  unfold checkSeedImageCompatibility, compatible, bind, emit, modify, ret. simpl.
  destruct (podmanInspect env) as [inspectRaw err].
  destruct err as [e|]; simpl.
  { split; [done|]. by intros (? & ? & ? & _). }
  case_bool_decide as Hraw; simpl.
  { split; [done|]. intros (? & ? & [= <-] & ? & _). done. }
  destruct (json.Unmarshal inspectRaw) as [e|inspect] eqn:Hjson.
  { split; [done|]. intros (? & ? & [= <-] & _ & ? & _). congruence. }
  destruct inspect as [|image [|image' rest]].
  - split; [done|]. intros (? & ? & [= <-] & _ & ? & _). congruence.
  - destruct (json.Labels image !! common.SeedFormatOCILabel) as [v|] eqn:Hlabel.
    + case_bool_decide as Hv; simpl.
      * split; [done|]. intros (? & ? & [= <-] & _ & ? & ?). congruence.
      * split; [|done]. intros _. exists inspectRaw, image.
        repeat split; try done. rewrite Hlabel. f_equal.
        by destruct (decide (v = fmt.Sprintf_d common.SeedFormatVersion)).
    + split; [done|]. intros (? & ? & [= <-] & _ & ? & ?). congruence.
  - split; [done|]. intros (? & ? & [= <-] & _ & ? & _). congruence.
Qed.

Lemma acquiring_close w w' evs :
  trace w' = trace w ++ evs → forallb acquisition evs = true → acquiring w w'.
Proof.
  intros Htr Hall. exists evs. split; [done|].
  apply Forall_forall. intros e He.
  rewrite forallb_forall in Hall. apply Hall. by apply list_elem_of_In.
Qed.

Lemma checkSeedImageCompatibility_fails env seedImageRef w :
  ¬ compatible env →
  ∃ err, checkSeedImageCompatibility env seedImageRef w
         = (Some err, inspected seedImageRef w).
Proof.
  intros Hbad.
  pose proof (checkSeedImageCompatibility_world env seedImageRef w) as Hw.
  pose proof (checkSeedImageCompatibility_ok env seedImageRef w) as Hok.
  destruct (checkSeedImageCompatibility env seedImageRef w) as [[err|] w1].
  - exists err. simpl in Hw. by subst.
  - exfalso. apply Hbad, Hok. done.
Qed.

Lemma pullAndCheck_fails env file ibu w :
  ¬ compatible env →
  ∃ err w', pullAndCheck env file ibu w = (Some err, w') ∧ acquiring w w'.
Proof.
  intros Hbad. unfold pullAndCheck, bind, logInfo, emit, modify, ret. simpl.
  destruct (podmanPull env) as [e|].
  - eexists _, _. split; [done|]. by eapply acquiring_close.
  - edestruct (checkSeedImageCompatibility_fails env (Image ibu)) as [err ->];
      [done|].
    eexists _, _. split; [done|].
    eapply acquiring_close; [simpl; rewrite <-app_assoc; reflexivity|done].
Qed.

Lemma getSeedImage_fails env ibu w :
  ¬ compatible env →
  ∃ err w', getSeedImage env ibu w = (Some err, w') ∧ acquiring w w'.
Proof.
  intros Hbad. unfold getSeedImage.
  destruct (PullSecretRef ibu) as [name|]; [|by apply pullAndCheck_fails].
  unfold bind, emit, modify, ret. simpl.
  destruct (getSecretData env) as [e|pullSecret].
  { eexists _, _. split; [done|]. by eapply acquiring_close. }
  destruct (writeFile env) as [e|].
  { eexists _, _. split; [done|].
    eapply acquiring_close; [simpl; rewrite <-app_assoc; reflexivity|done]. }
  set (file := filepath.Join utils.IBUWorkspacePath "seed-pull-secret").
  edestruct (pullAndCheck_fails env file ibu) as (err & w' & -> & evs & Htr & Hall);
    [done|].
  eexists _, _. split; [done|].
  exists ([EvGetSecretData name; EvWriteFile file] ++ evs ++ [EvRemove file]).
  split.
  - simpl. rewrite Htr. simpl. by rewrite <-!app_assoc.
  - rewrite !Forall_app. repeat split; [|done|]; by repeat constructor.
Qed.

Lemma pullSeedImage_fails env ibu w :
  ¬ compatible env →
  ∃ err w', pullSeedImage env ibu w = (Some err, w') ∧ acquiring w w'.
Proof.
  intros Hbad. unfold pullSeedImage.
  destruct (ctxDone env BeforePull).
  { eexists _, _. split; [done|]. exists []. by rewrite app_nil_r. }
  unfold bind, setProgress, modify. simpl.
  edestruct (getSeedImage_fails env ibu) as (err & w' & -> & Hacq); [done|].
  eexists _, _. split; [done|]. done.
Qed.

(** C8.  The label check passes exactly when [podman inspect] gave, without
    error, a non-empty output that decodes to one image carrying the format
    version label with the value this build expects.  In every other case
    the worker function returns an error, having made no call beyond those
    of the version gate and of the image acquisition. *)
Theorem checkSeedImageCompatibility_exact_label env :
  (∀ seedImageRef w,
     (checkSeedImageCompatibility env seedImageRef w).1 = None ↔
     ∃ inspectRaw image,
       podmanInspect env = (inspectRaw, None)
       ∧ inspectRaw ≠ ""
       ∧ json.Unmarshal inspectRaw = inr [image]
       ∧ json.Labels image !! common.SeedFormatOCILabel
         = Some (fmt.Sprintf_d common.SeedFormatVersion))
  ∧ ((¬ ∃ inspectRaw image,
        podmanInspect env = (inspectRaw, None)
        ∧ inspectRaw ≠ ""
        ∧ json.Unmarshal inspectRaw = inr [image]
        ∧ json.Labels image !! common.SeedFormatOCILabel
          = Some (fmt.Sprintf_d common.SeedFormatVersion)) →
     ∀ fuel ibu w,
       ∃ err evs,
         (pipeline env fuel ibu w).1 = wait.Returned (Some err)
         ∧ trace (pipeline env fuel ibu w).2 = trace w ++ evs
         ∧ Forall (λ e, acquisition e = true) evs).
Proof.
  split; [apply checkSeedImageCompatibility_ok|].
  intros Hbad fuel ibu w.
  destruct (validateSeedOcpVersion env (Version ibu) w) as [[verr|] w1] eqn:Hv.
  - rewrite (pipeline_rejected env fuel ibu w verr) by (by rewrite Hv).
    eexists _, [EvGetClusterVersion]. repeat split. by repeat constructor.
  - assert (trace w1 = trace w ++ [EvGetClusterVersion]) as Hw1.
    { rewrite validateSeedOcpVersion_run in Hv.
      destruct (getClusterVersion env) as [?|targetOCP]; [done|].
      destruct (semver.NewVersion targetOCP); [done|].
      destruct (semver.NewVersion (Version ibu)); [done|].
      case_bool_decide; [done|]. by injection Hv as <-. }
    assert (checkSpecVersion env ibu w = (None, w1)) as Hc.
    { unfold checkSpecVersion. by rewrite (bind_run _ _ _ _ _ Hv). }
    destruct (pullSeedImage_fails env ibu w1 Hbad) as (err & w' & Hp & evs & Htr & Hall).
    unfold pipeline.
    rewrite (bind_run _ _ _ _ _ Hc), (bind_run _ _ _ _ _ Hp).
    exists err, (EvGetClusterVersion :: evs). simpl.
    rewrite Htr, Hw1, <-app_assoc. repeat split. by constructor.
Qed.

End SeedImage.

(** ** The job status poller *)

Section Poller.

Implicit Types (env : Env) (w : World) (st : precache.Status).

Lemma QueryJobStatus_run env w :
  QueryJobStatus env w = (queryJobStatus env (queries w), queried w).
Proof. done. Qed.

(** What one query changes, whatever it logs. *)
Lemma queryPrecachingStatus_frame env w :
  trace (queryPrecachingStatus env w).2 = trace w ++ [EvQueryJobStatus]
  ∧ queries (queryPrecachingStatus env w).2 = S (queries w)
  ∧ PrepTask (queryPrecachingStatus env w).2 = PrepTask w.
Proof.
  unfold queryPrecachingStatus.
  rewrite (bind_run _ _ _ _ _ (QueryJobStatus_run env w)).
  destruct (queryJobStatus env (queries w)) as [[st|] [e|]]; try done.
  by case_bool_decide.
Qed.

Lemma queryPrecachingStatus_result env w :
  (queryPrecachingStatus env w).1
  = match queryJobStatus env (queries w) with
    | (Some st, None) =>
        if bool_decide (precache.Status_ st = precache.Failed)
        then (Some st, Some precache.ErrFailed) else (Some st, None)
    | a => a
    end.
Proof.
  unfold queryPrecachingStatus.
  rewrite (bind_run _ _ _ _ _ (QueryJobStatus_run env w)).
  destruct (queryJobStatus env (queries w)) as [[st|] [e|]]; try done.
  by case_bool_decide.
Qed.

(** One round of the loop on an answer that settles nothing: a query, a
    sleep, and the loop goes on. *)
Lemma verifyLoop_indeterminate env n interval w :
  indeterminate (queryJobStatus env (queries w)) →
  ∃ w1,
    verifyLoop env (S n) interval w = verifyLoop env n interval w1
    ∧ trace w1 = trace w ++ [EvQueryJobStatus; EvSleep interval]
    ∧ queries w1 = S (queries w)
    ∧ PrepTask w1 = PrepTask w.
Proof.
  intros [Hnil Herr].
  pose proof (queryPrecachingStatus_frame env w) as (Htr & Hq & Ht).
  pose proof (queryPrecachingStatus_result env w) as Hres.
  destruct (queryJobStatus env (queries w)) as [status err]. simpl in *. subst.
  destruct (queryPrecachingStatus env w) as [a w0] eqn:Hrun. simpl in *. subst.
  exists (withTrace (λ t, t ++ [EvSleep interval]) w0).
  cbn [verifyLoop]. rewrite (bind_run _ _ _ _ _ Hrun).
  split.
  - destruct err as [e|]; [rewrite Herr|]; done.
  - simpl. rewrite Htr, <-app_assoc. done.
Qed.

(** One round of the loop on a status that is there and is not a failure:
    the progress is brought up to date, a success or a job in progress
    ends the loop at once. *)
Lemma verifyLoop_status env n interval w st :
  queryJobStatus env (queries w) = (Some st, None) →
  precache.Status_ st = precache.Succeeded ∨ precache.Status_ st = precache.Active →
  ∃ w1,
    verifyLoop env (S n) interval w
    = (Some (bool_decide (precache.Status_ st = precache.Succeeded), None), w1)
    ∧ trace w1 = trace w ++ [EvQueryJobStatus]
    ∧ queries w1 = S (queries w)
    ∧ PrepTask w1 = progressed (progressAfter st (Progress (PrepTask w))) (PrepTask w).
Proof.
  intros Hans Hst.
  pose proof (queryPrecachingStatus_frame env w) as (Htr & Hq & Ht).
  pose proof (queryPrecachingStatus_result env w) as Hres.
  rewrite Hans in Hres.
  rewrite bool_decide_false in Hres by (destruct Hst as [->| ->]; done).
  destruct (queryPrecachingStatus env w) as [a w0] eqn:Hrun. simpl in *. subst.
  cbn [verifyLoop]. rewrite (bind_run _ _ _ _ _ Hrun).
  unfold progressAfter, bind, setProgress, modify, ret.
  destruct (PrepTask w) as [a s c p d] eqn:Hw.
  case_bool_decide as Hmsg; simpl;
    (destruct Hst as [Hst|Hst]; rewrite Hst; simpl;
     eexists; (split; [reflexivity|]); simpl; rewrite Ht; done).
Qed.

(** One round of the loop on a failed job: the sentinel, at once. *)
Lemma verifyLoop_failed env n interval w st :
  queryJobStatus env (queries w) = (Some st, None) →
  precache.Status_ st = precache.Failed →
  ∃ w1,
    verifyLoop env (S n) interval w = (Some (false, Some precache.ErrFailed), w1)
    ∧ trace w1 = trace w ++ [EvQueryJobStatus]
    ∧ queries w1 = S (queries w)
    ∧ PrepTask w1 = PrepTask w.
Proof.
  intros Hans Hst.
  pose proof (queryPrecachingStatus_frame env w) as (Htr & Hq & Ht).
  pose proof (queryPrecachingStatus_result env w) as Hres.
  rewrite Hans, Hst in Hres. simpl in Hres.
  destruct (queryPrecachingStatus env w) as [a w0] eqn:Hrun. simpl in *. subst.
  cbn [verifyLoop]. rewrite (bind_run _ _ _ _ _ Hrun). simpl.
  by eexists.
Qed.

Lemma verifyPrecachingCompleteFunc_run env retries interval w :
  verifyPrecachingCompleteFunc env retries interval w
  = match verifyLoop env (Z.to_nat retries) interval
            (withLogs (λ l, l ++ ["Querying pre-caching job for completion..."]) w) with
    | (Some res, w1) => (res, w1)
    | (None, w1) =>
        ((false, Some (errorString
            ("failed more than " +:+ pretty retries +:+
             " times to fetch precaching job status"))), w1)
    end.
Proof.
  unfold verifyPrecachingCompleteFunc, bind, logInfo, modify. simpl.
  by destruct (verifyLoop env (Z.to_nat retries) interval _) as [[res|] w1].
Qed.

(** C5.  When the first query of an invocation finds the job failed, the
    poller returns the sentinel [precache.ErrFailed] with "not done": the
    query is the only call it has made, it has not slept, and the task is as
    it was.  This holds for every budget of at least one attempt and every
    interval. *)
Theorem verifyPrecachingCompleteFunc_failed_at_once env retries interval w st :
  (1 ≤ retries)%Z →
  queryJobStatus env (queries w) = (Some st, None) →
  precache.Status_ st = precache.Failed →
  (verifyPrecachingCompleteFunc env retries interval w).1
  = (false, Some precache.ErrFailed)
  ∧ trace (verifyPrecachingCompleteFunc env retries interval w).2
    = trace w ++ [EvQueryJobStatus]
  ∧ queries (verifyPrecachingCompleteFunc env retries interval w).2
    = S (queries w)
  ∧ PrepTask (verifyPrecachingCompleteFunc env retries interval w).2
    = PrepTask w.
Proof.
  intros Hn Hans Hst. rewrite verifyPrecachingCompleteFunc_run.
  destruct (Z.to_nat retries) as [|n] eqn:Hr; [lia|].
  set (w0 := withLogs _ w).
  destruct (verifyLoop_failed env n interval w0 st Hans Hst)
    as (w1 & -> & Htr & Hq & Ht).
  done.
Qed.

(** The same for a query that itself returns an error which is the failure
    of the job: the error is handed on at once. *)
Lemma verifyPrecachingCompleteFunc_failure_error env retries interval w status e :
  (1 ≤ retries)%Z →
  queryJobStatus env (queries w) = (status, Some e) →
  errors.Is e precache.ErrFailed = true →
  (verifyPrecachingCompleteFunc env retries interval w).1 = (false, Some e)
  ∧ trace (verifyPrecachingCompleteFunc env retries interval w).2
    = trace w ++ [EvQueryJobStatus]
  ∧ queries (verifyPrecachingCompleteFunc env retries interval w).2
    = S (queries w).
Proof.
  intros Hn Hans Hfail. rewrite verifyPrecachingCompleteFunc_run.
  destruct (Z.to_nat retries) as [|n] eqn:Hr; [lia|].
  set (w0 := withLogs _ w).
  pose proof (queryPrecachingStatus_frame env w0) as (Htr & Hq & _).
  pose proof (queryPrecachingStatus_result env w0) as Hres.
  change (queries w0) with (queries w) in Hres. rewrite Hans in Hres.
  destruct (queryPrecachingStatus env w0) as [a w1] eqn:Hrun.
  simpl in Hres, Htr, Hq. subst a.
  cbn [verifyLoop]. rewrite (bind_run _ _ _ _ _ Hrun).
  destruct status; simpl; by rewrite Hfail.
Qed.

Lemma verifyLoop_exhausted env interval n : ∀ w,
  (∀ i, i < n → indeterminate (queryJobStatus env (queries w + i))) →
  (verifyLoop env n interval w).1 = None
  ∧ trace (verifyLoop env n interval w).2
    = trace w ++ mjoin (replicate n [EvQueryJobStatus; EvSleep interval])
  ∧ queries (verifyLoop env n interval w).2 = queries w + n
  ∧ PrepTask (verifyLoop env n interval w).2 = PrepTask w.
Proof.
  induction n as [|n IH]; intros w Hall.
  - simpl. rewrite app_nil_r. repeat split. lia.
  - destruct (verifyLoop_indeterminate env n interval w)
      as (w1 & -> & Htr & Hq & Ht).
    { specialize (Hall 0). rewrite Nat.add_0_r in Hall. apply Hall. lia. }
    destruct (IH w1) as (Hres & Htr' & Hq' & Ht').
    { intros i Hi. rewrite Hq. replace (S (queries w) + i) with (queries w + S i) by lia.
      apply Hall. lia. }
    rewrite Hres, Htr', Hq', Ht', Htr, Hq, Ht. repeat split.
    + by rewrite <-app_assoc.
    + lia.
Qed.

(** One round of the loop, by its answer: the loop goes on exactly on an
    answer that is unsettled, and returns on any other. *)
Lemma verifyLoop_cases env n interval w :
  (unsettled (queryJobStatus env (queries w))
   ∧ ∃ w1,
       verifyLoop env (S n) interval w = verifyLoop env n interval w1
       ∧ trace w1 = trace w ++ [EvQueryJobStatus; EvSleep interval]
       ∧ queries w1 = S (queries w)
       ∧ PrepTask w1
         = match (queryJobStatus env (queries w)).1 with
           | Some st =>
               progressed (progressAfter st (Progress (PrepTask w))) (PrepTask w)
           | None => PrepTask w
           end)
  ∨ (¬ unsettled (queryJobStatus env (queries w))
     ∧ ∃ res w1,
         verifyLoop env (S n) interval w = (Some res, w1)
         ∧ settles (queryJobStatus env (queries w)) res
         ∧ trace w1 = trace w ++ [EvQueryJobStatus]
         ∧ queries w1 = S (queries w)).
Proof.
  pose proof (queryPrecachingStatus_frame env w) as (Htr & Hq & Ht).
  pose proof (queryPrecachingStatus_result env w) as Hres.
  cbn [verifyLoop].
  destruct (queryPrecachingStatus env w) as [a w0] eqn:Hrun.
  rewrite (bind_run _ _ _ _ _ Hrun). simpl in Hres, Htr, Hq, Ht. subst a.
  assert (∀ w0', trace w0' = trace w0 ++ [EvSleep interval] →
                 trace w0' = trace w ++ [EvQueryJobStatus; EvSleep interval])
    as Hslept.
  { intros w0' ->. by rewrite Htr, <-app_assoc. }
  unfold unsettled, progressAfter.
  destruct (PrepTask w) as [ta ts tc tp td] eqn:Hw.
  destruct (queryJobStatus env (queries w)) as [[st|] [e|]] eqn:Hans;
    cbn [fst snd].
  - destruct (errors.Is e precache.ErrFailed) eqn:Hfail.
    + right. split; [by intros [? _]|].
      eexists _, _. split; [done|]. simpl. by eauto 10.
    + unfold bind, setProgress, modify, ret.
      destruct (precache.Status_ st) eqn:Hphase;
        destruct (bool_decide (precache.Message st ≠ "")); simpl.
      all: first
        [ right; split;
          [intros [_ Hno]; destruct (Hno st eq_refl); congruence
          |eexists _, _; split; [done|]; simpl; by eauto 10]
        | left; split;
          [split; [done|]; intros st' [= <-]; by rewrite Hphase
          |eexists; split; [done|]; split; [by apply Hslept|];
           split; [done|]; simpl; by rewrite Ht] ].
  - case_bool_decide as Hf; simpl.
    + right. split; [intros [Hno _]; by apply (Hno st)|].
      eexists _, _. split; [done|]. simpl. split; [|done].
      split; [done|]. left. by eauto.
    + unfold bind, setProgress, modify, ret.
      destruct (precache.Status_ st) eqn:Hphase; [| |done|];
        destruct (bool_decide (precache.Message st ≠ "")); simpl.
      all: first
        [ right; split;
          [intros [_ Hno]; destruct (Hno st eq_refl); congruence
          |eexists _, _; split; [done|]; simpl; by eauto 10]
        | left; split;
          [split; [by intros st' [= <-]; rewrite Hphase
                  |intros st' [= <-]; by rewrite Hphase]
          |eexists; split; [done|]; split; [by apply Hslept|];
           split; [done|]; simpl; by rewrite Ht] ].
  - destruct (errors.Is e precache.ErrFailed) eqn:Hfail.
    + right. split; [by intros [? _]|].
      eexists _, _. split; [done|]. simpl. by eauto 10.
    + left. split; [by split|].
      eexists. split; [done|]. split; [by apply Hslept|]. split; [done|].
      simpl. by rewrite Ht.
  - left. split; [by split|].
    eexists. split; [done|]. split; [by apply Hslept|]. split; [done|].
    simpl. by rewrite Ht.
Qed.

(** An answer that settles a result does not settle the error of a spent
    budget. *)
Lemma settles_not_spent a b msg : ¬ settles a (b, Some (errorString msg)).
Proof. destruct b; simpl; [by intros []|]. by intros [? _]. Qed.

(** The loop runs to its end exactly when all its answers are unsettled. *)
Lemma verifyLoop_spent env interval n : ∀ w,
  ((∀ i, i < n → unsettled (queryJobStatus env (queries w + i))) ↔
     (verifyLoop env n interval w).1 = None)
  ∧ (∀ res, (verifyLoop env n interval w).1 = Some res →
       ∀ msg, res ≠ (false, Some (errorString msg)))
  ∧ ((verifyLoop env n interval w).1 = None →
       trace (verifyLoop env n interval w).2
       = trace w ++ mjoin (replicate n [EvQueryJobStatus; EvSleep interval])
       ∧ queries (verifyLoop env n interval w).2 = queries w + n
       ∧ PrepTask (verifyLoop env n interval w).2
         = progressed (Progress (PrepTask (verifyLoop env n interval w).2))
             (PrepTask w)).
Proof.
  induction n as [|n IH]; intros w.
  - simpl. split; [split; [done|intros _ i Hi; lia]|]. split; [done|].
    intros _. rewrite app_nil_r. split; [done|]. split; [lia|].
    by destruct (PrepTask w).
  - destruct (verifyLoop_cases env n interval w)
      as [(Hun & w1 & -> & Htr & Hq & Ht)|(Hno & res & w1 & -> & Hset & _)].
    + destruct (IH w1) as (Hiff & Hres & Hend). rewrite Hq in Hiff.
      split; [|split; [done|]].
      * rewrite <-Hiff. split.
        -- intros Hall i Hi.
           replace (S (queries w) + i) with (queries w + S i) by lia.
           apply Hall. lia.
        -- intros Hall [|i] Hi; [by rewrite Nat.add_0_r|].
           replace (queries w + S i) with (S (queries w) + i) by lia.
           apply Hall. lia.
      * intros Hnone. destruct (Hend Hnone) as (Htr' & Hq' & Ht').
        rewrite Htr', Htr, Hq', Hq. simpl. rewrite <-app_assoc.
        split; [done|]. split; [lia|]. rewrite Ht', Ht.
        by destruct (queryJobStatus env (queries w)).1.
    + simpl. split; [|split; [|done]].
      * split; [|done]. intros Hall. exfalso. apply Hno.
        specialize (Hall 0). rewrite Nat.add_0_r in Hall. apply Hall. lia.
      * intros res' [= <-] msg ->. by eapply settles_not_spent.
Qed.

(** A status that comes with a query error settles the result when it is
    [Succeeded] or [Active]. *)
Lemma verifyLoop_status_over_error env n interval w st e :
  queryJobStatus env (queries w) = (Some st, Some e) →
  errors.Is e precache.ErrFailed = false →
  precache.Status_ st = precache.Succeeded ∨ precache.Status_ st = precache.Active →
  (verifyLoop env (S n) interval w).1
  = Some (bool_decide (precache.Status_ st = precache.Succeeded), None)
  ∧ queries (verifyLoop env (S n) interval w).2 = S (queries w)
  ∧ trace (verifyLoop env (S n) interval w).2 = trace w ++ [EvQueryJobStatus].
Proof.
  intros Hans Hfail Hst.
  destruct (verifyLoop_cases env n interval w)
    as [([_ Hun] & _)|(_ & res & w1 & -> & Hset & Htr & Hq)].
  { rewrite Hans in Hun. destruct (Hun st eq_refl). by destruct Hst. }
  simpl. split; [|done]. rewrite Hans in Hset.
  destruct res as [[|] [err|]]; simpl in Hset.
  - done.
  - destruct Hset as (st' & oe & [= <- <-] & Hs).
    by rewrite bool_decide_true.
  - destruct Hset as [Herr [(st' & [=] & _)|(status & [= _ <-])]]. congruence.
  - destruct Hset as (st' & oe & [= <- <-] & Hs).
    rewrite bool_decide_false; [done|]. by rewrite Hs.
Qed.

(** C6, as the code has it.  One invocation of the poller with a budget of
    [N] attempts returns the error of the spent budget, "not done" with it,
    exactly when each of its [N] answers is unsettled: a nil status, with no
    error or with an error that is not the failure of the job, or a status
    that is neither [Succeeded] nor [Active] and does not count as the
    failure of the job.  It has then made [N] queries and slept the
    interval after each of them, the last as well, and has written nothing
    of the task but its progress; when every answer has a nil status the
    task is as it was.  A query error that is not the failure of the job
    does not by itself leave the attempt open: when a status [Succeeded]
    comes with it the poller returns "done", and when a status [Active]
    comes with it "not yet", both without error and after that one query. *)
Theorem verifyPrecachingCompleteFunc_budget_exhausted env retries interval w :
  ((∀ i, i < Z.to_nat retries →
         unsettled (queryJobStatus env (queries w + i))) ↔
     (verifyPrecachingCompleteFunc env retries interval w).1
     = (false, Some (errorString
          ("failed more than " +:+ fmt.Sprintf_d retries +:+
           " times to fetch precaching job status"))))
  ∧ ((∀ i, i < Z.to_nat retries →
           unsettled (queryJobStatus env (queries w + i))) →
     trace (verifyPrecachingCompleteFunc env retries interval w).2
     = trace w ++ mjoin (replicate (Z.to_nat retries)
                           [EvQueryJobStatus; EvSleep interval])
     ∧ queries (verifyPrecachingCompleteFunc env retries interval w).2
       = queries w + Z.to_nat retries
     ∧ PrepTask (verifyPrecachingCompleteFunc env retries interval w).2
       = progressed
           (Progress (PrepTask (verifyPrecachingCompleteFunc env retries interval w).2))
           (PrepTask w))
  ∧ ((∀ i, i < Z.to_nat retries →
           indeterminate (queryJobStatus env (queries w + i))) →
     (∀ i, i < Z.to_nat retries →
           unsettled (queryJobStatus env (queries w + i)))
     ∧ PrepTask (verifyPrecachingCompleteFunc env retries interval w).2
       = PrepTask w)
  ∧ (∀ st e,
       (1 ≤ retries)%Z →
       queryJobStatus env (queries w) = (Some st, Some e) →
       errors.Is e precache.ErrFailed = false →
       precache.Status_ st = precache.Succeeded
       ∨ precache.Status_ st = precache.Active →
       (verifyPrecachingCompleteFunc env retries interval w).1
       = (bool_decide (precache.Status_ st = precache.Succeeded), None)
       ∧ queries (verifyPrecachingCompleteFunc env retries interval w).2
         = S (queries w)
       ∧ trace (verifyPrecachingCompleteFunc env retries interval w).2
         = trace w ++ [EvQueryJobStatus]).
Proof.
  rewrite verifyPrecachingCompleteFunc_run.
  set (w0 := withLogs _ w).
  destruct (verifyLoop_spent env interval (Z.to_nat retries) w0)
    as (Hiff & Hres & Hend).
  change (queries w0) with (queries w) in Hiff.
  split; [|split; [|split]].
  - rewrite Hiff.
    destruct (verifyLoop env (Z.to_nat retries) interval w0) as [[res|] w1];
      simpl in *; [|done].
    split; [done|]. intros Heq. exfalso.
    by eapply (Hres res eq_refl).
  - intros Hall. apply Hiff in Hall. specialize (Hend Hall).
    destruct (verifyLoop env (Z.to_nat retries) interval w0) as [[res|] w1];
      [done|].
    done.
  - intros Hall. split.
    { intros i Hi. destruct (Hall i Hi) as [Hnil Herr]. split.
      - destruct (queryJobStatus env (queries w + i)).2; [done|].
        intros st. by rewrite Hnil.
      - intros st. by rewrite Hnil. }
    destruct (verifyLoop_exhausted env interval (Z.to_nat retries) w0 Hall)
      as (Hnone & _ & _ & Ht).
    destruct (verifyLoop env (Z.to_nat retries) interval w0) as [[res|] w1];
      [done|].
    done.
  - intros st e Hn Hans Hfail Hst.
    destruct (Z.to_nat retries) as [|n] eqn:Hr; [lia|].
    destruct (verifyLoop_status_over_error env n interval w0 st e Hans Hfail Hst)
      as (Hv & Hq & Htr).
    destruct (verifyLoop env (S n) interval w0) as [[res|] w1]; [|done].
    simpl in *. by injection Hv as ->.
Qed.

(** One invocation of the poller on a status that is there and is not a
    failure. *)
Lemma verifyPrecachingCompleteFunc_status env retries interval w st :
  (1 ≤ retries)%Z →
  queryJobStatus env (queries w) = (Some st, None) →
  precache.Status_ st = precache.Succeeded ∨ precache.Status_ st = precache.Active →
  (verifyPrecachingCompleteFunc env retries interval w).1
  = (bool_decide (precache.Status_ st = precache.Succeeded), None)
  ∧ trace (verifyPrecachingCompleteFunc env retries interval w).2
    = trace w ++ [EvQueryJobStatus]
  ∧ queries (verifyPrecachingCompleteFunc env retries interval w).2
    = S (queries w)
  ∧ PrepTask (verifyPrecachingCompleteFunc env retries interval w).2
    = progressed (progressAfter st (Progress (PrepTask w))) (PrepTask w).
Proof.
  intros Hn Hans Hst. rewrite verifyPrecachingCompleteFunc_run.
  destruct (Z.to_nat retries) as [|n] eqn:Hr; [lia|].
  set (w0 := withLogs _ w).
  destruct (verifyLoop_status env n interval w0 st Hans Hst)
    as (w1 & -> & Htr & Hq & Ht).
  done.
Qed.

(** One round of the outer wait: the timer, then the condition. *)
Lemma pollLoop_round fuel tick ctx interval (condition : M World (bool * option error)) w :
  ctx tick = false →
  wait.pollLoop (S fuel) tick ctx interval condition w
  = match condition (withTrace (λ t, t ++ [EvSleep interval]) w) with
    | ((_, Some err), w1) => (wait.Returned (Some err), w1)
    | ((true, None), w1) => (wait.Returned None, w1)
    | ((false, None), w1) => wait.pollLoop fuel (S tick) ctx interval condition w1
    end.
Proof.
  intros Hctx. cbn [wait.pollLoop]. rewrite Hctx.
  unfold bind, time.Sleep, World_clock, emit, modify.
  by destruct (condition _) as [[[|] [e|]] w1].
Qed.

(** C7.  With the job seen active, active and then succeeded, a budget of
    at least one attempt for each invocation (three or more in particular)
    and a context that is not canceled, the wait returns success after the
    third query: three rounds of the outer loop, one query in each, and
    none after.  The progress of the task is the latest message that was
    not empty.  An invocation that sees an active job brings the progress
    up to date and returns "not done, no error", which makes the outer loop
    wait and call again; one that sees a job that has succeeded returns
    "done" at once. *)
Theorem poller_active_active_succeeded env retries interval fuel ctx w s1 s2 s3 :
  (1 ≤ retries)%Z →
  3 ≤ fuel →
  (∀ n, n < 3 → ctx n = false) →
  queryJobStatus env (queries w) = (Some s1, None) →
  precache.Status_ s1 = precache.Active →
  queryJobStatus env (S (queries w)) = (Some s2, None) →
  precache.Status_ s2 = precache.Active →
  queryJobStatus env (S (S (queries w))) = (Some s3, None) →
  precache.Status_ s3 = precache.Succeeded →
  let poller := verifyPrecachingCompleteFunc env retries interval in
  let run := wait.PollUntilContextCancel fuel ctx interval false poller w in
  run.1 = wait.Returned None
  ∧ queries run.2 = queries w + 3
  ∧ trace run.2
    = trace w ++ [EvSleep interval; EvQueryJobStatus;
                  EvSleep interval; EvQueryJobStatus;
                  EvSleep interval; EvQueryJobStatus]
  ∧ PrepTask run.2
    = progressed
        (progressAfter s3 (progressAfter s2 (progressAfter s1 (Progress (PrepTask w)))))
        (PrepTask w)
  ∧ (∀ w' st,
       queryJobStatus env (queries w') = (Some st, None) →
       precache.Status_ st = precache.Active →
       (poller w').1 = (false, None)
       ∧ queries (poller w').2 = S (queries w')
       ∧ PrepTask (poller w').2
         = progressed (progressAfter st (Progress (PrepTask w'))) (PrepTask w'))
  ∧ (∀ w' st,
       queryJobStatus env (queries w') = (Some st, None) →
       precache.Status_ st = precache.Succeeded →
       (poller w').1 = (true, None)
       ∧ queries (poller w').2 = S (queries w')
       ∧ PrepTask (poller w').2
         = progressed (progressAfter st (Progress (PrepTask w'))) (PrepTask w')).
Proof.
  intros Hn Hfuel Hctx H1 Ha1 H2 Ha2 H3 Ha3 poller run.
  assert (∀ w' st,
    queryJobStatus env (queries w') = (Some st, None) →
    precache.Status_ st = precache.Succeeded ∨ precache.Status_ st = precache.Active →
    ∀ fuel' tick, ctx tick = false →
    ∃ w1,
      wait.pollLoop (S fuel') tick ctx interval poller w'
      = (if bool_decide (precache.Status_ st = precache.Succeeded)
         then (wait.Returned None, w1)
         else wait.pollLoop fuel' (S tick) ctx interval poller w1)
      ∧ trace w1 = trace w' ++ [EvSleep interval; EvQueryJobStatus]
      ∧ queries w1 = S (queries w')
      ∧ PrepTask w1
        = progressed (progressAfter st (Progress (PrepTask w'))) (PrepTask w'))
    as Hround.
  { intros w' st Hans Hst fuel' tick Htick.
    rewrite pollLoop_round by done.
    set (w0 := withTrace _ w').
    destruct (verifyPrecachingCompleteFunc_status env retries interval w0 st Hn Hans Hst)
      as (Hres & Htr & Hq & Ht).
    fold poller in Hres, Htr, Hq, Ht |- *.
    destruct (poller w0) as [res w1]. simpl in *. subst res.
    exists w1. split; [by case_bool_decide|].
    split; [|done]. rewrite Htr. unfold w0. simpl. by rewrite <-app_assoc. }
  split; [|split; [|split; [|split; [|split]]]].
  5: { intros w' st Hans Hst.
       destruct (verifyPrecachingCompleteFunc_status env retries interval w' st Hn Hans)
         as (Hres & _ & Hq & Ht); [by right|].
       fold poller in Hres, Hq, Ht. rewrite Hres, Hst. done. }
  5: { intros w' st Hans Hst.
       destruct (verifyPrecachingCompleteFunc_status env retries interval w' st Hn Hans)
         as (Hres & _ & Hq & Ht); [by left|].
       fold poller in Hres, Hq, Ht. rewrite Hres, Hst. done. }
  all: subst run; unfold wait.PollUntilContextCancel;
    destruct fuel as [|[|[|fuel]]]; try lia;
    destruct (Hround w s1 H1 (or_intror Ha1) (S (S fuel)) 0) as (w1 & -> & Htr1 & Hq1 & Ht1);
      [apply Hctx; lia|];
    rewrite Ha1, bool_decide_false by done;
    rewrite <-Hq1 in H2;
    destruct (Hround w1 s2 H2 (or_intror Ha2) (S fuel) 1) as (w2 & -> & Htr2 & Hq2 & Ht2);
      [apply Hctx; lia|];
    rewrite Ha2, bool_decide_false by done;
    rewrite <-Hq1, <-Hq2 in H3;
    destruct (Hround w2 s3 H3 (or_introl Ha3) fuel 2) as (w3 & -> & Htr3 & Hq3 & Ht3);
      [apply Hctx; lia|];
    rewrite Ha3, bool_decide_true by done; simpl.
  - done.
  - lia.
  - rewrite Htr3, Htr2, Htr1, <-!app_assoc. done.
  - rewrite Ht3, Ht2, Ht1. done.
Qed.

End Poller.

(** ** The dispatcher *)

Section Dispatch.

Context `{!utils.Consts}.
Implicit Types (fs : Fs) (w : World).

Lemma handlePrep_run fs w :
  handlePrep fs w
  = match statErr (statHost fs) with
    | Some err =>
        ((doNotRequeue, Some (fmt.Errorf_w "host dir does not exist: " err)), w)
    | None =>
        match workspaceErr fs with
        | Some e => ((doNotRequeue, Some e), prepared fs w)
        | None =>
            if negb (Active (PrepTask w)) then
              ((requeueWithShortInterval, None),
               withPrepStatus (utils.InProgress "Prep stage initialized")
                 (withTrace (λ t, t ++ [EvGo])
                    (withTask (startedTask (nextId w))
                       (withNextId (S (nextId w)) (prepared fs w)))))
            else if fired (done (PrepTask w)) w then
              ((doNotRequeue, None),
               (Reset (withPrepStatus
                         (if Success (PrepTask w)
                          then utils.Completed (Progress (PrepTask w))
                          else utils.Failed (Progress (PrepTask w)))
                         (prepared fs w))).2)
            else
              ((requeueWithShortInterval, None),
               withPrepStatus (utils.InProgress (Progress (PrepTask w)))
                 (prepared fs w))
        end
    end.
Proof.
  unfold handlePrep, workspaceErr, prepared.
  destruct (statErr (statHost fs)); [done|].
  unfold bind, emit, modify, ret, gets, fresh, SetPrepStatusInProgress,
    SetPrepStatusCompleted, SetPrepStatusFailed, Reset, fired.
  destruct (statWorkspace fs) as [| |e]; simpl.
  - destruct (Active (PrepTask w)); simpl; [|done].
    destruct (done (PrepTask w)) as [c|]; [|done]. simpl.
    case_bool_decide; [|done]. by destruct (Success (PrepTask w)).
  - destruct (mkdirWorkspace fs); [done|]. simpl.
    destruct (Active (PrepTask w)); simpl; [|done].
    destruct (done (PrepTask w)) as [c|]; [|done]. simpl.
    case_bool_decide; [|done]. by destruct (Success (PrepTask w)).
  - done.
Qed.

(** C4.  On an invocation that passes its precondition checks while the
    task is active, the dispatcher looks at the completion signal without
    waiting and returns in both cases.  If the signal has fired it sets the
    prep status to completed when [Success] is set and to failed otherwise,
    with the progress of the task as message, resets the task and asks for
    no requeue; if not, it sets the prep status to in progress with the
    progress of the task and asks for a requeue after the short interval,
    leaving the task as it is. *)
Theorem handlePrep_active fs w :
  preconditionsMet fs →
  Active (PrepTask w) = true →
  (fired (done (PrepTask w)) w = true →
     handlePrep fs w
     = ((doNotRequeue, None),
        (Reset (withPrepStatus
                  (if Success (PrepTask w)
                   then utils.Completed (Progress (PrepTask w))
                   else utils.Failed (Progress (PrepTask w)))
                  (prepared fs w))).2)
     ∧ prepStatus (handlePrep fs w).2
       = (if Success (PrepTask w)
          then utils.Completed (Progress (PrepTask w))
          else utils.Failed (Progress (PrepTask w)))
     ∧ PrepTask (handlePrep fs w).2
       = {| Active := false; Success := false; Cancel := None;
            Progress := ""; done := None |})
  ∧ (fired (done (PrepTask w)) w = false →
     handlePrep fs w
     = ((requeueWithShortInterval, None),
        withPrepStatus (utils.InProgress (Progress (PrepTask w))) (prepared fs w))
     ∧ prepStatus (handlePrep fs w).2 = utils.InProgress (Progress (PrepTask w))
     ∧ PrepTask (handlePrep fs w).2 = PrepTask w).
Proof.
  intros [Hhost Hws] Hact. rewrite handlePrep_run, Hhost, Hws, Hact. simpl.
  split; intros ->; repeat split;
    unfold prepared; by destruct (statWorkspace fs).
Qed.

Lemma prepared_frame fs w :
  PrepTask (prepared fs w) = PrepTask w
  ∧ closed (prepared fs w) = closed w
  ∧ nextId (prepared fs w) = nextId w
  ∧ started (prepared fs w) = started w.
Proof.
  unfold prepared, started. destruct (statWorkspace fs); try done.
  simpl. rewrite List.filter_app. simpl. by rewrite app_nil_r.
Qed.

Lemma handlePrep_start fs w :
  preconditionsMet fs →
  Active (PrepTask w) = false →
  (handlePrep fs w).1 = (requeueWithShortInterval, None)
  ∧ PrepTask (handlePrep fs w).2 = startedTask (nextId w) (PrepTask w)
  ∧ prepStatus (handlePrep fs w).2 = utils.InProgress "Prep stage initialized"
  ∧ closed (handlePrep fs w).2 = closed w
  ∧ nextId (handlePrep fs w).2 = S (nextId w)
  ∧ started (handlePrep fs w).2 = S (started w).
Proof.
  intros [Hhost Hws] Hact. rewrite handlePrep_run, Hhost, Hws, Hact. simpl.
  destruct (prepared_frame fs w) as (Ht & Hc & Hn & Hs).
  rewrite Ht. repeat split; try done.
  unfold started in *. simpl. rewrite List.filter_app, length_app, Hs. simpl. lia.
Qed.

Lemma handlePrep_running fs w :
  Active (PrepTask w) = true →
  fired (done (PrepTask w)) w = false →
  PrepTask (handlePrep fs w).2 = PrepTask w
  ∧ closed (handlePrep fs w).2 = closed w
  ∧ nextId (handlePrep fs w).2 = nextId w
  ∧ started (handlePrep fs w).2 = started w.
Proof.
  intros Hact Hfired. rewrite handlePrep_run, Hact, Hfired. simpl.
  destruct (prepared_frame fs w) as (Ht & Hc & Hn & Hs).
  destruct (statErr (statHost fs)); [done|].
  destruct (workspaceErr fs); done.
Qed.

Lemma handlePrep_stopped fs w :
  Active (PrepTask w) = false →
  ¬ preconditionsMet fs →
  PrepTask (handlePrep fs w).2 = PrepTask w
  ∧ closed (handlePrep fs w).2 = closed w
  ∧ nextId (handlePrep fs w).2 = nextId w
  ∧ started (handlePrep fs w).2 = started w.
Proof.
  intros Hact Hnot. rewrite handlePrep_run.
  destruct (prepared_frame fs w) as (Ht & Hc & Hn & Hs).
  destruct (statErr (statHost fs)) eqn:Hhost; [done|].
  destruct (workspaceErr fs) eqn:Hws; [done|].
  exfalso. by apply Hnot.
Qed.

Lemma oneWorker_step w0 w w' :
  allocated w0 → oneWorker w0 w → step w w' → oneWorker w0 w'.
Proof.
  intros Halloc (Hclosed & Hnext & Hinv) Hstep.
  destruct Hstep as [fs w|w w' (Ha & Hd & Hc & Hn & Hs)].
  - destruct (Active (PrepTask w)) eqn:Hact.
    + destruct Hinv as [Hst Hfired].
      destruct (handlePrep_running fs w Hact Hfired) as (Ht & Hc & Hn & Hs).
      unfold oneWorker, fired. rewrite Ht, Hc, Hn, Hs, Hact.
      repeat split; try done.
    + destruct (decide (statErr (statHost fs) = None ∧ workspaceErr fs = None))
        as [Hmet|Hnot].
      * destruct (handlePrep_start fs w Hmet Hact) as (_ & Ht & _ & Hc & Hn & Hs).
        unfold oneWorker, fired. rewrite Ht, Hc, Hn, Hs. simpl.
        repeat split; try done; try lia.
        apply bool_decide_eq_false. rewrite Hclosed. intros Hin.
        apply Halloc in Hin. lia.
      * destruct (handlePrep_stopped fs w Hact Hnot) as (Ht & Hc & Hn & Hs).
        unfold oneWorker. rewrite Ht, Hc, Hn, Hs, Hact. done.
  - unfold oneWorker, fired in *. rewrite Ha, Hd, Hc, Hs.
    repeat split; try done. lia.
Qed.

(** C1.  Along every run from an inactive task in which no worker
    completes, with reconciles under any file system and steps of the
    running worker in any order, at most one worker goroutine is started.
    A reconcile that passes its checks on an inactive task allocates a new
    completion signal, not closed, marks the task active and starts the
    worker; a reconcile on an active task whose signal has not fired
    starts nothing and leaves the task, the channels and the allocator as
    they are. *)
Theorem handlePrep_starts_at_most_one_worker :
  (∀ w0 w,
     Active (PrepTask w0) = false →
     allocated w0 →
     rtc step w0 w →
     started w ≤ S (started w0))
  ∧ (∀ fs w,
     preconditionsMet fs →
     Active (PrepTask w) = false →
     allocated w →
     (handlePrep fs w).1 = (requeueWithShortInterval, None)
     ∧ PrepTask (handlePrep fs w).2
       = {| Active := true; Success := false; Cancel := Cancel (PrepTask w);
            Progress := "Prep stage initialized"; done := Some (nextId w) |}
     ∧ fired (Some (nextId w)) (handlePrep fs w).2 = false
     ∧ nextId (handlePrep fs w).2 = S (nextId w)
     ∧ started (handlePrep fs w).2 = S (started w))
  ∧ (∀ fs w,
     Active (PrepTask w) = true →
     fired (done (PrepTask w)) w = false →
     PrepTask (handlePrep fs w).2 = PrepTask w
     ∧ closed (handlePrep fs w).2 = closed w
     ∧ nextId (handlePrep fs w).2 = nextId w
     ∧ started (handlePrep fs w).2 = started w).
Proof.
  split; [|split].
  - intros w0 w Hact Halloc Hrun.
    assert (oneWorker w0 w) as (_ & _ & Hinv).
    { revert w Hrun. apply rtc_ind_r.
      - unfold oneWorker. rewrite Hact. repeat split; done.
      - intros y z _ Hstep Hy. by eapply oneWorker_step. }
    destruct (Active (PrepTask w)); [destruct Hinv as [-> _]|rewrite Hinv]; lia.
  - intros fs w Hmet Hact Halloc.
    destruct (handlePrep_start fs w Hmet Hact) as (Hres & Ht & _ & Hc & Hn & Hs).
    repeat split; try done.
    unfold fired. rewrite Hc. apply bool_decide_eq_false.
    intros Hin. apply Halloc in Hin. lia.
  - apply handlePrep_running.
Qed.

End Dispatch.

(** ** What the worker leaves alone *)

Create HintDb framed.

Section Frame.

Context `{!common.Consts, !utils.Consts, !json.Decoder}.
Context `{!semver.Lib SemVer}.
Implicit Types (env : Env) (w : World) (ibu : SeedImageRef).

Lemma frame_refl w : frame w w.
Proof. by repeat split. Qed.

Lemma frame_trans w1 w2 w3 : frame w1 w2 → frame w2 w3 → frame w1 w3.
Proof.
  intros (?&?&?&?&?&?&?&?) (?&?&?&?&?&?&?&?).
  repeat split; try congruence. lia.
Qed.

Lemma framed_ret {A} (a : A) : framed (ret a).
Proof. intros w. apply frame_refl. Qed.

Lemma framed_bind {A B} (m : M World A) (k : A → M World B) :
  framed m → (∀ a, framed (k a)) → framed (bind m k).
Proof.
  intros Hm Hk w. unfold bind. specialize (Hm w).
  destruct (m w) as [a w1]. eapply frame_trans; [exact Hm|apply Hk].
Qed.

Lemma framed_emit e : isGo e = false → framed (emit e).
Proof.
  intros He w. unfold emit, modify, frame, started. simpl.
  rewrite List.filter_app. simpl. rewrite He, app_nil_r. by repeat split.
Qed.

Lemma framed_logInfo msg : framed (logInfo msg).
Proof. intros w. by repeat split. Qed.

Lemma framed_setProgress s : framed (setProgress s).
Proof. intros w. by repeat split. Qed.

Lemma framed_Sleep d : framed (time.Sleep d).
Proof. by apply framed_emit. Qed.

Lemma framed_callCancel c : framed (callCancel c).
Proof. intros w. by repeat split. Qed.

Lemma framed_fresh : framed fresh.
Proof. intros w. unfold frame. simpl. repeat split; try done. lia. Qed.

Lemma framed_gets {A} (f : World → A) : framed (gets f).
Proof. intros w. apply frame_refl. Qed.

Lemma framed_queries : framed (modify (withQueries S)).
Proof. intros w. by repeat split. Qed.

(** Take a computation apart down to the calls it makes. *)
Ltac frame_steps :=
  repeat first
    [ progress auto with framed
    | apply framed_ret
    | apply framed_logInfo
    | apply framed_setProgress
    | apply framed_Sleep
    | apply framed_callCancel
    | apply framed_fresh
    | apply framed_gets
    | apply framed_queries
    | apply framed_emit; reflexivity
    | apply framed_bind; [|intros ?]
    | match goal with
      | |- framed (match ?x with _ => _ end) => destruct x
      | |- framed (if ?x then _ else _) => destruct x
      | |- framed (let '(_, _) := ?x in _) => destruct x
      end ].

Lemma framed_checkSeedImageCompatibility env seedImageRef :
  framed (checkSeedImageCompatibility env seedImageRef).
Proof. unfold checkSeedImageCompatibility. frame_steps. Qed.
#[local] Hint Resolve framed_checkSeedImageCompatibility : framed.

Lemma framed_pullAndCheck env file ibu : framed (pullAndCheck env file ibu).
Proof. unfold pullAndCheck. frame_steps. Qed.
#[local] Hint Resolve framed_pullAndCheck : framed.

Lemma framed_getSeedImage env ibu : framed (getSeedImage env ibu).
Proof. unfold getSeedImage. frame_steps. Qed.
#[local] Hint Resolve framed_getSeedImage : framed.

Lemma framed_validateSeedOcpVersion env seed : framed (validateSeedOcpVersion env seed).
Proof. unfold validateSeedOcpVersion. frame_steps. Qed.
#[local] Hint Resolve framed_validateSeedOcpVersion : framed.

Lemma framed_getPodEnvVars env : framed (getPodEnvVars env).
Proof. unfold getPodEnvVars. frame_steps. Qed.
#[local] Hint Resolve framed_getPodEnvVars : framed.

Lemma framed_launchPrecaching env file : framed (launchPrecaching env file).
Proof. unfold launchPrecaching. frame_steps. Qed.
#[local] Hint Resolve framed_launchPrecaching : framed.

Lemma framed_QueryJobStatus env : framed (QueryJobStatus env).
Proof. unfold QueryJobStatus. frame_steps. Qed.
#[local] Hint Resolve framed_QueryJobStatus : framed.

Lemma framed_queryPrecachingStatus env : framed (queryPrecachingStatus env).
Proof. unfold queryPrecachingStatus. frame_steps. Qed.
#[local] Hint Resolve framed_queryPrecachingStatus : framed.

Lemma framed_SetupStateroot env ibu file : framed (SetupStateroot env ibu file).
Proof. unfold SetupStateroot. frame_steps. Qed.
#[local] Hint Resolve framed_SetupStateroot : framed.

Lemma framed_verifyLoop env interval n : framed (verifyLoop env n interval).
Proof. induction n as [|n IH]; cbn [verifyLoop]; frame_steps. Qed.
#[local] Hint Resolve framed_verifyLoop : framed.

Lemma framed_verifyPrecachingCompleteFunc env retries interval :
  framed (verifyPrecachingCompleteFunc env retries interval).
Proof. unfold verifyPrecachingCompleteFunc. frame_steps. Qed.
#[local] Hint Resolve framed_verifyPrecachingCompleteFunc : framed.

Lemma framed_pollLoop ctx interval (condition : M World (bool * option error)) fuel :
  framed condition → ∀ tick, framed (wait.pollLoop fuel tick ctx interval condition).
Proof.
  intros Hc. induction fuel as [|fuel IH]; intros tick; cbn [wait.pollLoop]; frame_steps.
Qed.

Lemma framed_PollUntilContextCancel fuel ctx interval immediate
    (condition : M World (bool * option error)) :
  framed condition →
  framed (wait.PollUntilContextCancel fuel ctx interval immediate condition).
Proof.
  intros Hc. pose proof (framed_pollLoop ctx interval condition fuel Hc 0).
  unfold wait.PollUntilContextCancel. frame_steps.
Qed.

Lemma framed_checkSpecVersion env ibu : framed (checkSpecVersion env ibu).
Proof. unfold checkSpecVersion. frame_steps. Qed.
#[local] Hint Resolve framed_checkSpecVersion : framed.

Lemma framed_pullSeedImage env ibu : framed (pullSeedImage env ibu).
Proof. unfold pullSeedImage. frame_steps. Qed.
#[local] Hint Resolve framed_pullSeedImage : framed.

Lemma framed_setupStateroot env ibu : framed (setupStateroot env ibu).
Proof. unfold setupStateroot. frame_steps. Qed.
#[local] Hint Resolve framed_setupStateroot : framed.

Lemma framed_launchPrecachingJob env : framed (launchPrecachingJob env).
Proof. unfold launchPrecachingJob. frame_steps. Qed.
#[local] Hint Resolve framed_launchPrecachingJob : framed.

Lemma framed_waitForPrecaching env fuel : framed (waitForPrecaching env fuel).
Proof.
  unfold waitForPrecaching.
  apply framed_bind; [frame_steps|intros _].
  apply framed_bind; [|intros r; frame_steps].
  apply framed_PollUntilContextCancel. frame_steps.
Qed.
#[local] Hint Resolve framed_waitForPrecaching : framed.

Lemma framed_finalReport env : framed (finalReport env).
Proof. unfold finalReport. frame_steps. Qed.
#[local] Hint Resolve framed_finalReport : framed.

Lemma framed_pipeline env fuel ibu : framed (pipeline env fuel ibu).
Proof. unfold pipeline. frame_steps. Qed.

Lemma framed_prepStageWorker env fuel ibu : framed (prepStageWorker env fuel ibu).
Proof.
  pose proof (framed_pipeline env fuel ibu).
  unfold prepStageWorker.
  apply framed_bind; [frame_steps|intros c].
  apply framed_bind; [intros w; by repeat split|intros _].
  frame_steps.
Qed.

(** The worker, as long as it has not returned, is one of the steps the
    dispatcher is proved against. *)
Lemma prepStageWorker_interference env fuel ibu w :
  interference w (prepStageWorker env fuel ibu w).2.
Proof.
  destruct (framed_prepStageWorker env fuel ibu w) as (?&?&?&?&?&?&?&?).
  by repeat split.
Qed.

(** The goroutine closes the completion signal of its run once when the
    worker returns, and not before. *)
Lemma prepGoroutine_closes env fuel ibu w ch :
  done (PrepTask w) = Some ch →
  ch ∉ closed w →
  match (prepGoroutine env fuel ibu w).1 with
  | wait.Returned err =>
      closed (prepGoroutine env fuel ibu w).2 = closed w ++ [ch]
      ∧ panicked (prepGoroutine env fuel ibu w).2 = panicked w
      ∧ Success (PrepTask (prepGoroutine env fuel ibu w).2)
        = bool_decide (err = None)
      ∧ (prepStageWorker env fuel ibu w).1 = wait.Returned err
  | wait.StillWaiting =>
      closed (prepGoroutine env fuel ibu w).2 = closed w
      ∧ panicked (prepGoroutine env fuel ibu w).2 = panicked w
  end.
Proof.
  intros Hdone Hopen.
  destruct (framed_prepStageWorker env fuel ibu w) as (_&_&Hd&Hc&Hp&_&_&_).
  unfold prepGoroutine, bind.
  destruct (prepStageWorker env fuel ibu w) as [[|err] w1]; simpl in *.
  - done.
  - unfold gets. rewrite Hd, Hdone. unfold close.
    rewrite bool_decide_false by (by rewrite Hc).
    destruct err; simpl; by rewrite Hc, Hp.
Qed.

End Frame.

(** ** Cancellation *)

Section Cancellation.

Context `{!common.Consts, !utils.Consts, !json.Decoder}.
Context `{!semver.Lib SemVer}.
Implicit Types (env : Env) (w : World) (ibu : SeedImageRef).

Lemma prepStageWorker_run env fuel ibu w :
  prepStageWorker env fuel ibu w
  = match pipeline env fuel ibu (derived w) with
    | (wait.StillWaiting, w1) => (wait.StillWaiting, w1)
    | (wait.Returned (Some err), w1) =>
        (wait.Returned (Some (fmt.Errorf_w
           "encountered error while running prep-stage worker goroutine: " err)),
         withCanceled (λ l, l ++ [nextId w])
           (withTask (progressed ("Prep failed with error: " +:+ Error err)) w1))
    | (wait.Returned None, w1) =>
        (wait.Returned None, withCanceled (λ l, l ++ [nextId w]) w1)
    end.
Proof.
  unfold prepStageWorker, bind, fresh, modify, derived. simpl.
  by destruct (pipeline env fuel ibu _) as [[|[err|]] w1].
Qed.

Lemma prepGoroutine_result env fuel ibu w :
  (prepGoroutine env fuel ibu w).1 = (prepStageWorker env fuel ibu w).1.
Proof.
  unfold prepGoroutine, bind.
  destruct (prepStageWorker env fuel ibu w) as [[|err] w1]; [done|].
  unfold gets. destruct (close (done (PrepTask w1)) w1) as [[] w2].
  by destruct err.
Qed.

Lemma pullSeedImage_canceled env ibu w :
  ctxDone env BeforePull = true →
  pullSeedImage env ibu w = (Some (canceledBefore "pulling seed image"), w).
Proof. unfold pullSeedImage. by intros ->. Qed.

Lemma setupStateroot_canceled env ibu w :
  ctxDone env BeforeStateroot = true →
  setupStateroot env ibu w = (Some (canceledBefore "setting up stateroot"), w).
Proof. unfold setupStateroot. by intros ->. Qed.

Lemma launchPrecachingJob_canceled env w :
  ctxDone env BeforePrecaching = true →
  launchPrecachingJob env w = (Some (canceledBefore "creating precaching job"), w).
Proof. unfold launchPrecachingJob. by intros ->. Qed.

Lemma waitForPrecaching_canceled env fuel w :
  ctxDone env (PollTick 0) = true →
  0 < fuel →
  waitForPrecaching env fuel w
  = (wait.Returned (Some (fmt.Errorf_w "failed to precache images: " Canceled)),
     withTask (progressed "Waiting for precaching job to complete") w).
Proof.
  intros Hctx Hfuel. destruct fuel as [|fuel]; [lia|].
  unfold waitForPrecaching, wait.PollUntilContextCancel, bind, setProgress, modify.
  cbn [wait.pollLoop]. by rewrite Hctx.
Qed.

(** A block that went through did not find its context canceled. *)
Lemma pullSeedImage_through env ibu w :
  (pullSeedImage env ibu w).1 = None → ctxDone env BeforePull = false.
Proof. unfold pullSeedImage. by destruct (ctxDone env BeforePull). Qed.

Lemma setupStateroot_through env ibu w :
  (setupStateroot env ibu w).1 = None → ctxDone env BeforeStateroot = false.
Proof. unfold setupStateroot. by destruct (ctxDone env BeforeStateroot). Qed.

Lemma launchPrecachingJob_through env w :
  (launchPrecachingJob env w).1 = None → ctxDone env BeforePrecaching = false.
Proof. unfold launchPrecachingJob. by destruct (ctxDone env BeforePrecaching). Qed.

(** The function of the worker, block by block. *)
Lemma pipeline_run env fuel ibu w :
  pipeline env fuel ibu w
  = match checkSpecVersion env ibu w with
    | (Some err, w1) => (wait.Returned (Some err), w1)
    | (None, w1) =>
    match pullSeedImage env ibu w1 with
    | (Some err, w2) => (wait.Returned (Some err), w2)
    | (None, w2) =>
    match setupStateroot env ibu w2 with
    | (Some err, w3) => (wait.Returned (Some err), w3)
    | (None, w3) =>
    match launchPrecachingJob env w3 with
    | (Some err, w4) => (wait.Returned (Some err), w4)
    | (None, w4) =>
    match waitForPrecaching env fuel w4 with
    | (wait.Returned None, w5) => (wait.Returned None, (finalReport env w5).2)
    | r => r
    end end end end end.
Proof.
  unfold pipeline, bind.
  destruct (checkSpecVersion env ibu w) as [[?|] w1]; [done|].
  destruct (pullSeedImage env ibu w1) as [[?|] w2]; [done|].
  destruct (setupStateroot env ibu w2) as [[?|] w3]; [done|].
  destruct (launchPrecachingJob env w3) as [[?|] w4]; [done|].
  destruct (waitForPrecaching env fuel w4) as [[|[?|]] w5]; try done.
  by destruct (finalReport env w5).
Qed.

(** With the context found canceled at one of its checkpoints, the
    function of the worker ends in an error. *)
Lemma pipeline_canceled_fails env fuel ibu w :
  ctxDone env BeforePull = true ∨ ctxDone env BeforeStateroot = true
  ∨ ctxDone env BeforePrecaching = true ∨ ctxDone env (PollTick 0) = true →
  0 < fuel →
  ∃ err, (pipeline env fuel ibu w).1 = wait.Returned (Some err).
Proof.
  intros Hctx Hfuel. rewrite pipeline_run.
  destruct (checkSpecVersion env ibu w) as [[?|] w1]; [by eexists|].
  pose proof (pullSeedImage_through env ibu w1) as Hp.
  destruct (pullSeedImage env ibu w1) as [[?|] w2]; [by eexists|].
  pose proof (setupStateroot_through env ibu w2) as Hs.
  destruct (setupStateroot env ibu w2) as [[?|] w3]; [by eexists|].
  pose proof (launchPrecachingJob_through env w3) as Hl.
  destruct (launchPrecachingJob env w3) as [[?|] w4]; [by eexists|].
  simpl in *. specialize (Hp eq_refl). specialize (Hs eq_refl).
  specialize (Hl eq_refl).
  destruct Hctx as [?|[?|[?|Hpoll]]]; try congruence.
  rewrite (waitForPrecaching_canceled env fuel w4 Hpoll Hfuel). by eexists.
Qed.

(** C2, as the code has it.  The version gate runs without a look at the
    context, and the label check is part of the image acquisition.  Before
    the image acquisition, before the setup of the deployment and before
    the launch of the precaching job the worker looks at its derived
    context, and when it finds it canceled there it returns the
    cancellation error that names that step, the world being as the steps
    before left it: neither that step nor a later one has run.  A context
    found canceled at the first round of the wait for the job ends the
    wait before any status query, with the error of the context under the
    name of the precaching step.  In each of these cases the goroutine
    returns an error, and whenever it returns it has closed the completion
    signal of its run once, without a panic. *)
Theorem prepStageWorker_cancellation env fuel ibu w :
  let v := checkSpecVersion env ibu w in
  let p := pullSeedImage env ibu v.2 in
  let s := setupStateroot env ibu p.2 in
  let l := launchPrecachingJob env s.2 in
  (v.1 = None → ctxDone env BeforePull = true →
     p = (Some (canceledBefore "pulling seed image"), v.2)
     ∧ pipeline env fuel ibu w
       = (wait.Returned (Some (canceledBefore "pulling seed image")), v.2))
  ∧ (v.1 = None → p.1 = None → ctxDone env BeforeStateroot = true →
     s = (Some (canceledBefore "setting up stateroot"), p.2)
     ∧ pipeline env fuel ibu w
       = (wait.Returned (Some (canceledBefore "setting up stateroot")), p.2))
  ∧ (v.1 = None → p.1 = None → s.1 = None →
     ctxDone env BeforePrecaching = true →
     l = (Some (canceledBefore "creating precaching job"), s.2)
     ∧ pipeline env fuel ibu w
       = (wait.Returned (Some (canceledBefore "creating precaching job")), s.2))
  ∧ (v.1 = None → p.1 = None → s.1 = None → l.1 = None →
     ctxDone env (PollTick 0) = true → 0 < fuel →
     pipeline env fuel ibu w
     = (wait.Returned (Some (fmt.Errorf_w "failed to precache images: " Canceled)),
        withTask (progressed "Waiting for precaching job to complete") l.2))
  ∧ (ctxDone env BeforePull = true ∨ ctxDone env BeforeStateroot = true
     ∨ ctxDone env BeforePrecaching = true ∨ ctxDone env (PollTick 0) = true →
     0 < fuel →
     ∃ err, (prepGoroutine env fuel ibu w).1 = wait.Returned (Some err))
  ∧ (∀ ch, done (PrepTask w) = Some ch → ch ∉ closed w →
     match (prepGoroutine env fuel ibu w).1 with
     | wait.Returned _ =>
         closed (prepGoroutine env fuel ibu w).2 = closed w ++ [ch]
         ∧ panicked (prepGoroutine env fuel ibu w).2 = panicked w
     | wait.StillWaiting =>
         closed (prepGoroutine env fuel ibu w).2 = closed w
     end).
Proof.
  intros v p s l. subst l s p v. rewrite pipeline_run.
  destruct (checkSpecVersion env ibu w) as [v1 w1]; simpl.
  split; [|split; [|split; [|split; [|split]]]].
  - intros -> Hctx. by rewrite (pullSeedImage_canceled env ibu w1 Hctx).
  - intros ->. destruct (pullSeedImage env ibu w1) as [p1 w2]; simpl.
    intros -> Hctx. by rewrite (setupStateroot_canceled env ibu w2 Hctx).
  - intros ->. destruct (pullSeedImage env ibu w1) as [p1 w2]; simpl.
    intros ->. destruct (setupStateroot env ibu w2) as [s1 w3]; simpl.
    intros -> Hctx. by rewrite (launchPrecachingJob_canceled env w3 Hctx).
  - intros ->. destruct (pullSeedImage env ibu w1) as [p1 w2]; simpl.
    intros ->. destruct (setupStateroot env ibu w2) as [s1 w3]; simpl.
    intros ->. destruct (launchPrecachingJob env w3) as [l1 w4]; simpl.
    intros -> Hctx Hfuel.
    by rewrite (waitForPrecaching_canceled env fuel w4 Hctx Hfuel).
  - intros Hctx Hfuel.
    rewrite prepGoroutine_result, prepStageWorker_run.
    destruct (pipeline_canceled_fails env fuel ibu (derived w) Hctx Hfuel)
      as [err Herr].
    destruct (pipeline env fuel ibu (derived w)) as [r w5]. simpl in Herr.
    subst r. by eexists.
  - intros ch Hdone Hopen.
    pose proof (prepGoroutine_closes env fuel ibu w ch Hdone Hopen) as Hc.
    destruct (prepGoroutine env fuel ibu w).1; [tauto|].
    destruct Hc as (? & ? & _). done.
Qed.

End Cancellation.

(** * Runs on concrete inputs *)

Module Examples.

Import testing.

Example retry_until_success :
  common.RetryOnConflictOrRetriable threeSteps flaky {| retry.op := 0; retry.slept := [] |}
  = (None, {| retry.op := 3; retry.slept := [10%Z; 20%Z] |}).
Proof. reflexivity. Qed.

Example retry_stops_on_fatal :
  common.RetryOnConflictOrRetriable threeSteps
    (λ n, (Some (StatusError StatusReasonNotFound 404 "not found"), S n))
    {| retry.op := 0; retry.slept := [] |}
  = (Some (StatusError StatusReasonNotFound 404 "not found"),
     {| retry.op := 1; retry.slept := [] |}).
Proof. reflexivity. Qed.

Example retry_wrapped_refusal :
  common.isConflictOrRetriable
    (fmt.Errorf_w "failed to get configMap " (Errno ECONNREFUSED)) = true.
Proof. reflexivity. Qed.

Example RemoveDuplicates_run :
  common.RemoveDuplicates [3; 1; 3; 2; 1] = [3; 1; 2].
Proof. reflexivity. Qed.

Example older_seed_rejected :
  (prepGoroutine happy 4 (ibu "4.12.1") running).1
  = wait.Returned (Some (fmt.Errorf_w
      "encountered error while running prep-stage worker goroutine: "
      (fmt.Errorf_w "failed to validate seed image OCP version in spec: "
         (errorString
            "seed OCP version (4.12.1) must be higher than current OCP version (4.13.0)"))))
  ∧ trace (prepGoroutine happy 4 (ibu "4.12.1") running).2
    = [EvGo; EvGetClusterVersion].
Proof. split; reflexivity. Qed.

(** A full run: inactive, active, inactive again, and completed. *)
Example full_run :
  Active (PrepTask idle) = false
  ∧ Active (PrepTask running) = true
  ∧ (handlePrep hostReady running).1 = (requeueWithShortInterval, None)
  ∧ (prepGoroutine happy 4 (ibu "4.14.0") running).1 = wait.Returned None
  ∧ Success (PrepTask (prepGoroutine happy 4 (ibu "4.14.0") running).2) = true
  ∧ (handlePrep hostReady (prepGoroutine happy 4 (ibu "4.14.0") running).2).1
    = (doNotRequeue, None)
  ∧ prepStatus (handlePrep hostReady (prepGoroutine happy 4 (ibu "4.14.0") running).2).2
    = utils.Completed "Prep completed successfully"
  ∧ Active (PrepTask (handlePrep hostReady
                        (prepGoroutine happy 4 (ibu "4.14.0") running).2).2) = false.
Proof. repeat split; reflexivity. Qed.

Lemma handlePrep_starts_at_most_one_worker_witness :
  Active (PrepTask idle) = false
  ∧ allocated idle
  ∧ rtc step idle (handlePrep hostReady (handlePrep hostReady waiting).2).2
  ∧ started (handlePrep hostReady (handlePrep hostReady waiting).2).2
    ≤ S (started idle).
Proof.
  assert (allocated idle) as Halloc.
  { intros c Hc. by apply elem_of_nil in Hc. }
  assert (rtc step idle (handlePrep hostReady (handlePrep hostReady waiting).2).2)
    as Hrun.
  { eapply rtc_l; [apply (step_reconcile hostReady idle)|].
    eapply rtc_l.
    { apply (step_worker _ _
               (prepStageWorker_interference happy 0 (ibu "4.14.0") running)). }
    eapply rtc_l; [apply (step_reconcile hostReady waiting)|].
    eapply rtc_l; [apply (step_reconcile hostReady)|].
    apply rtc_refl. }
  split; [reflexivity|]. split; [exact Halloc|]. split; [exact Hrun|].
  exact (proj1 handlePrep_starts_at_most_one_worker idle _ eq_refl Halloc Hrun).
Defined.

(** C2 as the specification states it fails at the first step: with the
    context canceled before anything has run, the version gate still reads
    the cluster version.  With an older seed the worker returns the error
    of the gate, which is no cancellation error; with a newer seed the
    cancellation error it returns names the image pull, the second step. *)
Lemma version_gate_runs_after_cancellation :
  (∀ cp, ctxDone (canceledFromStart "4.13.0") cp = true)
  ∧ trace (prepGoroutine (canceledFromStart "4.13.0") 4 (ibu "4.12.1") running).2
    = [EvGo; EvGetClusterVersion]
  ∧ (∃ err,
       (prepGoroutine (canceledFromStart "4.13.0") 4 (ibu "4.12.1") running).1
       = wait.Returned (Some err)
       ∧ errors.Is err Canceled = false
       ∧ Error err
         = "encountered error while running prep-stage worker goroutine: failed to validate seed image OCP version in spec: seed OCP version (4.12.1) must be higher than current OCP version (4.13.0)")
  ∧ trace (prepGoroutine (canceledFromStart "4.13.0") 4 (ibu "4.14.0") running).2
    = [EvGo; EvGetClusterVersion]
  ∧ (prepGoroutine (canceledFromStart "4.13.0") 4 (ibu "4.14.0") running).1
    = wait.Returned (Some (fmt.Errorf_w
        "encountered error while running prep-stage worker goroutine: "
        (canceledBefore "pulling seed image"))).
Proof.
  split; [done|]. split; [reflexivity|]. split.
  - eexists. split; [reflexivity|]. split; reflexivity.
  - split; reflexivity.
Qed.

Lemma prepStageWorker_cancellation_witness :
  (checkSpecVersion (canceledAt BeforeStateroot) (ibu "4.14.0") running).1 = None
  ∧ ctxDone (canceledAt BeforeStateroot) BeforeStateroot = true
  ∧ (pipeline (canceledAt BeforeStateroot) 4 (ibu "4.14.0") running).1
    = wait.Returned (Some (canceledBefore "setting up stateroot"))
  ∧ (EvSetupStateroot "quay.io/seed:latest" "4.14.0" "/var/ibu/image-list-file"
     ∉ trace (pipeline (canceledAt BeforeStateroot) 4 (ibu "4.14.0") running).2)
  ∧ closed (prepGoroutine (canceledAt BeforeStateroot) 4 (ibu "4.14.0") running).2
    = [0].
Proof.
  pose proof (prepStageWorker_cancellation
                (canceledAt BeforeStateroot) 4 (ibu "4.14.0") running) as Hc.
  cbv zeta in Hc. destruct Hc as (_ & Hs & _ & _ & _ & Hclose).
  destruct (Hs eq_refl eq_refl eq_refl) as [_ Hp].
  split; [reflexivity|]. split; [reflexivity|]. split; [by rewrite Hp|].
  split.
  - rewrite Hp. vm_compute. intros Hin.
    repeat (apply elem_of_cons in Hin as [Hin|Hin]; [discriminate|]).
    by apply elem_of_nil in Hin.
  - assert (0 ∉ closed running) as Hopen.
    { intros Hin. by apply elem_of_nil in Hin. }
    specialize (Hclose 0 eq_refl Hopen).
    assert ((prepGoroutine (canceledAt BeforeStateroot) 4 (ibu "4.14.0") running).1
            = wait.Returned (Some (fmt.Errorf_w
                "encountered error while running prep-stage worker goroutine: "
                (canceledBefore "setting up stateroot")))) as Hr by reflexivity.
    rewrite Hr in Hclose. exact (proj1 Hclose).
Defined.

Lemma validateSeedOcpVersion_forward_only_witness :
  getClusterVersion happy = inr "4.13.0"
  ∧ (validateSeedOcpVersion happy "4.12.1" running).1
    = Some (errorString
        "seed OCP version (4.12.1) must be higher than current OCP version (4.13.0)")
  ∧ (validateSeedOcpVersion happy "4.13.0" running).1 ≠ None
  ∧ (validateSeedOcpVersion happy "4.14.0" running).1 = None
  ∧ trace (pipeline happy 4 (ibu "4.12.1") running).2 = [EvGo; EvGetClusterVersion].
Proof.
  split; [reflexivity|].
  destruct (validateSeedOcpVersion_forward_only happy "4.12.1" "4.13.0" running eq_refl)
    as (_ & Hrej & Hstop).
  destruct (validateSeedOcpVersion_forward_only happy "4.13.0" "4.13.0" running eq_refl)
    as (Heq & _ & _).
  destruct (validateSeedOcpVersion_forward_only happy "4.14.0" "4.13.0" running eq_refl)
    as (Hnew & _ & _).
  split.
  { apply (Hrej (4, 12, 1)%Z (4, 13, 0)%Z); [reflexivity|reflexivity|by vm_compute]. }
  split.
  { intros Hnone. apply Heq in Hnone as (sv & tv & [= <-] & [= <-] & Hlt).
    by vm_compute in Hlt. }
  split.
  { apply Hnew. exists (4, 14, 0)%Z, (4, 13, 0)%Z.
    split; [reflexivity|]. split; [reflexivity|]. by vm_compute. }
  rewrite (Hstop 4 (ibu "4.12.1") _ eq_refl
             (Hrej (4, 12, 1)%Z (4, 13, 0)%Z eq_refl eq_refl ltac:(by vm_compute))).
  reflexivity.
Defined.

Lemma handlePrep_active_witness :
  preconditionsMet hostReady
  ∧ Active (PrepTask finished) = true
  ∧ fired (done (PrepTask finished)) finished = true
  ∧ handlePrep hostReady finished
    = ((doNotRequeue, None),
       (Reset (withPrepStatus (utils.Completed "Prep completed successfully")
                 finished)).2)
  ∧ Active (PrepTask waiting) = true
  ∧ fired (done (PrepTask waiting)) waiting = false
  ∧ handlePrep hostReady waiting
    = ((requeueWithShortInterval, None),
       withPrepStatus
         (utils.InProgress "Waiting for precaching job to complete") waiting).
Proof.
  assert (preconditionsMet hostReady) as Hmet by (split; reflexivity).
  destruct (handlePrep_active hostReady finished Hmet eq_refl) as [Hfired _].
  destruct (handlePrep_active hostReady waiting Hmet eq_refl) as [_ Hopen].
  split; [exact Hmet|]. split; [reflexivity|]. split; [reflexivity|].
  split; [exact (proj1 (Hfired eq_refl))|].
  split; [reflexivity|]. split; [reflexivity|].
  exact (proj1 (Hopen eq_refl)).
Defined.

Lemma verifyPrecachingCompleteFunc_failed_at_once_witness :
  (1 ≤ 5)%Z
  ∧ queryJobStatus failedJob (queries running) = status precache.Failed "pull error"
  ∧ verifyPrecachingCompleteFunc failedJob 5 (30 * time.Second) running
    = ((false, Some precache.ErrFailed),
       withLogs (λ l, l ++ ["Querying pre-caching job for completion..."])
         (queried running)).
Proof.
  split; [lia|]. split; [reflexivity|].
  destruct (verifyPrecachingCompleteFunc_failed_at_once failedJob 5
              (30 * time.Second) running
              {| precache.Status_ := precache.Failed;
                 precache.Message := "pull error" |}
              ltac:(lia) eq_refl eq_refl) as (Hres & _).
  destruct (verifyPrecachingCompleteFunc failedJob 5 (30 * time.Second) running)
    as [res w1] eqn:Hrun.
  simpl in Hres. subst res. f_equal.
  apply (f_equal snd) in Hrun. simpl in Hrun. rewrite <-Hrun. reflexivity.
Defined.

Lemma verifyPrecachingCompleteFunc_budget_exhausted_witness :
  (∀ i, i < Z.to_nat 3 →
        unsettled (queryJobStatus fixtures.stuck (queries running + i)))
  ∧ (verifyPrecachingCompleteFunc fixtures.stuck 3 (30 * time.Second) running).1
    = (false, Some (errorString
         "failed more than 3 times to fetch precaching job status"))
  ∧ trace (verifyPrecachingCompleteFunc fixtures.stuck 3 (30 * time.Second) running).2
    = [EvGo; EvQueryJobStatus; EvSleep 30000000000;
       EvQueryJobStatus; EvSleep 30000000000;
       EvQueryJobStatus; EvSleep 30000000000].
Proof.
  assert (∀ i, i < Z.to_nat 3 →
               unsettled (queryJobStatus fixtures.stuck (queries running + i)))
    as Hall.
  { intros [|[|[|i]]] _; split; simpl; try reflexivity;
      intros st Hst; try discriminate Hst;
      injection Hst as <-; try split; discriminate. }
  split; [exact Hall|].
  destruct (verifyPrecachingCompleteFunc_budget_exhausted fixtures.stuck 3
              (30 * time.Second) running) as (Hiff & Hrun & _).
  split; [exact (proj1 Hiff Hall)|exact (proj1 (Hrun Hall))].
Defined.

(** A query error that comes with a status does not leave the attempt
    open: with a budget of three and a runtime whose every answer is a query
    error, not the failure of the job, beside the status of a job that has
    succeeded, the poller returns "done" after the first query, without a
    sleep, and not the error of a spent budget. *)
Lemma query_errors_with_status_return_done :
  (∀ i, i < Z.to_nat 3 →
     ∃ st e,
       queryJobStatus fixtures.doneWithError (queries running + i) = (Some st, Some e)
       ∧ errors.Is e precache.ErrFailed = false)
  ∧ (verifyPrecachingCompleteFunc fixtures.doneWithError 3 (30 * time.Second)
       running).1
    = (true, None)
  ∧ trace (verifyPrecachingCompleteFunc fixtures.doneWithError 3
             (30 * time.Second) running).2
    = [EvGo; EvQueryJobStatus]
  ∧ queries (verifyPrecachingCompleteFunc fixtures.doneWithError 3
               (30 * time.Second) running).2
    = 1.
Proof.
  split.
  - intros [|[|[|i]]] Hi; [by eexists _, _..|].
    exfalso. revert Hi. vm_compute. lia.
  - split; [reflexivity|]. split; reflexivity.
Qed.

Lemma poller_active_active_succeeded_witness :
  (1 ≤ 5)%Z
  ∧ queryJobStatus happy (queries running) = status precache.Active "1/2"
  ∧ queryJobStatus happy (S (queries running)) = status precache.Active ""
  ∧ queryJobStatus happy (S (S (queries running))) = status precache.Succeeded "2/2"
  ∧ (wait.PollUntilContextCancel 3 (λ _, false) (30 * time.Second) false
       (verifyPrecachingCompleteFunc happy 5 (30 * time.Second)) running).1
    = wait.Returned None
  ∧ queries (wait.PollUntilContextCancel 3 (λ _, false) (30 * time.Second) false
               (verifyPrecachingCompleteFunc happy 5 (30 * time.Second)) running).2
    = 3
  ∧ Progress (PrepTask
      (wait.PollUntilContextCancel 3 (λ _, false) (30 * time.Second) false
         (verifyPrecachingCompleteFunc happy 5 (30 * time.Second)) running).2)
    = "Precaching progress: 2/2".
Proof.
  split; [lia|]. do 3 (split; [reflexivity|]).
  pose proof (poller_active_active_succeeded happy 5 (30 * time.Second) 3
                (λ _, false) running
                {| precache.Status_ := precache.Active; precache.Message := "1/2" |}
                {| precache.Status_ := precache.Active; precache.Message := "" |}
                {| precache.Status_ := precache.Succeeded; precache.Message := "2/2" |}
                ltac:(lia) ltac:(lia) (λ _ _, eq_refl)
                eq_refl eq_refl eq_refl eq_refl eq_refl eq_refl) as Hrun.
  cbv zeta in Hrun. destruct Hrun as (Hres & Hq & _ & Ht & _).
  split; [exact Hres|]. split; [exact Hq|]. rewrite Ht. reflexivity.
Defined.

(** An image built for another format version stops the run before the
    deployment is touched. *)
Example old_format_rejected :
  (prepGoroutine (env (λ _, false) "4.13.0" ("one-v2", None) []) 4
     (ibu "4.14.0") running).1
  = wait.Returned (Some (fmt.Errorf_w
      "encountered error while running prep-stage worker goroutine: "
      (fmt.Errorf_w "failed to pull seed image: "
         (fmt.Errorf_w "checking seed image compatibility: "
            (errorString "seed image format version mismatch: expected 3, got 2")))))
  ∧ trace (prepGoroutine (env (λ _, false) "4.13.0" ("one-v2", None) []) 4
             (ibu "4.14.0") running).2
    = [EvGo; EvGetClusterVersion; EvGetSecretData "seed-pull";
       EvWriteFile "/var/ibu/seed-pull-secret";
       EvExecute "podman" ["pull"; "--authfile"; "/var/ibu/seed-pull-secret";
                           "quay.io/seed:latest"];
       EvExecute "podman" ["inspect"; "--format"; "json"; "quay.io/seed:latest"];
       EvRemove "/var/ibu/seed-pull-secret"].
Proof. split; reflexivity. Qed.

Example two_images_rejected :
  (checkSeedImageCompatibility (env (λ _, false) "4.13.0" ("two-v3", None) [])
     "quay.io/seed:latest" running).1
  = Some (errorString "expected 1 image inspect result, got 2").
Proof. reflexivity. Qed.

End Examples.


(** * Further properties *)

(** ** Duplicate removal, continued *)

Section RemoveDuplicatesMore.

Context `{Countable T}.
Implicit Types (l k : list T).

Lemma firstOccurrences_sublist l : common.firstOccurrences l `sublist_of` l.
Proof.
  induction l as [|x l IH]; simpl; [done|].
  constructor. etrans; [apply sublist_filter|done].
Qed.

Lemma firstOccurrences_app l k :
  common.firstOccurrences (l ++ k)
  = common.firstOccurrences l ++ filter (λ y, y ∉ l) (common.firstOccurrences k).
Proof.
  induction l as [|x l IH]; simpl.
  - symmetry. apply filter_keeps_all. intros y _. apply not_elem_of_nil.
  - f_equal. rewrite IH, filter_app. f_equal.
    rewrite list_filter_filter. apply list_filter_iff.
    intros y. simpl. rewrite elem_of_cons. tauto.
Qed.

(** X1.  [RemoveDuplicates] never lengthens a list and returns a
    subsequence of it; it returns the list itself exactly when the list has
    no duplicates, which is also exactly when the length is kept. *)
Theorem RemoveDuplicates_fixed_points l :
  common.RemoveDuplicates l `sublist_of` l
  ∧ length (common.RemoveDuplicates l) ≤ length l
  ∧ (common.RemoveDuplicates l = l ↔ NoDup l)
  ∧ (length (common.RemoveDuplicates l) = length l ↔ NoDup l).
Proof.
  rewrite RemoveDuplicates_firstOccurrences.
  pose proof (firstOccurrences_sublist l) as Hsub.
  assert (common.firstOccurrences l = l ↔ NoDup l) as Hfix.
  { split; [|apply firstOccurrences_id].
    intros <-. apply firstOccurrences_NoDup. }
  split; [done|]. split; [by apply sublist_length|]. split; [done|].
  rewrite <-Hfix. split; [|by intros ->].
  intros Hlen. clear Hfix. induction Hsub as [|x l1 l2 Hsub IH|x l1 l2 Hsub IH].
  - done.
  - f_equal. apply IH. simpl in Hlen. lia.
  - apply sublist_length in Hsub. simpl in Hlen. lia.
Qed.

(** X2.  Removing the duplicates of two lists put end to end: the distinct
    elements of the first, then those of the second that the first does not
    hold. *)
Theorem RemoveDuplicates_app l k :
  common.RemoveDuplicates (l ++ k)
  = common.RemoveDuplicates l ++ filter (λ y, y ∉ l) (common.RemoveDuplicates k).
Proof. rewrite !RemoveDuplicates_firstOccurrences. apply firstOccurrences_app. Qed.

End RemoveDuplicatesMore.

(** ** Stateroot names *)

Section StaterootName.

Implicit Types (s v : string).

Lemma ReplaceAll_dash_cons c s :
  gostrings.ReplaceAll (String c s) "-" "_"
  = String (if decide (c = stateroot.dash) then Ascii.ascii_of_nat 95 else c)
           (gostrings.ReplaceAll s "-" "_").
Proof.
  unfold gostrings.ReplaceAll. cbn [gostrings.replaceFrom gostrings.HasPrefix].
  destruct s; simpl;
    (destruct (decide (c = stateroot.dash)) as [->|Hne];
     [done|rewrite bool_decide_false by (intros Heq; by apply Hne); done]).
Qed.

Lemma ReplaceAll_dash_bytes s :
  stateroot.bytes (gostrings.ReplaceAll s "-" "_")
  = (λ c, if decide (c = stateroot.dash) then Ascii.ascii_of_nat 95 else c)
    <$> stateroot.bytes s.
Proof.
  induction s as [|c s IH]; [done|].
  rewrite ReplaceAll_dash_cons. simpl. by rewrite IH.
Qed.

Lemma ReplaceAll_dash_free s :
  stateroot.dash ∉ stateroot.bytes s → gostrings.ReplaceAll s "-" "_" = s.
Proof.
  induction s as [|c s IH]; [done|]. simpl. intros Hfree.
  rewrite ReplaceAll_dash_cons, IH.
  - rewrite decide_False; [done|]. intros ->. apply Hfree. left.
  - intros Hin. apply Hfree. by right.
Qed.

Lemma ReplaceAll_dash_gone s :
  stateroot.dash ∉ stateroot.bytes (gostrings.ReplaceAll s "-" "_").
Proof.
  rewrite ReplaceAll_dash_bytes. intros Hin.
  apply list_elem_of_fmap in Hin as (c & Heq & _).
  destruct (decide (c = stateroot.dash)); [discriminate|congruence].
Qed.

Lemma ReplaceAll_dash_length s :
  String.length (gostrings.ReplaceAll s "-" "_") = String.length s.
Proof.
  induction s as [|c s IH]; [done|].
  rewrite ReplaceAll_dash_cons. simpl. by rewrite IH.
Qed.

Lemma bytes_app s v : stateroot.bytes (s +:+ v) = stateroot.bytes s ++ stateroot.bytes v.
Proof. induction s as [|c s IH]; [done|]. simpl. by rewrite IH. Qed.

Lemma bytes_length s : length (stateroot.bytes s) = String.length s.
Proof. induction s as [|c s IH]; [done|]. simpl. by rewrite IH. Qed.

(** X3.  The stateroot name of a seed image version is [rhcos_] followed by
    the version with every dash turned into an underscore: it is six bytes
    longer than the version, holds no dash, is [rhcos_] and the version
    itself when the version has no dash, and is the same for a version and
    for that version with its dashes already replaced. *)
Theorem GetStaterootName_no_dash v :
  stateroot.bytes (stateroot.GetStaterootName v)
  = stateroot.bytes "rhcos_"
    ++ ((λ c, if decide (c = stateroot.dash) then Ascii.ascii_of_nat 95 else c)
        <$> stateroot.bytes v)
  ∧ String.length (stateroot.GetStaterootName v) = 6 + String.length v
  ∧ (stateroot.dash ∉ stateroot.bytes (stateroot.GetStaterootName v))
  ∧ (stateroot.dash ∉ stateroot.bytes v →
     stateroot.GetStaterootName v = "rhcos_" +:+ v)
  ∧ stateroot.GetStaterootName (gostrings.ReplaceAll v "-" "_")
    = stateroot.GetStaterootName v.
Proof.
  unfold stateroot.GetStaterootName.
  split; [by rewrite bytes_app, ReplaceAll_dash_bytes|].
  split.
  { rewrite <-!bytes_length, bytes_app, length_app, !bytes_length.
    by rewrite ReplaceAll_dash_length. }
  split.
  { rewrite bytes_app, elem_of_app. intros [Hin|Hin].
    - simpl in Hin.
      repeat (apply elem_of_cons in Hin as [Hin|Hin]; [discriminate|]).
      by apply elem_of_nil in Hin.
    - by apply ReplaceAll_dash_gone in Hin. }
  split; [by intros ->%ReplaceAll_dash_free|].
  by rewrite (ReplaceAll_dash_free _ (ReplaceAll_dash_gone v)).
Qed.

End StaterootName.

(** ** Errors that are wrapped *)

Section Wrapped.

Lemma errors_Is_wrapped prefix e target :
  errors.Is e target = true → errors.Is (fmt.Errorf_w prefix e) target = true.
Proof. intros He. unfold fmt.Errorf_w. simpl. rewrite He. apply orb_true_r. Qed.

Lemma isConflictOrRetriable_wrapped prefix e :
  common.isConflictOrRetriable (fmt.Errorf_w prefix e)
  = common.isConflictOrRetriable e.
Proof. done. Qed.

(** X4.  When a read of [GetConfigMaps] fails, the error it returns wraps the
    error of the client: its text is that of the client behind "failed to
    get configMap ", every error found on the chain of the client's error is
    found on its chain, and the retry policy retries it exactly when it
    retries the error of the client. *)
Theorem GetConfigMaps_error_transparent
    (c : common.Cluster) (configMaps reads : list common.ConfigMapRef) err :
  (common.GetConfigMaps c configMaps reads).1 = inl err →
  ∃ history ref e,
    c history ref = inl e
    ∧ ref ∈ configMaps
    ∧ errors.Unwrap err = Some e
    ∧ Error err = "failed to get configMap " +:+ Error e
    ∧ (∀ target, errors.Is e target = true → errors.Is err target = true)
    ∧ common.isConflictOrRetriable err = common.isConflictOrRetriable e.
Proof.
  rewrite GetConfigMaps_unique. intros Hres.
  destruct (fetchAll_run c (common.firstOccurrences configMaps) [] reads)
    as (fetched & _ & Hpre & Hcase).
  rewrite Hres in Hcase. destruct Hcase as (before & ref & e & -> & He & ->).
  exists (reads ++ before), ref, e. split; [done|]. split.
  { apply firstOccurrences_elem_of. destruct Hpre as [k ->].
    rewrite !elem_of_app, list_elem_of_singleton. auto. }
  repeat split. intros target. apply errors_Is_wrapped.
Qed.

End Wrapped.

(** ** The environment handed to the precaching job *)

Section PodEnv.

Implicit Types (env : Env) (w : World).

Lemma managerEnvVars_first before c after :
  Forall (λ b, containerName b ≠ "manager") before →
  containerName c = "manager" →
  managerEnvVars (before ++ c :: after)
  = filter (λ v, ValueFrom v = None) (containerEnv c).
Proof.
  intros Hbefore Hc. induction Hbefore as [|b before Hb _ IH]; simpl.
  - by rewrite bool_decide_true.
  - by rewrite bool_decide_false.
Qed.

Lemma managerEnvVars_none containers :
  Forall (λ c, containerName c ≠ "manager") containers →
  managerEnvVars containers = [].
Proof.
  induction 1 as [|c containers Hc _ IH]; simpl; [done|].
  by rewrite bool_decide_false.
Qed.

Lemma managerEnvVars_direct containers :
  Forall (λ v, ValueFrom v = None) (managerEnvVars containers).
Proof.
  induction containers as [|c containers IH]; simpl; [constructor|].
  case_bool_decide; [|done].
  apply Forall_forall. by intros v [? _]%list_elem_of_filter.
Qed.

(** X5.  The variables [getPodEnvVars] returns are those of the first
    container named "manager" that have a value of their own, in their
    order: none of them is sourced from elsewhere, the containers after that
    one do not count, and a pod without such a container gives no variable
    and no error. *)
Theorem getPodEnvVars_manager env w vars :
  (getPodEnvVars env w).1 = inr vars →
  ∃ pod,
    getPod env = inr pod
    ∧ Forall (λ v, ValueFrom v = None) vars
    ∧ (Forall (λ c, containerName c ≠ "manager") (Containers pod) → vars = [])
    ∧ (∀ before c after,
         Containers pod = before ++ c :: after →
         Forall (λ b, containerName b ≠ "manager") before →
         containerName c = "manager" →
         vars = filter (λ v, ValueFrom v = None) (containerEnv c)).
Proof.
  unfold getPodEnvVars, bind, emit, modify, ret. simpl.
  destruct (getPod env) as [e|pod]; [done|]. simpl. intros [= <-].
  exists pod. split; [done|]. split; [apply managerEnvVars_direct|].
  split; [apply managerEnvVars_none|].
  intros before c after ->. apply managerEnvVars_first.
Qed.

End PodEnv.

(** ** The image acquisition *)

Section Acquisition.

Context `{!common.Consts, !utils.Consts, !json.Decoder}.
Implicit Types (env : Env) (w : World) (ibu : SeedImageRef).

Lemma pullAndCheck_trace env file ibu w :
  trace (pullAndCheck env file ibu w).2 = trace w ++ pullEvents env file ibu.
Proof.
  unfold pullAndCheck, pullEvents, bind, logInfo, emit, modify, ret. simpl.
  destruct (podmanPull env) as [e|]; [done|].
  pose proof (checkSeedImageCompatibility_world env (Image ibu)
                (withLogs (λ l, l ++ ["Checking seed image compatibility"])
                   (withTrace (λ t, t ++ [podmanPullEvent file ibu])
                      (withLogs (λ l, l ++ ["Pulling seed image"]) w)))) as Hw.
  destruct (checkSeedImageCompatibility env (Image ibu) _) as [[err|] w1];
    simpl in *; subst w1; simpl; by rewrite <-app_assoc.
Qed.

Lemma pullAndCheck_ok env file ibu w :
  (pullAndCheck env file ibu w).1 = None ↔ podmanPull env = None ∧ compatible env.
Proof.
  unfold pullAndCheck, bind, logInfo, emit, modify, ret. simpl.
  destruct (podmanPull env) as [e|]; [by split; [|intros [? _]]|].
  match goal with |- context [checkSeedImageCompatibility env ?i ?w0] =>
    pose proof (checkSeedImageCompatibility_ok env i w0) as Hok;
    destruct (checkSeedImageCompatibility env i w0) as [[err|] w1] end;
    simpl in *.
  - split; [done|]. intros [_ Hc]. by apply Hok in Hc.
  - split; [|done]. intros _. split; [done|]. by apply Hok.
Qed.

(** The events of a pull hold no access to the secret file. *)
Lemma pullEvents_no_file env authfile ibu e :
  e ∈ pullEvents env authfile ibu →
  e = podmanPullEvent authfile ibu
  ∨ (e = podmanInspectEvent ibu ∧ podmanPull env = None).
Proof.
  unfold pullEvents. destruct (podmanPull env); intros Hin;
    repeat (apply elem_of_cons in Hin as [->|Hin]; [by auto|]);
    by apply elem_of_nil in Hin.
Qed.

(** What [getSeedImage] adds to the trace. *)
Lemma getSeedImage_trace env ibu w :
  trace (getSeedImage env ibu w).2
  = trace w ++
    match PullSecretRef ibu with
    | None => pullEvents env common.ImageRegistryAuthFile ibu
    | Some name =>
        match getSecretData env, writeFile env with
        | inl _, _ => [EvGetSecretData name]
        | inr _, Some _ => [EvGetSecretData name; EvWriteFile secretFile]
        | inr _, None =>
            [EvGetSecretData name; EvWriteFile secretFile]
            ++ pullEvents env secretFile ibu ++ [EvRemove secretFile]
        end
    end.
Proof.
  unfold getSeedImage.
  destruct (PullSecretRef ibu) as [name|]; [|apply pullAndCheck_trace].
  unfold bind, emit, modify, ret. simpl.
  destruct (getSecretData env) as [e|pullSecret]; [done|].
  destruct (writeFile env) as [e|]; [simpl; by rewrite <-app_assoc|].
  match goal with |- context [pullAndCheck env ?f ibu ?w0] =>
    pose proof (pullAndCheck_trace env f ibu w0) as Htr;
    destruct (pullAndCheck env f ibu w0) as [r w1] end.
  simpl in *. rewrite Htr, <-!app_assoc. done.
Qed.

(** X6.  The pull secret of [getSeedImage] is scoped.  The secret is read
    and its file written only when the resource names a pull secret, and
    either stops the function when it fails.  Podman is given that file, or
    else the pull secret of the cluster.  The file that was written is
    removed as the last thing the function does, whatever the pull and the
    label check have done, and nothing is removed that was not written. *)
Theorem getSeedImage_scoped_secret env ibu w :
  ∃ evs,
    trace (getSeedImage env ibu w).2 = trace w ++ evs
    ∧ match PullSecretRef ibu with
      | None => evs = pullEvents env common.ImageRegistryAuthFile ibu
      | Some name =>
          match getSecretData env, writeFile env with
          | inl _, _ => evs = [EvGetSecretData name]
          | inr _, Some _ => evs = [EvGetSecretData name; EvWriteFile secretFile]
          | inr _, None =>
              evs = [EvGetSecretData name; EvWriteFile secretFile]
                    ++ pullEvents env secretFile ibu ++ [EvRemove secretFile]
          end
      end
    ∧ (∀ f, EvRemove f ∈ evs →
         f = secretFile ∧ EvWriteFile f ∈ evs ∧ writeFile env = None
         ∧ last evs = Some (EvRemove f))
    ∧ (∀ f, EvWriteFile f ∈ evs → writeFile env = None → EvRemove f ∈ evs).
Proof.
  eexists. split; [apply getSeedImage_trace|].
  destruct (PullSecretRef ibu) as [name|].
  - destruct (getSecretData env) as [e|pullSecret]; [|destruct (writeFile env) as [e|]].
    + split; [done|]. split; intros f Hin;
        apply list_elem_of_singleton in Hin; discriminate.
    + split; [done|]. split; [|done]. intros f Hin.
      repeat (apply elem_of_cons in Hin as [Hin|Hin]; [discriminate|]).
      by apply elem_of_nil in Hin.
    + split; [done|].
      assert (∀ f, EvRemove f ∈ pullEvents env secretFile ibu → False) as Hno.
      { intros f [?|[? _]]%pullEvents_no_file; discriminate. }
      split.
      * intros f Hin.
        assert (f = secretFile) as ->.
        { apply elem_of_app in Hin as [Hin|Hin].
          - repeat (apply elem_of_cons in Hin as [Hin|Hin]; [discriminate|]).
            by apply elem_of_nil in Hin.
          - apply elem_of_app in Hin as [Hin|Hin]; [by apply Hno in Hin|].
            apply list_elem_of_singleton in Hin. by injection Hin. }
        split; [done|]. split; [apply elem_of_app; left; right; left|].
        split; [done|]. by rewrite !app_assoc, last_snoc.
      * intros f Hin _.
        assert (f = secretFile) as ->;
          [|rewrite !elem_of_app, list_elem_of_singleton; auto].
        apply elem_of_app in Hin as [Hin|Hin].
        -- apply elem_of_cons in Hin as [Hin|Hin]; [discriminate|].
           apply list_elem_of_singleton in Hin. by injection Hin.
        -- apply elem_of_app in Hin as [Hin|Hin].
           ++ apply pullEvents_no_file in Hin as [?|[? _]]; discriminate.
           ++ apply list_elem_of_singleton in Hin. discriminate.
  - split; [done|]. split; intros f [?|[? _]]%pullEvents_no_file; discriminate.
Qed.

Lemma getSeedImage_none env ibu w :
  (getSeedImage env ibu w).1 = None ↔ acquired env ibu.
Proof.
  unfold getSeedImage, acquired.
  destruct (PullSecretRef ibu) as [name|].
  - unfold bind, emit, modify, ret. simpl.
    destruct (getSecretData env) as [e|pullSecret].
    { split; [done|]. by intros [[?|[[? ?] _]] _]. }
    destruct (writeFile env) as [e|].
    { split; [done|]. by intros [[?|[_ ?]] _]. }
    match goal with |- context [pullAndCheck env ?f ibu ?w0] =>
      pose proof (pullAndCheck_ok env f ibu w0) as Hok;
      destruct (pullAndCheck env f ibu w0) as [r w1] end.
    simpl in *. rewrite Hok. split; [|tauto].
    intros ?. split; [right; eauto|done].
  - rewrite pullAndCheck_ok. split; [|tauto]. intros ?. split; [by left|done].
Qed.

(** X7.  [getSeedImage] succeeds exactly when the pull secret, if one is
    named, could be read and written, the pull went through and the image
    carries the expected format label; the image is inspected only after a
    pull that went through. *)
Theorem getSeedImage_ok env ibu w :
  ((getSeedImage env ibu w).1 = None ↔
     (PullSecretRef ibu = None
      ∨ ((∃ pullSecret, getSecretData env = inr pullSecret) ∧ writeFile env = None))
     ∧ podmanPull env = None
     ∧ compatible env)
  ∧ (podmanInspectEvent ibu
       ∈ drop (length (trace w)) (trace (getSeedImage env ibu w).2) →
     podmanPull env = None).
Proof.
  split.
  - apply getSeedImage_none.
  - rewrite getSeedImage_trace, drop_app_length. intros Hin.
    destruct (podmanPull env) as [e|] eqn:Hpull; [exfalso|done].
    assert (∀ f, podmanInspectEvent ibu ∈ pullEvents env f ibu → False) as Hno.
    { intros f [?|[_ ?]]%pullEvents_no_file; [discriminate|congruence]. }
    destruct (PullSecretRef ibu) as [name|]; [|by apply Hno in Hin].
    destruct (getSecretData env) as [?|?]; [|destruct (writeFile env) as [?|]].
    + apply list_elem_of_singleton in Hin. discriminate.
    + repeat (apply elem_of_cons in Hin as [Hin|Hin]; [discriminate|]).
      by apply elem_of_nil in Hin.
    + apply elem_of_app in Hin as [Hin|Hin].
      * repeat (apply elem_of_cons in Hin as [Hin|Hin]; [discriminate|]).
        by apply elem_of_nil in Hin.
      * apply elem_of_app in Hin as [Hin|Hin]; [by apply Hno in Hin|].
        apply list_elem_of_singleton in Hin. discriminate.
Qed.

End Acquisition.

(** ** The deployment setup and the launch of the job *)

Section SetupAndLaunch.

Context `{!utils.Consts}.
Implicit Types (env : Env) (w : World) (ibu : SeedImageRef).

Lemma callsMade_prefix calls : callsMade calls `prefix_of` calls.*1.
Proof.
  induction calls as [|[e [err|]] calls IH]; simpl.
  - done.
  - apply prefix_cons, prefix_nil.
  - by apply prefix_cons.
Qed.

Lemma SetupStateroot_run env ibu file w :
  (SetupStateroot env ibu file w).1
  = match firstFailure (staterootCalls env ibu file) with
    | Some err => Some (fmt.Errorf_w (staterootFailure env) err)
    | None => None
    end
  ∧ trace (SetupStateroot env ibu file w).2
    = trace w ++ callsMade (staterootCalls env ibu file).
Proof.
  unfold SetupStateroot, staterootCalls, staterootFailure, bind, emit, modify, ret.
  simpl.
  destruct (prepSetupStateroot env); [done|].
  destruct (rpmOstreeCleanup env); [simpl; by rewrite <-app_assoc|].
  destruct (writeIBUAutoRollbackConfigFile env); [simpl; by rewrite <-!app_assoc|].
  destruct (backupKubeconfigCrypto env); simpl; by rewrite <-!app_assoc.
Qed.

(** X8.  [SetupStateroot] makes its four calls in the order stateroot setup,
    rpm-ostree cleanup, auto-rollback configuration, backup of the
    certificates, and stops at the first that fails: the calls made are those
    up to and with the failing one, all four exactly when the first three
    went through.  It succeeds exactly when all four do, and the error it
    returns wraps the error of the call that failed. *)
Theorem SetupStateroot_fail_fast env ibu file w :
  trace (SetupStateroot env ibu file w).2
  = trace w ++ callsMade (staterootCalls env ibu file)
  ∧ callsMade (staterootCalls env ibu file)
    `prefix_of` [EvSetupStateroot (Image ibu) (Version ibu) file;
                 EvRpmOstreeCleanup; EvWriteIBUAutoRollbackConfigFile;
                 EvBackupKubeconfigCrypto]
  ∧ ((SetupStateroot env ibu file w).1 = None ↔
       prepSetupStateroot env = None ∧ rpmOstreeCleanup env = None
       ∧ writeIBUAutoRollbackConfigFile env = None
       ∧ backupKubeconfigCrypto env = None)
  ∧ (EvBackupKubeconfigCrypto ∈ callsMade (staterootCalls env ibu file) ↔
       prepSetupStateroot env = None ∧ rpmOstreeCleanup env = None
       ∧ writeIBUAutoRollbackConfigFile env = None)
  ∧ (∀ err, (SetupStateroot env ibu file w).1 = Some err →
       ∃ e, errors.Unwrap err = Some e
            ∧ firstFailure (staterootCalls env ibu file) = Some e).
Proof.
  destruct (SetupStateroot_run env ibu file w) as [Hres Htr].
  split; [done|]. split; [apply (callsMade_prefix (staterootCalls env ibu file))|].
  rewrite Hres. unfold staterootCalls. simpl.
  destruct (prepSetupStateroot env) as [e1|];
    [|destruct (rpmOstreeCleanup env) as [e2|];
      [|destruct (writeIBUAutoRollbackConfigFile env) as [e3|];
        [|destruct (backupKubeconfigCrypto env) as [e4|]]]];
    simpl.
  all: split; [naive_solver|].
  all: split; [rewrite ?elem_of_cons, ?elem_of_nil; naive_solver|].
  all: try done.
  all: intros err [= <-]; by eexists.
Qed.

(** All the reads of [launchPrecaching] go through. *)
Lemma launchCalls_ok env file :
  firstFailure (launchCalls env file) = None ↔
  errOf (getReleaseRegistry env) = None
  ∧ errOf (readSeedClusterInfoFromFile env) = None
  ∧ errOf (shouldOverrideSeedRegistry env) = None
  ∧ errOf (readPrecachingList env) = None
  ∧ errOf (getPod env) = None.
Proof.
  unfold launchCalls. simpl.
  destruct (getReleaseRegistry env), (readSeedClusterInfoFromFile env),
    (shouldOverrideSeedRegistry env), (readPrecachingList env), (getPod env);
    simpl;
    (split; [intros ?; try discriminate; by repeat split
            |intros (?&?&?&?&?); try discriminate; done]).
Qed.

Lemma errors_Is_refl e : errors.Is e e = true.
Proof. destruct e; cbn [errors.Is]; by rewrite bool_decide_true. Qed.

Lemma errors_Is_wrap prefix e : errors.Is (fmt.Errorf_w prefix e) e = true.
Proof. apply errors_Is_wrapped, errors_Is_refl. Qed.

Lemma launchPrecaching_run env file w :
  match firstFailure (launchCalls env file) with
  | Some e =>
      (launchPrecaching env file w).1.1 = false
      ∧ (∃ err, (launchPrecaching env file w).1.2 = Some err
                ∧ errors.Is err e = true)
      ∧ trace (launchPrecaching env file w).2
        = trace w ++ callsMade (launchCalls env file)
  | None =>
      ∃ imageList pod,
        readPrecachingList env = inr imageList
        ∧ getPod env = inr pod
        ∧ trace (launchPrecaching env file w).2
          = trace w ++ (launchCalls env file).*1
                    ++ [EvCreateJob imageList (managerEnvVars (Containers pod))]
        ∧ match createJob env with
          | Some e =>
              (launchPrecaching env file w).1.1 = false
              ∧ ∃ err, (launchPrecaching env file w).1.2 = Some err
                       ∧ errors.Is err e = true
          | None => (launchPrecaching env file w).1 = (true, None)
          end
  end.
Proof.
  unfold launchPrecaching, launchCalls, getPodEnvVars, bind, emit, modify, ret.
  destruct (getReleaseRegistry env); simpl;
    [by eauto using errors_Is_wrap|].
  destruct (readSeedClusterInfoFromFile env); simpl;
    [rewrite <-?app_assoc; by eauto using errors_Is_wrap|].
  destruct (shouldOverrideSeedRegistry env); simpl;
    [rewrite <-?app_assoc; by eauto using errors_Is_wrap|].
  destruct (readPrecachingList env) as [|imageList]; simpl;
    [rewrite <-?app_assoc; by eauto using errors_Is_wrap|].
  destruct (getPod env) as [|pod]; simpl.
  { rewrite <-?app_assoc. split; [done|]. split; [|done].
    eexists. split; [done|]. apply errors_Is_wrapped, errors_Is_wrap. }
  exists imageList, pod. split; [done|]. split; [done|].
  destruct (createJob env); simpl; rewrite <-?app_assoc;
    by eauto using errors_Is_wrap.
Qed.

(** X9.  [launchPrecaching] never gives an indefinite answer: it returns
    true exactly when it returns no error, which is exactly when its five
    reads and the creation of the job all went through.  The job is created
    at most once, only after all five reads, with the image list read and
    the variables of the manager container.  So the worker never returns
    the error it keeps for a launch that is refused without an error. *)
Theorem launchPrecaching_definite env file w :
  ((launchPrecaching env file w).1.1 = true ↔ (launchPrecaching env file w).1.2 = None)
  ∧ ((launchPrecaching env file w).1.2 = None ↔
       errOf (getReleaseRegistry env) = None
       ∧ errOf (readSeedClusterInfoFromFile env) = None
       ∧ errOf (shouldOverrideSeedRegistry env) = None
       ∧ errOf (readPrecachingList env) = None
       ∧ errOf (getPod env) = None
       ∧ createJob env = None)
  ∧ (∀ imageList envVars,
       EvCreateJob imageList envVars
         ∈ drop (length (trace w)) (trace (launchPrecaching env file w).2) ↔
       errOf (getReleaseRegistry env) = None
       ∧ errOf (readSeedClusterInfoFromFile env) = None
       ∧ errOf (shouldOverrideSeedRegistry env) = None
       ∧ readPrecachingList env = inr imageList
       ∧ ∃ pod, getPod env = inr pod
                ∧ envVars = managerEnvVars (Containers pod))
  ∧ (launchPrecachingJob env w).1
    ≠ Some (fmt.Errorf "failed to create precaching job").
Proof.
  pose proof (launchPrecaching_run env file w) as Hrun.
  pose proof (launchCalls_ok env file) as Hok.
  split; [|split; [|split]].
  - destruct (firstFailure (launchCalls env file)).
    + destruct Hrun as (-> & (err & -> & _) & _). done.
    + destruct Hrun as (? & ? & _ & _ & _ & Hres).
      destruct (createJob env); [destruct Hres as (-> & err & -> & _)|rewrite Hres];
        done.
  - destruct (firstFailure (launchCalls env file)).
    + destruct Hrun as (_ & (err & -> & _) & _). split; [done|].
      intros (?&?&?&?&?&_). exfalso.
      assert (Some e = None) as Hnone by (by apply Hok). discriminate.
    + destruct Hrun as (? & ? & _ & _ & _ & Hres).
      apply proj1 in Hok. specialize (Hok eq_refl).
      destruct Hok as (?&?&?&?&?).
      destruct (createJob env); [destruct Hres as (_ & err & -> & _)|rewrite Hres].
      * split; [done|]. by intros (_&_&_&_&_&?).
      * done.
  - intros imageList envVars.
    destruct (firstFailure (launchCalls env file)) eqn:Hfail.
    + destruct Hrun as (_ & _ & ->). rewrite drop_app_length. split.
      * intros Hin.
        pose proof (elem_of_prefix _ _ _ Hin
                      (callsMade_prefix (launchCalls env file))) as Hin'.
        simpl in Hin'.
        repeat (apply elem_of_cons in Hin' as [Hin'|Hin']; [discriminate|]).
        by apply elem_of_nil in Hin'.
      * intros (H1 & H2 & H3 & H4 & pod & H5 & _).
        assert (Some e = None) as Hnone.
        { apply Hok. rewrite H1, H2, H3, H4, H5. done. }
        discriminate.
    + destruct Hrun as (imageList' & pod' & Hlist & Hpod & -> & _).
      rewrite drop_app_length. apply proj1 in Hok. specialize (Hok eq_refl).
      destruct Hok as (H1 & H2 & H3 & _ & _).
      rewrite elem_of_app, list_elem_of_singleton. split.
      * intros [Hin|[= -> ->]]; [|by eauto 10].
        simpl in Hin.
        repeat (apply elem_of_cons in Hin as [Hin|Hin]; [discriminate|]).
        by apply elem_of_nil in Hin.
      * intros (_ & _ & _ & Hl & pod & Hp & ->). right. congruence.
  - clear Hrun Hok.
    unfold launchPrecachingJob. destruct (ctxDone env BeforePrecaching); [done|].
    unfold bind, setProgress, modify.
    match goal with |- context [launchPrecaching env ?f ?w0] =>
      pose proof (launchPrecaching_run env f w0) as Hrun';
      destruct (launchPrecaching env f w0) as [[ok lerr] w1] end.
    cbn [fst snd] in *.
    destruct (firstFailure (launchCalls env imageListFile)).
    + destruct Hrun' as (_ & (err & -> & _) & _). done.
    + destruct Hrun' as (? & ? & _ & _ & _ & Hres).
      destruct (createJob env);
        [destruct Hres as (_ & err & -> & _)|injection Hres as -> ->]; done.
Qed.

End SetupAndLaunch.

(** ** The poller, whatever the job runtime answers *)

Section PollerSound.

Implicit Types (env : Env) (w : World) (st : precache.Status).

(** One round of the loop: it returns on an answer that settles the matter,
    and sleeps and goes on otherwise. *)
Lemma verifyLoop_round env n interval w :
  (∃ res w1,
     verifyLoop env (S n) interval w = (Some res, w1)
     ∧ settles (queryJobStatus env (queries w)) res
     ∧ queries w1 = S (queries w)
     ∧ trace w1 = trace w ++ [EvQueryJobStatus])
  ∨ (∃ w1,
       verifyLoop env (S n) interval w = verifyLoop env n interval w1
       ∧ queries w1 = S (queries w)
       ∧ trace w1 = trace w ++ [EvQueryJobStatus; EvSleep interval]).
Proof.
  pose proof (queryPrecachingStatus_frame env w) as (Htr & Hq & _).
  pose proof (queryPrecachingStatus_result env w) as Hres.
  cbn [verifyLoop].
  destruct (queryPrecachingStatus env w) as [a w0] eqn:Hrun.
  rewrite (bind_run _ _ _ _ _ Hrun). simpl in *. subst a.
  assert (∀ w0', trace w0' = trace w0 ++ [EvSleep interval] →
                 trace w0' = trace w ++ [EvQueryJobStatus; EvSleep interval])
    as Hslept.
  { intros w0' ->. by rewrite Htr, <-app_assoc. }
  destruct (queryJobStatus env (queries w)) as [[st|] [e|]] eqn:Hans.
  - destruct (errors.Is e precache.ErrFailed) eqn:Hfail.
    + left. eexists _, _. split; [done|]. simpl. eauto 10.
    + unfold bind, setProgress, modify, ret.
      destruct (bool_decide (precache.Message st ≠ "")); simpl;
        (case_bool_decide as Hs; [left; eexists _, _; split; [done|]; simpl; by eauto 10|]);
        (case_bool_decide as Ha; [left; eexists _, _; split; [done|]; simpl; by eauto 10|]);
        right; eexists; (split; [done|]); split; [done| |done|];
        by apply Hslept.
  - case_bool_decide as Hf; simpl.
    + left. eexists _, _. split; [done|]. simpl. split; [|done].
      split; [done|]. left. by eauto.
    + unfold bind, setProgress, modify, ret.
      destruct (bool_decide (precache.Message st ≠ "")); simpl;
        (case_bool_decide as Hs; [left; eexists _, _; split; [done|]; simpl; by eauto 10|]);
        (case_bool_decide as Ha; [left; eexists _, _; split; [done|]; simpl; by eauto 10|]);
        right; eexists; (split; [done|]); split; [done| |done|];
        by apply Hslept.
  - destruct (errors.Is e precache.ErrFailed) eqn:Hfail.
    + left. eexists _, _. split; [done|]. simpl. eauto 10.
    + right. eexists. split; [done|]. split; [done|]. by apply Hslept.
  - right. eexists. split; [done|]. split; [done|]. by apply Hslept.
Qed.

Lemma verifyLoop_sound env interval n : ∀ w,
  queries (verifyLoop env n interval w).2 ≤ queries w + n
  ∧ match (verifyLoop env n interval w).1 with
    | Some res =>
        queries w < queries (verifyLoop env n interval w).2
        ∧ settles (queryJobStatus env (pred (queries (verifyLoop env n interval w).2)))
                  res
    | None => queries (verifyLoop env n interval w).2 = queries w + n
    end.
Proof.
  induction n as [|n IH]; intros w.
  - simpl. lia.
  - destruct (verifyLoop_round env n interval w)
      as [(res & w1 & -> & Hset & Hq & _)|(w1 & -> & Hq & _)].
    + simpl. rewrite Hq. simpl. split; [lia|]. split; [lia|done].
    + destruct (IH w1) as [Hle Hres]. rewrite Hq in Hle, Hres.
      split; [lia|].
      destruct (verifyLoop env n interval w1).1; [|lia].
      destruct Hres. split; [lia|done].
Qed.

(** An invocation ends on an answer that settles its result, or with its
    budget spent. *)
Lemma verifyPrecachingCompleteFunc_outcome env retries interval w :
  (queries w < queries (verifyPrecachingCompleteFunc env retries interval w).2
   ∧ queries (verifyPrecachingCompleteFunc env retries interval w).2
     ≤ queries w + Z.to_nat retries
   ∧ settles (queryJobStatus env
                (pred (queries (verifyPrecachingCompleteFunc env retries interval w).2)))
             (verifyPrecachingCompleteFunc env retries interval w).1)
  ∨ ((verifyPrecachingCompleteFunc env retries interval w).1
     = (false, Some (budgetSpent retries))
     ∧ queries (verifyPrecachingCompleteFunc env retries interval w).2
       = queries w + Z.to_nat retries).
Proof.
  rewrite verifyPrecachingCompleteFunc_run.
  set (w0 := withLogs _ w).
  destruct (verifyLoop_sound env interval (Z.to_nat retries) w0) as [Hle Hres].
  change (queries w0) with (queries w) in *.
  destruct (verifyLoop env (Z.to_nat retries) interval w0) as [[res|] w1];
    simpl in *.
  - left. destruct Hres. done.
  - by right.
Qed.

(** X10.  Whatever the job runtime answers, one invocation of the poller
    makes at most [retries] queries.  It returns "done" only when its last
    query has shown a job that has succeeded, and then without error; "not
    yet" without error only when its last query has shown a job in progress;
    and an error only when its last query has shown the failure of the job,
    or else when all [retries] queries are spent, the error then saying
    so. *)
Theorem verifyPrecachingCompleteFunc_sound env retries interval w :
  let run := verifyPrecachingCompleteFunc env retries interval w in
  let last := queryJobStatus env (pred (queries run.2)) in
  queries run.2 ≤ queries w + Z.to_nat retries
  ∧ (∀ err, run.1 = (true, err) →
       err = None ∧ queries w < queries run.2
       ∧ ∃ st oe, last = (Some st, oe) ∧ precache.Status_ st = precache.Succeeded)
  ∧ (run.1 = (false, None) →
       queries w < queries run.2
       ∧ ∃ st oe, last = (Some st, oe) ∧ precache.Status_ st = precache.Active)
  ∧ (∀ err, run.1 = (false, Some err) →
       (queries w < queries run.2 ∧ settles last (false, Some err))
       ∨ (queries run.2 = queries w + Z.to_nat retries
          ∧ err = budgetSpent retries)).
Proof.
  intros run last. subst run last. rewrite verifyPrecachingCompleteFunc_run.
  set (w0 := withLogs _ w).
  destruct (verifyLoop_sound env interval (Z.to_nat retries) w0) as [Hle Hres].
  change (queries w0) with (queries w) in *.
  destruct (verifyLoop env (Z.to_nat retries) interval w0) as [[res|] w1];
    simpl in *.
  - destruct Hres as [Hlt Hset]. split; [done|].
    split; [|split].
    + intros err ->. simpl in Hset. destruct err; [done|]. by eauto.
    + intros ->. by eauto.
    + intros err ->. left. by eauto.
  - split; [done|]. split; [done|]. split; [done|].
    intros err [= <-]. by right.
Qed.


End PollerSound.

(** ** What the worker leaves alone *)

Create HintDb respects.

Section Footprint.

Context `{!common.Consts, !utils.Consts, !json.Decoder}.
Context `{!semver.Lib SemVer}.
Implicit Types (env : Env) (w : World) (ibu : SeedImageRef).

(** A relation that holds along the four ways in which the function of the
    worker writes to the world. *)
Variable R : World → World → Prop.
Hypothesis R_refl : ∀ w, R w w.
Hypothesis R_trans : ∀ w1 w2 w3, R w1 w2 → R w2 w3 → R w1 w3.
Hypothesis R_emit :
  ∀ e w, workerCall e = true → R w (withTrace (λ t, t ++ [e]) w).
Hypothesis R_log : ∀ msg w, R w (withLogs (λ l, l ++ [msg]) w).
Hypothesis R_progress : ∀ s w, R w (withTask (progressed s) w).
Hypothesis R_queries : ∀ w, R w (withQueries S w).

Lemma respects_ret {A} (a : A) : respects R (ret a).
Proof. intros w. apply R_refl. Qed.

Lemma respects_bind {A B} (m : M World A) (k : A → M World B) :
  respects R m → (∀ a, respects R (k a)) → respects R (bind m k).
Proof.
  intros Hm Hk w. unfold bind. specialize (Hm w).
  destruct (m w) as [a w1]. eapply R_trans; [exact Hm|apply Hk].
Qed.

Lemma respects_emit e : workerCall e = true → respects R (emit e).
Proof. intros He w. by apply R_emit. Qed.

Lemma respects_logInfo msg : respects R (logInfo msg).
Proof. intros w. apply R_log. Qed.

Lemma respects_setProgress s : respects R (setProgress s).
Proof. intros w. apply R_progress. Qed.

Lemma respects_Sleep d : respects R (time.Sleep d).
Proof. by apply respects_emit. Qed.

Lemma respects_gets {A} (f : World → A) : respects R (gets f).
Proof. intros w. apply R_refl. Qed.

Lemma respects_queries : respects R (modify (withQueries S)).
Proof. intros w. apply R_queries. Qed.

(** Take a computation apart down to the calls it makes. *)
Ltac respect_steps :=
  repeat first
    [ progress auto with respects
    | apply respects_ret
    | apply respects_logInfo
    | apply respects_setProgress
    | apply respects_Sleep
    | apply respects_gets
    | apply respects_queries
    | apply respects_emit; reflexivity
    | apply respects_bind; [|intros ?]
    | match goal with
      | |- respects R (match ?x with _ => _ end) => destruct x
      | |- respects R (if ?x then _ else _) => destruct x
      | |- respects R (let '(_, _) := ?x in _) => destruct x
      end ].

Lemma respects_checkSeedImageCompatibility env seedImageRef :
  respects R (checkSeedImageCompatibility env seedImageRef).
Proof. unfold checkSeedImageCompatibility. respect_steps. Qed.
#[local] Hint Resolve respects_checkSeedImageCompatibility : respects.

Lemma respects_pullAndCheck env file ibu : respects R (pullAndCheck env file ibu).
Proof. unfold pullAndCheck. respect_steps. Qed.
#[local] Hint Resolve respects_pullAndCheck : respects.

Lemma respects_getSeedImage env ibu : respects R (getSeedImage env ibu).
Proof. unfold getSeedImage. respect_steps. Qed.
#[local] Hint Resolve respects_getSeedImage : respects.

Lemma respects_validateSeedOcpVersion env seed :
  respects R (validateSeedOcpVersion env seed).
Proof. unfold validateSeedOcpVersion. respect_steps. Qed.
#[local] Hint Resolve respects_validateSeedOcpVersion : respects.

Lemma respects_getPodEnvVars env : respects R (getPodEnvVars env).
Proof. unfold getPodEnvVars. respect_steps. Qed.
#[local] Hint Resolve respects_getPodEnvVars : respects.

Lemma respects_launchPrecaching env file : respects R (launchPrecaching env file).
Proof. unfold launchPrecaching. respect_steps. Qed.
#[local] Hint Resolve respects_launchPrecaching : respects.

Lemma respects_QueryJobStatus env : respects R (QueryJobStatus env).
Proof. unfold QueryJobStatus. respect_steps. Qed.
#[local] Hint Resolve respects_QueryJobStatus : respects.

Lemma respects_queryPrecachingStatus env : respects R (queryPrecachingStatus env).
Proof. unfold queryPrecachingStatus. respect_steps. Qed.
#[local] Hint Resolve respects_queryPrecachingStatus : respects.

Lemma respects_SetupStateroot env ibu file :
  respects R (SetupStateroot env ibu file).
Proof. unfold SetupStateroot. respect_steps. Qed.
#[local] Hint Resolve respects_SetupStateroot : respects.

Lemma respects_verifyLoop env interval n : respects R (verifyLoop env n interval).
Proof. induction n as [|n IH]; cbn [verifyLoop]; respect_steps. Qed.
#[local] Hint Resolve respects_verifyLoop : respects.

Lemma respects_verifyPrecachingCompleteFunc env retries interval :
  respects R (verifyPrecachingCompleteFunc env retries interval).
Proof. unfold verifyPrecachingCompleteFunc. respect_steps. Qed.
#[local] Hint Resolve respects_verifyPrecachingCompleteFunc : respects.

Lemma respects_pollLoop ctx interval (condition : M World (bool * option error)) fuel :
  respects R condition →
  ∀ tick, respects R (wait.pollLoop fuel tick ctx interval condition).
Proof.
  intros Hc. induction fuel as [|fuel IH]; intros tick; cbn [wait.pollLoop];
    respect_steps.
Qed.

Lemma respects_waitForPrecaching env fuel : respects R (waitForPrecaching env fuel).
Proof.
  unfold waitForPrecaching.
  apply respects_bind; [respect_steps|intros _].
  apply respects_bind; [|intros r; respect_steps].
  unfold wait.PollUntilContextCancel. apply respects_pollLoop. respect_steps.
Qed.
#[local] Hint Resolve respects_waitForPrecaching : respects.

Lemma respects_finalReport env : respects R (finalReport env).
Proof. unfold finalReport. respect_steps. Qed.
#[local] Hint Resolve respects_finalReport : respects.

Lemma respects_pipeline env fuel ibu : respects R (pipeline env fuel ibu).
Proof.
  unfold pipeline, checkSpecVersion, pullSeedImage, setupStateroot,
    launchPrecachingJob.
  respect_steps.
Qed.

End Footprint.

Section WorkerReturns.

Context `{!common.Consts, !utils.Consts, !json.Decoder}.
Context `{!semver.Lib SemVer}.
Implicit Types (env : Env) (w : World) (ibu : SeedImageRef).

Lemma footprint_refl w : footprint w w.
Proof.
  unfold footprint. repeat split; try done.
  - by destruct (PrepTask w).
  - exists []. by rewrite app_nil_r.
  - exists []. by rewrite app_nil_r.
Qed.

Lemma footprint_trans w1 w2 w3 : footprint w1 w2 → footprint w2 w3 → footprint w1 w3.
Proof.
  intros (Ht & ? & ? & ? & ? & ? & (evs & Htr & Hevs) & (msgs & Hl) & ?)
         (Ht' & ? & ? & ? & ? & ? & (evs' & Htr' & Hevs') & (msgs' & Hl') & ?).
  unfold footprint. repeat split; try congruence.
  - rewrite Ht', Ht. done.
  - exists (evs ++ evs'). rewrite Htr', Htr, <-app_assoc. split; [done|].
    by apply Forall_app.
  - exists (msgs ++ msgs'). by rewrite Hl', Hl, <-app_assoc.
  - lia.
Qed.

Lemma footprint_pipeline env fuel ibu w : footprint w (pipeline env fuel ibu w).2.
Proof.
  apply respects_pipeline.
  - apply footprint_refl.
  - apply footprint_trans.
  - intros e w0 He. unfold footprint. simpl. repeat split; try done.
    + by destruct (PrepTask w0).
    + exists [e]. split; [done|]. by apply Forall_singleton.
    + exists []. by rewrite app_nil_r.
  - intros msg w0. unfold footprint. simpl. repeat split; try done.
    + by destruct (PrepTask w0).
    + exists []. by rewrite app_nil_r.
    + by exists [msg].
  - intros s0 w0. unfold footprint. simpl. repeat split; try done.
    + exists []. by rewrite app_nil_r.
    + exists []. by rewrite app_nil_r.
  - intros w0. unfold footprint. simpl. repeat split; try done.
    + by destruct (PrepTask w0).
    + exists []. by rewrite app_nil_r.
    + exists []. by rewrite app_nil_r.
    + lia.
Qed.

(** X12.  The function the worker runs writes to the controller only the
    progress of the task, calls in the trace, lines in the log and the
    count of status queries.  It leaves [Active], [Success], [Cancel] and
    [done] as they are, closes no channel, calls no cancel function,
    allocates nothing, sets no prep status of the resource, and neither
    starts a goroutine nor makes a directory. *)
Theorem pipeline_footprint env fuel ibu w :
  let w' := (pipeline env fuel ibu w).2 in
  Active (PrepTask w') = Active (PrepTask w)
  ∧ Success (PrepTask w') = Success (PrepTask w)
  ∧ Cancel (PrepTask w') = Cancel (PrepTask w)
  ∧ done (PrepTask w') = done (PrepTask w)
  ∧ closed w' = closed w
  ∧ canceled w' = canceled w
  ∧ nextId w' = nextId w
  ∧ panicked w' = panicked w
  ∧ prepStatus w' = prepStatus w
  ∧ (∃ evs, trace w' = trace w ++ evs
            ∧ (EvGo ∉ evs) ∧ ∀ path, EvMkdir path ∉ evs)
  ∧ (∃ msgs, logs w' = logs w ++ msgs)
  ∧ queries w ≤ queries w'.
Proof.
  intros w'. subst w'.
  destruct (footprint_pipeline env fuel ibu w)
    as (Ht & ? & ? & ? & ? & ? & (evs & Htr & Hevs) & ? & ?).
  rewrite Ht. simpl. repeat split; try done.
  exists evs. split; [done|]. rewrite Forall_forall in Hevs.
  split; [|intros path]; intros Hin; by apply Hevs in Hin.
Qed.

Lemma finalReport_progress env w :
  Progress (PrepTask (finalReport env w).2) = "Prep completed successfully".
Proof.
  unfold finalReport, bind, setProgress, modify.
  destruct (QueryJobStatus env w) as [[status err] w1].
  destruct err, status; simpl; try done.
  by case_bool_decide.
Qed.

Lemma pipeline_success_progress env fuel ibu w :
  (pipeline env fuel ibu w).1 = wait.Returned None →
  Progress (PrepTask (pipeline env fuel ibu w).2) = "Prep completed successfully".
Proof.
  rewrite pipeline_run.
  destruct (checkSpecVersion env ibu w) as [[?|] w1]; [done|].
  destruct (pullSeedImage env ibu w1) as [[?|] w2]; [done|].
  destruct (setupStateroot env ibu w2) as [[?|] w3]; [done|].
  destruct (launchPrecachingJob env w3) as [[?|] w4]; [done|].
  destruct (waitForPrecaching env fuel w4) as [[|[?|]] w5]; try done.
  intros _. apply finalReport_progress.
Qed.

(** The worker, by what the function it runs has returned. *)
Lemma prepStageWorker_outcome env fuel ibu w :
  Cancel (PrepTask (prepStageWorker env fuel ibu w).2) = Some (nextId w)
  ∧ nextId (prepStageWorker env fuel ibu w).2 = S (nextId w)
  ∧ match (prepStageWorker env fuel ibu w).1 with
    | wait.StillWaiting =>
        canceled (prepStageWorker env fuel ibu w).2 = canceled w
    | wait.Returned None =>
        canceled (prepStageWorker env fuel ibu w).2 = canceled w ++ [nextId w]
        ∧ (pipeline env fuel ibu (derived w)).1 = wait.Returned None
        ∧ Progress (PrepTask (prepStageWorker env fuel ibu w).2)
          = "Prep completed successfully"
    | wait.Returned (Some err) =>
        canceled (prepStageWorker env fuel ibu w).2 = canceled w ++ [nextId w]
        ∧ ∃ e, (pipeline env fuel ibu (derived w)).1 = wait.Returned (Some e)
               ∧ err = fmt.Errorf_w
                   "encountered error while running prep-stage worker goroutine: " e
               ∧ Progress (PrepTask (prepStageWorker env fuel ibu w).2)
                 = "Prep failed with error: " +:+ Error e
    end.
Proof.
  rewrite prepStageWorker_run.
  destruct (footprint_pipeline env fuel ibu (derived w))
    as (Ht & _ & Hc & Hn & _).
  pose proof (pipeline_success_progress env fuel ibu (derived w)) as Hp.
  destruct (pipeline env fuel ibu (derived w)) as [[|[e|]] w1]; simpl in *.
  - rewrite Ht. done.
  - rewrite Ht, Hc, Hn. simpl. repeat split. by exists e.
  - rewrite Ht, Hc, Hn. simpl. repeat split. by apply Hp.
Qed.

(** X13.  Whenever the worker returns it has called the cancel function of
    its derived context once, and that is the function it has stored in
    the task.  On an error of the function it ran, the progress of the task
    is "Prep failed with error: " with the text of that error, and the
    error returned wraps it under the name of the worker goroutine; without
    an error the progress is "Prep completed successfully".  The worker
    neither closes a channel nor writes [Active], [Success] or [done]. *)
Theorem prepStageWorker_returns env fuel ibu w r :
  (prepStageWorker env fuel ibu w).1 = wait.Returned r →
  let w' := (prepStageWorker env fuel ibu w).2 in
  Cancel (PrepTask w') = Some (nextId w)
  ∧ canceled w' = canceled w ++ [nextId w]
  ∧ Active (PrepTask w') = Active (PrepTask w)
  ∧ Success (PrepTask w') = Success (PrepTask w)
  ∧ done (PrepTask w') = done (PrepTask w)
  ∧ closed w' = closed w
  ∧ match r with
    | None => Progress (PrepTask w') = "Prep completed successfully"
    | Some err =>
        ∃ e, (pipeline env fuel ibu (derived w)).1 = wait.Returned (Some e)
             ∧ Progress (PrepTask w') = "Prep failed with error: " +:+ Error e
             ∧ Error err
               = "encountered error while running prep-stage worker goroutine: "
                 +:+ Error e
             ∧ errors.Unwrap err = Some e
    end.
Proof.
  intros Hr w'. subst w'.
  destruct (prepStageWorker_outcome env fuel ibu w) as (Hc & _ & Hout).
  destruct (framed_prepStageWorker env fuel ibu w) as (Ha & Hs & Hd & Hcl & _).
  rewrite Hr in Hout. split; [done|].
  destruct r as [err|].
  - destruct Hout as (Hcan & e & Hp & -> & Hprog).
    repeat split; try done. by exists e.
  - destruct Hout as (Hcan & _ & Hprog). by repeat split.
Qed.

End WorkerReturns.

(** ** The wait for the job *)

Section WaitSound.

Context `{!utils.Consts}.
Implicit Types (env : Env) (w : World).

(** The outer loop over the poller: what each way of leaving it tells. *)
Lemma pollLoop_sound env retries interval ctx fuel : ∀ tick w,
  let run := wait.pollLoop fuel tick ctx interval
               (verifyPrecachingCompleteFunc env retries interval) w in
  queries w ≤ queries run.2
  ∧ queries run.2 ≤ queries w + fuel * Z.to_nat retries
  ∧ match run.1 with
    | wait.StillWaiting => True
    | wait.Returned None =>
        queries w < queries run.2
        ∧ ∃ st oe, queryJobStatus env (pred (queries run.2)) = (Some st, oe)
                   ∧ precache.Status_ st = precache.Succeeded
    | wait.Returned (Some err) =>
        (err = Canceled ∧ ∃ n, ctx n = true)
        ∨ (queries w < queries run.2
           ∧ settles (queryJobStatus env (pred (queries run.2))) (false, Some err))
        ∨ err = budgetSpent retries
    end.
Proof.
  induction fuel as [|fuel IH]; intros tick w; [simpl; lia|].
  destruct (ctx tick) eqn:Hctx.
  { cbn [wait.pollLoop]. rewrite Hctx. simpl. split; [lia|]. split; [lia|].
    left. by eauto. }
  cbv zeta. rewrite (pollLoop_round _ _ _ _ _ _ Hctx).
  set (w0 := withTrace _ w).
  pose proof (verifyPrecachingCompleteFunc_outcome env retries interval w0) as Hout.
  change (queries w0) with (queries w) in Hout.
  destruct (verifyPrecachingCompleteFunc env retries interval w0)
    as [[b oe] w1].
  simpl in Hout.
  destruct b, oe as [err|].
  - by destruct Hout as [(_ & _ & [])|[[=] _]].
  - destruct Hout as [(Hlt & Hle & st & oe & Hans & Hst)|[[=] _]]; cbn [fst snd].
    split; [lia|]. split; [lia|]. split; [done|]. by eauto.
  - destruct Hout as [(Hlt & Hle & Hset)|[[= ->] Hq]]; cbn [fst snd].
    + split; [lia|]. split; [lia|]. right. left. done.
    + split; [lia|]. split; [lia|]. by do 2 right.
  - destruct Hout as [(Hlt & Hle & _)|[[=] _]].
    specialize (IH (S tick) w1). cbv zeta in IH.
    destruct IH as (Hlo & Hhi & Hres).
    split; [lia|]. split; [lia|].
    destruct (wait.pollLoop fuel (S tick) ctx interval _ w1).1 as [|[err|]];
      [done| |].
    + destruct Hres as [?|[[? ?]|?]]; [by left| |by do 2 right].
      right. left. split; [lia|done].
    + destruct Hres as [? ?]. split; [lia|done].
Qed.

Lemma waitForPrecaching_run env fuel w :
  waitForPrecaching env fuel w
  = match wait.pollLoop fuel 0 (λ n, ctxDone env (PollTick n)) pollInterval
            (verifyPrecachingCompleteFunc env pollRetries pollInterval)
            (withTask (progressed "Waiting for precaching job to complete") w) with
    | (wait.StillWaiting, w1) => (wait.StillWaiting, w1)
    | (wait.Returned (Some err), w1) =>
        (wait.Returned (Some (fmt.Errorf_w "failed to precache images: " err)), w1)
    | (wait.Returned None, w1) => (wait.Returned None, w1)
    end.
Proof.
  unfold waitForPrecaching, wait.PollUntilContextCancel, bind, setProgress,
    modify, pollInterval, pollRetries.
  cbv zeta.
  by destruct (wait.pollLoop fuel 0 _ _ _ _) as [[|[err|]] w1].
Qed.

Lemma waitForPrecaching_outcome env fuel w :
  queries w ≤ queries (waitForPrecaching env fuel w).2
  ∧ queries (waitForPrecaching env fuel w).2 ≤ queries w + fuel * 5
  ∧ match (waitForPrecaching env fuel w).1 with
    | wait.StillWaiting => True
    | wait.Returned None =>
        queries w < queries (waitForPrecaching env fuel w).2
        ∧ ∃ st oe,
            queryJobStatus env (pred (queries (waitForPrecaching env fuel w).2))
            = (Some st, oe)
            ∧ precache.Status_ st = precache.Succeeded
    | wait.Returned (Some err) =>
        ∃ e, err = fmt.Errorf_w "failed to precache images: " e
             ∧ ((e = Canceled ∧ ∃ n, ctxDone env (PollTick n) = true)
                ∨ (queries w < queries (waitForPrecaching env fuel w).2
                   ∧ settles (queryJobStatus env
                                (pred (queries (waitForPrecaching env fuel w).2)))
                             (false, Some e))
                ∨ e = budgetSpent 5)
    end.
Proof.
  rewrite waitForPrecaching_run.
  set (w0 := withTask _ w).
  pose proof (pollLoop_sound env pollRetries pollInterval
                (λ n, ctxDone env (PollTick n)) fuel 0 w0) as Hs.
  cbv zeta in Hs. change (queries w0) with (queries w) in Hs.
  change (Z.to_nat pollRetries) with 5 in Hs.
  destruct (wait.pollLoop fuel 0 _ _ _ w0) as [[|[err|]] w1]; simpl in *.
  - done.
  - destruct Hs as (? & ? & Hres). split; [done|]. split; [done|]. by exists err.
  - done.
Qed.

(** X14.  The wait of the worker for the precaching job, under the polling
    helper as modelled, makes at most five status queries a round.  It
    returns without error only when its last query has shown a job that has
    succeeded.  An error it returns is wrapped as a failure to precache
    images and has one of three causes: the context of the worker found
    canceled, a last query that has shown the failure of the job, or five
    queries in one round that have settled nothing. *)
Theorem waitForPrecaching_sound env fuel w :
  let run := waitForPrecaching env fuel w in
  let last := queryJobStatus env (pred (queries run.2)) in
  queries run.2 ≤ queries w + fuel * 5
  ∧ (run.1 = wait.Returned None →
       queries w < queries run.2
       ∧ ∃ st oe, last = (Some st, oe) ∧ precache.Status_ st = precache.Succeeded)
  ∧ (∀ err, run.1 = wait.Returned (Some err) →
       ∃ e, err = fmt.Errorf_w "failed to precache images: " e
            ∧ errors.Is err e = true
            ∧ ((e = Canceled ∧ ∃ n, ctxDone env (PollTick n) = true)
               ∨ (queries w < queries run.2
                  ∧ errors.Is e precache.ErrFailed = true
                  ∧ ∃ status oe, last = (status, oe)
                      ∧ (oe = Some e
                         ∨ ∃ st, status = Some st
                                 ∧ precache.Status_ st = precache.Failed))
               ∨ e = budgetSpent 5)).
Proof.
  intros run last. subst run last.
  destruct (waitForPrecaching_outcome env fuel w) as (_ & Hle & Hres).
  split; [done|].
  destruct (waitForPrecaching env fuel w).1 as [|[err|]].
  - split; [done|]. done.
  - split; [done|]. intros ? [= <-].
    destruct Hres as (e & -> & Hcause). exists e. split; [done|].
    split; [apply errors_Is_wrapped; by destruct e; cbn [errors.Is];
            rewrite bool_decide_true|].
    destruct Hcause as [?|[[Hlt [Hfail Hans]]|?]]; [by left| |by do 2 right].
    right. left. split; [done|]. split; [done|].
    destruct Hans as [(st & -> & Hst & _)|(status & ->)]; by eauto 10.
  - split; [|done]. intros _. done.
Qed.


End WaitSound.

(** ** The order of the steps *)

Section Order.

Context `{!common.Consts, !utils.Consts, !json.Decoder}.
Context `{!semver.Lib SemVer}.
Implicit Types (env : Env) (w : World) (ibu : SeedImageRef).

Lemma checkSpecVersion_block env ibu w :
  ((checkSpecVersion env ibu w).1 = None ↔ gatePassed env ibu)
  ∧ ∃ evs, trace (checkSpecVersion env ibu w).2 = trace w ++ evs
           ∧ Forall (λ e, stage e = 0) evs.
Proof.
  unfold checkSpecVersion, bind, gatePassed.
  rewrite validateSeedOcpVersion_run.
  assert (Forall (λ e, stage e = 0) [EvGetClusterVersion]) as Hst
    by (by apply Forall_singleton).
  destruct (getClusterVersion env) as [e|target]; simpl.
  { split; [|by eauto]. split; [done|]. by intros (?&?&?&?&_). }
  destruct (semver.NewVersion target) as [e|tv] eqn:Ht; simpl.
  { split; [|by eauto]. split; [done|].
    intros (?&?&?&[= <-]&_&?&_). congruence. }
  destruct (semver.NewVersion (Version ibu)) as [e|sv] eqn:Hs; simpl.
  { split; [|by eauto]. split; [done|]. by intros (?&?&?&_&?&_). }
  case_bool_decide as Hcmp; simpl.
  - split; [|by eauto]. split; [done|].
    intros (?&sv'&tv'&[= <-]&[= <-]&Ht'&?).
    assert (tv' = tv) as -> by congruence. lia.
  - split; [|by eauto]. split; [|done]. intros _.
    exists target, sv, tv. repeat split; try done. lia.
Qed.

Lemma pullSeedImage_block env ibu w :
  ((pullSeedImage env ibu w).1 = None ↔
     ctxDone env BeforePull = false ∧ acquired env ibu)
  ∧ ∃ evs, trace (pullSeedImage env ibu w).2 = trace w ++ evs
           ∧ Forall (λ e, stage e = 1) evs.
Proof.
  unfold pullSeedImage.
  destruct (ctxDone env BeforePull).
  { simpl. split; [by split; [|intros [? _]]|]. exists []. by rewrite app_nil_r. }
  unfold bind, setProgress, modify, logInfo.
  match goal with |- context [getSeedImage env ibu ?w0] =>
    pose proof (getSeedImage_none env ibu w0) as Hok;
    pose proof (getSeedImage_trace env ibu w0) as Htr;
    destruct (getSeedImage env ibu w0) as [[e|] w1] end;
    simpl in *.
  all: split;
    [|eexists; split; [exact Htr|];
      unfold pullEvents, podmanPullEvent, podmanInspectEvent;
      destruct (PullSecretRef ibu), (getSecretData env), (writeFile env),
        (podmanPull env); by repeat constructor].
  - split; [done|]. intros [_ Ha]. by apply Hok in Ha.
  - split; [|done]. intros _. split; [done|]. by apply Hok.
Qed.

Lemma setupStateroot_block env ibu w :
  ((setupStateroot env ibu w).1 = None ↔
     ctxDone env BeforeStateroot = false ∧ staterootReady env)
  ∧ ∃ evs, trace (setupStateroot env ibu w).2 = trace w ++ evs
           ∧ Forall (λ e, stage e = 2) evs.
Proof.
  unfold setupStateroot, staterootReady.
  destruct (ctxDone env BeforeStateroot).
  { simpl. split; [by split; [|intros [? _]]|]. exists []. by rewrite app_nil_r. }
  unfold bind, setProgress, modify, logInfo.
  match goal with |- context [SetupStateroot env ibu ?f ?w0] =>
    destruct (SetupStateroot_run env ibu f w0) as [Hres Htr];
    destruct (SetupStateroot env ibu f w0) as [r w1] end.
  simpl in *. subst r. unfold staterootCalls in *. simpl in *.
  destruct (prepSetupStateroot env), (rpmOstreeCleanup env),
    (writeIBUAutoRollbackConfigFile env), (backupKubeconfigCrypto env);
    simpl in *.
  all: split; [naive_solver|].
  all: eexists; (split; [exact Htr|]); by repeat constructor.
Qed.

Lemma launchPrecachingJob_block env w :
  ((launchPrecachingJob env w).1 = None ↔
     ctxDone env BeforePrecaching = false ∧ launched env)
  ∧ ∃ evs, trace (launchPrecachingJob env w).2 = trace w ++ evs
           ∧ Forall (λ e, stage e = 3) evs.
Proof.
  unfold launchPrecachingJob, launched.
  destruct (ctxDone env BeforePrecaching).
  { simpl. split; [by split; [|intros [? _]]|]. exists []. by rewrite app_nil_r. }
  unfold bind, setProgress, modify, logInfo.
  match goal with |- context [launchPrecaching env ?f ?w0] =>
    pose proof (launchPrecaching_run env f w0) as Hrun;
    destruct (launchPrecaching env f w0) as [[ok lerr] w1] end.
  pose proof (launchCalls_ok env imageListFile) as Hok.
  cbn [fst snd] in Hrun.
  destruct (firstFailure (launchCalls env imageListFile)) as [e|] eqn:Hfail.
  - destruct Hrun as (-> & (err & -> & _) & Htr). simpl. split.
    + split; [done|]. intros (_&?&?&?&?&?&_).
      assert (Some e = None) as Hnone by (by apply Hok). discriminate.
    + eexists. split; [exact Htr|].
      eapply Forall_forall. intros x Hx.
      pose proof (elem_of_prefix _ _ _ Hx
                    (callsMade_prefix (launchCalls env imageListFile))) as Hin.
      simpl in Hin.
      repeat (apply elem_of_cons in Hin as [->|Hin]; [done|]).
      by apply elem_of_nil in Hin.
  - destruct Hrun as (imageList & pod & _ & _ & Htr & Hres).
    apply proj1 in Hok. specialize (Hok eq_refl).
    destruct Hok as (?&?&?&?&?).
    assert (∃ evs, trace w1 = trace w ++ evs ∧ Forall (λ e, stage e = 3) evs)
      as Hevs.
    { eexists. split; [exact Htr|]. simpl. by repeat constructor. }
    destruct (createJob env) as [e|].
    + destruct Hres as (-> & err & -> & _). simpl. split; [|done].
      split; [done|]. by intros (_&_&_&_&_&_&?).
    + injection Hres as -> ->. simpl. split; [|done].
      split; [|done]. intros _. by repeat split.
Qed.

(** The events of the wait and of the final report are status queries and
    sleeps. *)
Lemma verifyLoop_stage env interval n : ∀ w,
  ∃ evs, trace (verifyLoop env n interval w).2 = trace w ++ evs
         ∧ Forall (λ e, stage e = 4) evs.
Proof.
  induction n as [|n IH]; intros w.
  - exists []. by rewrite app_nil_r.
  - destruct (verifyLoop_round env n interval w)
      as [(res & w1 & -> & _ & _ & Htr)|(w1 & -> & _ & Htr)].
    + eexists. split; [exact Htr|]. by repeat constructor.
    + destruct (IH w1) as (evs & Htr' & Hst).
      exists ([EvQueryJobStatus; EvSleep interval] ++ evs).
      rewrite Htr', Htr, <-app_assoc. split; [done|].
      apply Forall_app. split; [by repeat constructor|done].
Qed.

Lemma pollLoop_stage env retries interval ctx fuel : ∀ tick w,
  ∃ evs, trace (wait.pollLoop fuel tick ctx interval
                  (verifyPrecachingCompleteFunc env retries interval) w).2
         = trace w ++ evs
         ∧ Forall (λ e, stage e = 4) evs.
Proof.
  induction fuel as [|fuel IH]; intros tick w.
  { exists []. by rewrite app_nil_r. }
  destruct (ctx tick) eqn:Hctx.
  { cbn [wait.pollLoop]. rewrite Hctx. exists []. by rewrite app_nil_r. }
  rewrite (pollLoop_round _ _ _ _ _ _ Hctx).
  rewrite verifyPrecachingCompleteFunc_run.
  set (w0 := withLogs _ _).
  destruct (verifyLoop_stage env interval (Z.to_nat retries) w0)
    as (evs & Htr & Hst).
  change (trace w0) with (trace w ++ [EvSleep interval]) in Htr.
  assert (Forall (λ e, stage e = 4) ([EvSleep interval] ++ evs)) as Hall.
  { apply Forall_app. split; [by repeat constructor|done]. }
  destruct (verifyLoop env (Z.to_nat retries) interval w0) as [[[b oe]|] w1];
    simpl in Htr.
  - destruct b, oe as [err|]; cbn [fst snd].
    + exists ([EvSleep interval] ++ evs). by rewrite Htr, <-app_assoc.
    + exists ([EvSleep interval] ++ evs). by rewrite Htr, <-app_assoc.
    + exists ([EvSleep interval] ++ evs). by rewrite Htr, <-app_assoc.
    + destruct (IH (S tick) w1) as (evs' & Htr' & Hst').
      exists (([EvSleep interval] ++ evs) ++ evs').
      rewrite Htr', Htr, <-!app_assoc. split; [done|].
      rewrite app_assoc. apply Forall_app. by split.
  - cbn [fst snd]. exists ([EvSleep interval] ++ evs).
    by rewrite Htr, <-app_assoc.
Qed.

Lemma waitForPrecaching_stage env fuel w :
  ∃ evs, trace (waitForPrecaching env fuel w).2 = trace w ++ evs
         ∧ Forall (λ e, stage e = 4) evs.
Proof.
  rewrite waitForPrecaching_run. set (w0 := withTask _ w).
  destruct (pollLoop_stage env pollRetries pollInterval
              (λ n, ctxDone env (PollTick n)) fuel 0 w0) as (evs & Htr & Hst).
  exists evs. split; [|done].
  by destruct (wait.pollLoop fuel 0 _ _ _ w0) as [[|[err|]] w1].
Qed.

Lemma finalReport_run env w :
  trace (finalReport env w).2 = trace w ++ [EvQueryJobStatus]
  ∧ queries (finalReport env w).2 = S (queries w).
Proof.
  unfold finalReport, QueryJobStatus, bind, emit, gets, modify, ret, setProgress,
    logInfo.
  simpl. destruct (queryJobStatus env (queries w)) as [[st|] [e|]]; simpl;
    try done.
  by case_bool_decide.
Qed.

Lemma inOrder_same k evs : Forall (λ e, stage e = k) evs → inOrder evs.
Proof.
  unfold inOrder. induction 1 as [|e evs He Hall IH]; constructor; [done|].
  eapply Forall_impl; [exact Hall|]. simpl. intros e' ->. lia.
Qed.

Lemma staged_nil env ibu k : staged env ibu k [].
Proof. split; [done|constructor]. Qed.

(** The calls of one step before those of the steps after it. *)
Lemma staged_step env ibu k k' evs rest :
  Forall (λ e, stage e = k) evs →
  (evs ≠ [] → ∀ e, stage e = k → licensed env ibu e) →
  staged env ibu k' rest →
  k ≤ k' →
  staged env ibu k (evs ++ rest).
Proof.
  intros Hst Hlic [Hrest Hsorted] Hk. split.
  - apply Forall_app. split.
    + destruct evs as [|e0 evs0]; [done|].
      specialize (Hlic ltac:(done)).
      eapply Forall_impl; [exact Hst|]. simpl. intros e He.
      split; [lia|by apply Hlic].
    + eapply Forall_impl; [exact Hrest|]. simpl. intros e [? ?].
      split; [lia|done].
  - unfold inOrder in *. clear Hlic.
    induction Hst as [|e evs He Hall IH]; [done|].
    simpl. constructor; [done|].
    apply Forall_app. split.
    + eapply Forall_impl; [exact Hall|]. simpl. intros e' ->. lia.
    + eapply Forall_impl; [exact Hrest|]. simpl. intros e' [? _]. lia.
Qed.

Lemma pipeline_staged env fuel ibu w :
  ∃ evs, trace (pipeline env fuel ibu w).2 = trace w ++ evs
         ∧ staged env ibu 0 evs.
Proof.
  rewrite pipeline_run.
  destruct (checkSpecVersion_block env ibu w) as (Hgate & evs0 & Htr0 & Hst0).
  assert (∀ rest, staged env ibu 1 rest → staged env ibu 0 (evs0 ++ rest)) as K0.
  { intros rest Hrest. eapply staged_step; [exact Hst0| |exact Hrest|lia].
    intros _ e He. unfold licensed. rewrite He. split_and!; intros ?; lia. }
  destruct (checkSpecVersion env ibu w) as [[err|] w1]; simpl in *.
  { exists evs0. split; [done|]. rewrite <-(app_nil_r evs0).
    apply K0, staged_nil. }
  apply proj1 in Hgate. specialize (Hgate eq_refl).
  destruct (pullSeedImage_block env ibu w1) as (Hpull & evs1 & Htr1 & Hst1).
  assert (∀ rest, staged env ibu 2 rest → staged env ibu 1 (evs1 ++ rest)) as K1.
  { intros rest Hrest. eapply staged_step; [exact Hst1| |exact Hrest|lia].
    intros Hne e He. unfold licensed. rewrite He.
    assert (ctxDone env BeforePull = false) as Hctx.
    { revert Htr1 Hne. unfold pullSeedImage.
      destruct (ctxDone env BeforePull); [|done].
      simpl. intros Heq Hne. exfalso. apply Hne.
      apply (app_inv_head (trace w1)). by rewrite app_nil_r. }
    split_and!; intros ?; try lia; done. }
  destruct (pullSeedImage env ibu w1) as [[err|] w2]; simpl in *.
  { exists (evs0 ++ evs1). rewrite Htr1, Htr0, <-app_assoc. split; [done|].
    apply K0. rewrite <-(app_nil_r evs1). apply K1, staged_nil. }
  apply proj1 in Hpull. destruct (Hpull eq_refl) as [Hctx1 Hacq].
  destruct (setupStateroot_block env ibu w2) as (Hsetup & evs2 & Htr2 & Hst2).
  assert (∀ rest, staged env ibu 3 rest → staged env ibu 2 (evs2 ++ rest)) as K2.
  { intros rest Hrest. eapply staged_step; [exact Hst2| |exact Hrest|lia].
    intros Hne e He. unfold licensed. rewrite He.
    assert (ctxDone env BeforeStateroot = false) as Hctx.
    { revert Htr2 Hne. unfold setupStateroot.
      destruct (ctxDone env BeforeStateroot); [|done].
      simpl. intros Heq Hne. exfalso. apply Hne.
      apply (app_inv_head (trace w2)). by rewrite app_nil_r. }
    split_and!; intros ?; try lia; done. }
  destruct (setupStateroot env ibu w2) as [[err|] w3]; simpl in *.
  { exists (evs0 ++ evs1 ++ evs2).
    rewrite Htr2, Htr1, Htr0, <-!app_assoc. split; [done|].
    apply K0, K1. rewrite <-(app_nil_r evs2). apply K2, staged_nil. }
  apply proj1 in Hsetup. destruct (Hsetup eq_refl) as [Hctx2 Hready].
  destruct (launchPrecachingJob_block env w3) as (Hlaunch & evs3 & Htr3 & Hst3).
  assert (∀ rest, staged env ibu 4 rest → staged env ibu 3 (evs3 ++ rest)) as K3.
  { intros rest Hrest. eapply staged_step; [exact Hst3| |exact Hrest|lia].
    intros Hne e He. unfold licensed. rewrite He.
    assert (ctxDone env BeforePrecaching = false) as Hctx.
    { revert Htr3 Hne. unfold launchPrecachingJob.
      destruct (ctxDone env BeforePrecaching); [|done].
      simpl. intros Heq Hne. exfalso. apply Hne.
      apply (app_inv_head (trace w3)). by rewrite app_nil_r. }
    split_and!; intros ?; try lia; done. }
  destruct (launchPrecachingJob env w3) as [[err|] w4]; simpl in *.
  { exists (evs0 ++ evs1 ++ evs2 ++ evs3).
    rewrite Htr3, Htr2, Htr1, Htr0, <-!app_assoc. split; [done|].
    apply K0, K1, K2. rewrite <-(app_nil_r evs3). apply K3, staged_nil. }
  apply proj1 in Hlaunch. destruct (Hlaunch eq_refl) as [Hctx3 Hlaunched].
  destruct (waitForPrecaching_stage env fuel w4) as (evs4 & Htr4 & Hst4).
  assert (∀ evs, Forall (λ e, stage e = 4) evs → staged env ibu 4 evs) as K4.
  { intros evs Hst. rewrite <-(app_nil_r evs).
    eapply staged_step; [exact Hst| |apply (staged_nil env ibu 4)|lia].
    intros _ e He. unfold licensed. split_and!; intros ?; done. }
  destruct (finalReport_run env (waitForPrecaching env fuel w4).2) as [Htr5 _].
  destruct (waitForPrecaching env fuel w4) as [[|[err|]] w5]; simpl in *.
  - exists (evs0 ++ evs1 ++ evs2 ++ evs3 ++ evs4).
    rewrite Htr4, Htr3, Htr2, Htr1, Htr0, <-!app_assoc. split; [done|].
    by apply K0, K1, K2, K3, K4.
  - exists (evs0 ++ evs1 ++ evs2 ++ evs3 ++ evs4).
    rewrite Htr4, Htr3, Htr2, Htr1, Htr0, <-!app_assoc. split; [done|].
    by apply K0, K1, K2, K3, K4.
  - exists (evs0 ++ evs1 ++ evs2 ++ evs3 ++ evs4 ++ [EvQueryJobStatus]).
    rewrite Htr5, Htr4, Htr3, Htr2, Htr1, Htr0, <-!app_assoc. split; [done|].
    apply K0, K1, K2, K3, K4. apply Forall_app. split; [done|].
    by repeat constructor.
Qed.

(** X16.  The calls of the worker come step by step, and each of them has
    its licence.  In the trace of a run, no call of an earlier step follows
    one of a later step, the steps being the version gate, the image
    acquisition, the setup of the deployment, the launch of the job and the
    wait for it.  Podman is run only for a seed version newer than the
    version of the cluster; the deployment is touched only after the image
    has been pulled and has shown the expected label; the job is created
    only over a deployment that is set up; and the status of the job is
    asked for only after the job has been created.  A step whose calls show
    did not find the context canceled on entering it. *)
Theorem pipeline_in_order env fuel ibu w :
  ∃ evs,
    trace (pipeline env fuel ibu w).2 = trace w ++ evs
    ∧ StronglySorted (λ a b, stage a ≤ stage b) evs
    ∧ ∀ e, e ∈ evs →
        (1 ≤ stage e → gatePassed env ibu ∧ ctxDone env BeforePull = false)
        ∧ (2 ≤ stage e → acquired env ibu ∧ ctxDone env BeforeStateroot = false)
        ∧ (3 ≤ stage e →
             staterootReady env ∧ ctxDone env BeforePrecaching = false)
        ∧ (4 ≤ stage e → launched env).
Proof.
  destruct (pipeline_staged env fuel ibu w) as (evs & Htr & Hall & Hsorted).
  exists evs. split; [done|]. split; [done|].
  intros e Hin. rewrite Forall_forall in Hall. by destruct (Hall e Hin).
Qed.

(** X17.  A worker that returns without error has done all of its work:
    the seed version is newer than the version of the cluster, the image
    has been pulled and carries the expected label, the four calls of the
    deployment setup and the launch of the job went through, the context
    was not found canceled at any of the three checkpoints, and the last
    status query of the wait has shown a job that has succeeded; one more
    query, for the report, has followed it.  The wait is the polling helper
    as modelled. *)
Theorem prepStageWorker_success env fuel ibu w :
  (prepStageWorker env fuel ibu w).1 = wait.Returned None →
  gatePassed env ibu ∧ acquired env ibu ∧ staterootReady env ∧ launched env
  ∧ ctxDone env BeforePull = false
  ∧ ctxDone env BeforeStateroot = false
  ∧ ctxDone env BeforePrecaching = false
  ∧ ∃ n st oe,
      queries w ≤ n
      ∧ queries (prepStageWorker env fuel ibu w).2 = S (S n)
      ∧ queryJobStatus env n = (Some st, oe)
      ∧ precache.Status_ st = precache.Succeeded.
Proof.
  rewrite prepStageWorker_run.
  destruct (pipeline env fuel ibu (derived w)) as [r w'] eqn:Hrun.
  intros Hr.
  assert (r = wait.Returned None) as ->.
  { by destruct r as [|[err|]]. }
  simpl. clear Hr. revert Hrun. rewrite pipeline_run.
  set (w0 := derived w).
  destruct (checkSpecVersion_block env ibu w0) as (Hgate & _).
  destruct (checkSpecVersion env ibu w0) as [[err|] w1] eqn:E1; [done|].
  pose proof (footprint_pipeline env 0 ibu w0) as Hfoot.
  destruct (pullSeedImage_block env ibu w1) as (Hpull & _).
  destruct (pullSeedImage env ibu w1) as [[err|] w2] eqn:E2; [done|].
  destruct (setupStateroot_block env ibu w2) as (Hsetup & _).
  destruct (setupStateroot env ibu w2) as [[err|] w3] eqn:E3; [done|].
  destruct (launchPrecachingJob_block env w3) as (Hlaunch & _).
  destruct (launchPrecachingJob env w3) as [[err|] w4] eqn:E4; [done|].
  simpl in *.
  assert (queries w ≤ queries w4) as Hq4.
  { destruct Hfoot as (_&_&_&_&_&_&_&_&Hq). revert Hq.
    rewrite pipeline_run, E1, E2, E3, E4. simpl. done. }
  clear Hfoot.
  pose proof (waitForPrecaching_outcome env fuel w4) as (_ & _ & Hwait).
  destruct (finalReport_run env (waitForPrecaching env fuel w4).2) as [_ Hq5].
  destruct (waitForPrecaching env fuel w4) as [[|[err|]] w5]; try done.
  simpl in *. intros [= <-].
  destruct Hwait as (Hlt & st & oe & Hans & Hst).
  destruct (proj1 Hpull eq_refl), (proj1 Hsetup eq_refl), (proj1 Hlaunch eq_refl).
  split; [by apply Hgate|]. split_and!; try done.
  exists (pred (queries w5)), st, oe. split_and!; try done; lia.
Qed.

End Order.

(** ** The dispatcher and the goroutine, run after run *)

Section Lifecycle.

Context `{!common.Consts, !utils.Consts, !json.Decoder}.
Context `{!semver.Lib SemVer}.
Implicit Types (env : Env) (w : World) (ibu : SeedImageRef) (fs : Fs).

Lemma handlePrep_keeps fs w :
  panicked (handlePrep fs w).2 = panicked w
  ∧ closed (handlePrep fs w).2 = closed w
  ∧ canceled (handlePrep fs w).2 = canceled w
  ∧ queries (handlePrep fs w).2 = queries w
  ∧ nextId w ≤ nextId (handlePrep fs w).2.
Proof.
  rewrite handlePrep_run. unfold prepared, Reset, modify.
  destruct (statErr (statHost fs)), (workspaceErr fs),
    (negb (Active (PrepTask w))), (fired (done (PrepTask w)) w),
    (statWorkspace fs); simpl; split_and!; (done || lia).
Qed.

Lemma handlePrep_fired fs w :
  preconditionsMet fs →
  Active (PrepTask w) = true →
  fired (done (PrepTask w)) w = true →
  (handlePrep fs w).1 = (doNotRequeue, None)
  ∧ prepStatus (handlePrep fs w).2
    = (if Success (PrepTask w) then utils.Completed (Progress (PrepTask w))
       else utils.Failed (Progress (PrepTask w)))
  ∧ PrepTask (handlePrep fs w).2
    = {| Active := false; Success := false; Cancel := None;
         Progress := ""; done := None |}
  ∧ started (handlePrep fs w).2 = started w.
Proof.
  intros [Hhost Hws] Hact Hfired.
  rewrite handlePrep_run, Hhost, Hws, Hact, Hfired. simpl.
  destruct (prepared_frame fs w) as (Ht & _ & _ & Hs).
  split_and!; try done; unfold prepared; by destruct (statWorkspace fs).
Qed.

Lemma handlePrep_refused fs w :
  ¬ preconditionsMet fs →
  PrepTask (handlePrep fs w).2 = PrepTask w
  ∧ closed (handlePrep fs w).2 = closed w
  ∧ nextId (handlePrep fs w).2 = nextId w
  ∧ started (handlePrep fs w).2 = started w
  ∧ prepStatus (handlePrep fs w).2 = prepStatus w.
Proof.
  intros Hnot. rewrite handlePrep_run.
  destruct (prepared_frame fs w) as (Ht & Hc & Hn & Hs).
  destruct (statErr (statHost fs)) eqn:Hhost; [done|].
  destruct (workspaceErr fs) eqn:Hws; [|by destruct Hnot].
  simpl. split_and!; try done. unfold prepared. by destruct (statWorkspace fs).
Qed.

Lemma healthy_same w w' :
  healthy w →
  Active (PrepTask w') = Active (PrepTask w) →
  done (PrepTask w') = done (PrepTask w) →
  closed w' = closed w →
  nextId w ≤ nextId w' →
  started w' = started w →
  panicked w' = panicked w →
  healthy w'.
Proof.
  intros (Hpanic & Halloc & Hnodup & Hinv) Ha Hd Hc Hn Hs Hp.
  unfold healthy, fired, allocated in *. rewrite Hp, Hc, Ha, Hd, Hs.
  split; [done|]. split; [intros c Hin%Halloc; lia|]. split; [done|].
  destruct Hinv as [?|(? & ? & ch & ? & ? & ?)]; [by left|].
  right. split; [done|]. split; [done|]. exists ch. split_and!; try done. lia.
Qed.

Lemma healthy_life w w' : healthy w → life w w' → healthy w'.
Proof.
  intros Hw Hstep.
  destruct Hstep as [fs w|w w' (Ha & _ & Hd & Hc & Hp & _ & Hn & Hs)|w Hpending|b w].
  - destruct (handlePrep_keeps fs w) as (Hp & Hc & _ & _ & Hn).
    destruct (decide (preconditionsMet fs)) as [Hmet|Hnot].
    2: { destruct (handlePrep_refused fs w Hnot) as (Ht & _ & _ & Hs & _).
         apply (healthy_same w); try done; by rewrite Ht. }
    destruct (Active (PrepTask w)) eqn:Hact.
    + destruct (fired (done (PrepTask w)) w) eqn:Hfired.
      * destruct (handlePrep_fired fs w Hmet Hact Hfired) as (_ & _ & Ht & Hs).
        destruct Hw as (Hpanic & Halloc & Hnodup & Hinv).
        unfold healthy, allocated. rewrite Hp, Hc, Ht, Hs. simpl.
        split; [done|]. split; [intros c Hin%Halloc; lia|]. split; [done|].
        left. split; [|done].
        destruct Hinv as [[? _]|(_ & _ & ch & Hch & Hopen & _)]; [done|].
        exfalso. unfold fired in Hfired. rewrite Hch in Hfired.
        by apply bool_decide_eq_true in Hfired.
      * destruct (handlePrep_running fs w Hact Hfired) as (Ht & _ & _ & Hs).
        apply (healthy_same w); try done; by rewrite Ht.
    + destruct (handlePrep_start fs w Hmet Hact) as (_ & Ht & _ & _ & Hnx & Hs).
      destruct Hw as (Hpanic & Halloc & Hnodup & Hinv).
      unfold healthy, allocated. rewrite Hp, Hc, Ht, Hs, Hnx. simpl.
      split; [done|]. split; [intros c Hin%Halloc; lia|]. split; [done|].
      destruct Hinv as [[Hst _]|(_ & ? & _)]; [|congruence].
      right. split; [by rewrite Hst|]. split; [done|].
      exists (nextId w). split; [done|]. split; [|lia].
      intros Hin%Halloc. lia.
  - by apply (healthy_same w).
  - destruct Hw as (Hpanic & Halloc & Hnodup & Hinv).
    destruct Hinv as [[Hst _]|(Hst & Hact & ch & Hch & Hopen & Hlt)]; [lia|].
    rewrite Hch. unfold close. rewrite bool_decide_false by done.
    unfold healthy, started, allocated, fired in *. simpl.
    rewrite Hch. split; [done|]. split.
    { intros c [Hin| ->%list_elem_of_singleton]%elem_of_app; auto. }
    split.
    { apply NoDup_app. split; [done|]. split; [|apply NoDup_singleton].
      intros c Hin ->%list_elem_of_singleton. done. }
    left. rewrite length_app. simpl. split; [lia|]. intros _.
    apply bool_decide_eq_true, elem_of_app. right. by apply list_elem_of_singleton.
  - by apply (healthy_same w).
Qed.

(** X18.  Over any number of runs, with reconciles under any file system,
    workers stepping, goroutines closing their signal and writing their
    outcome in any order, no [close] panics: the channel a goroutine closes
    is there and is closed once.  At every moment at most one goroutine has
    been started that has not yet closed its signal, and while there is one
    the task is active and its signal has not fired, so that no reconcile
    starts another. *)
Theorem prep_lifecycle_one_worker w0 w :
  Active (PrepTask w0) = false →
  started w0 = length (closed w0) →
  panicked w0 = false →
  allocated w0 →
  NoDup (closed w0) →
  rtc life w0 w →
  panicked w = false
  ∧ NoDup (closed w)
  ∧ length (closed w) ≤ started w ≤ S (length (closed w))
  ∧ (length (closed w) < started w →
       Active (PrepTask w) = true
       ∧ fired (done (PrepTask w)) w = false
       ∧ ∀ fs, started (handlePrep fs w).2 = started w).
Proof.
  intros Hact Hst Hpanic Halloc Hnodup Hrun.
  assert (healthy w) as (? & _ & ? & Hinv).
  { revert w Hrun. apply rtc_ind_r.
    - unfold healthy. split_and!; try done. left. split; [done|]. by rewrite Hact.
    - intros y z _ Hstep Hy. by eapply healthy_life. }
  split; [done|]. split; [done|].
  destruct Hinv as [[Hs _]|(Hs & Hact' & ch & Hch & Hopen & _)].
  - split; [lia|]. lia.
  - split; [lia|]. intros _.
    assert (fired (done (PrepTask w)) w = false) as Hfired.
    { unfold fired. rewrite Hch. by apply bool_decide_eq_false. }
    split; [done|]. split; [done|]. intros fs.
    by destruct (handlePrep_running fs w Hact' Hfired) as (_ & _ & _ & ?).
Qed.

Lemma prepGoroutine_split env fuel ibu w :
  prepGoroutine env fuel ibu w
  = match prepGoroutineClosing env fuel ibu w with
    | (wait.StillWaiting, w1) => (wait.StillWaiting, w1)
    | (wait.Returned err, w1) =>
        (wait.Returned err, (prepGoroutineOutcome err w1).2)
    end.
Proof.
  unfold prepGoroutine, prepGoroutineClosing, prepGoroutineOutcome, bind, gets, ret.
  destruct (prepStageWorker env fuel ibu w) as [[|err] w1]; [done|].
  destruct (close (done (PrepTask w1)) w1) as [[] w2].
  destruct err; simpl; done.
Qed.

Lemma prepGoroutineClosing_run env fuel ibu w ch :
  done (PrepTask w) = Some ch →
  ch ∉ closed w →
  prepGoroutineClosing env fuel ibu w
  = match prepStageWorker env fuel ibu w with
    | (wait.StillWaiting, w1) => (wait.StillWaiting, w1)
    | (wait.Returned err, w1) =>
        (wait.Returned err, withClosed (λ l, l ++ [ch]) w1)
    end.
Proof.
  intros Hdone Hopen.
  destruct (framed_prepStageWorker env fuel ibu w) as (_&_&Hd&Hc&_).
  unfold prepGoroutineClosing, bind, gets, ret.
  destruct (prepStageWorker env fuel ibu w) as [[|err] w1]; [done|].
  simpl in *. rewrite Hd, Hdone. unfold close.
  by rewrite bool_decide_false by (by rewrite Hc).
Qed.

(** X19.  What the resource is told about a run.  Once the goroutine of a
    run has returned, the next reconcile that passes its checks asks for no
    requeue, resets the task and sets the prep status: to completed with
    "Prep completed successfully" when the worker has returned no error, to
    failed with "Prep failed with error: " and the text of the error of the
    function the worker ran when it has.  While the goroutine has not
    returned, a reconcile sets the status to in progress and asks for a
    requeue. *)
Theorem handlePrep_publishes_outcome env fuel ibu fs w ch :
  preconditionsMet fs →
  Active (PrepTask w) = true →
  done (PrepTask w) = Some ch →
  ch ∉ closed w →
  let w1 := (prepGoroutine env fuel ibu w).2 in
  match (prepGoroutine env fuel ibu w).1 with
  | wait.Returned r =>
      (handlePrep fs w1).1 = (doNotRequeue, None)
      ∧ PrepTask (handlePrep fs w1).2
        = {| Active := false; Success := false; Cancel := None;
             Progress := ""; done := None |}
      ∧ match r with
        | None =>
            prepStatus (handlePrep fs w1).2
            = utils.Completed "Prep completed successfully"
        | Some err =>
            ∃ e, (pipeline env fuel ibu (derived w)).1 = wait.Returned (Some e)
                 ∧ errors.Unwrap err = Some e
                 ∧ prepStatus (handlePrep fs w1).2
                   = utils.Failed ("Prep failed with error: " +:+ Error e)
        end
  | wait.StillWaiting =>
      (handlePrep fs w1).1 = (requeueWithShortInterval, None)
      ∧ prepStatus (handlePrep fs w1).2 = utils.InProgress (Progress (PrepTask w1))
      ∧ PrepTask (handlePrep fs w1).2 = PrepTask w1
  end.
Proof.
  intros Hmet Hact Hdone Hopen w1. subst w1.
  destruct (framed_prepStageWorker env fuel ibu w) as (Ha&_&Hd&Hc&_).
  pose proof (prepStageWorker_outcome env fuel ibu w) as (_ & _ & Hout).
  rewrite prepGoroutine_split,
    (prepGoroutineClosing_run env fuel ibu w ch Hdone Hopen).
  destruct (prepStageWorker env fuel ibu w) as [[|r] w1]; simpl in *.
  - assert (fired (done (PrepTask w1)) w1 = false) as Hfired.
    { unfold fired. rewrite Hd, Hdone, Hc. by apply bool_decide_eq_false. }
    destruct Hmet as [Hhost Hws].
    rewrite handlePrep_run, Hhost, Hws, Ha, Hact, Hfired. simpl.
    repeat split; unfold prepared; by destruct (statWorkspace fs).
  - set (w2 := (prepGoroutineOutcome r _).2).
    assert (Active (PrepTask w2) = true ∧ fired (done (PrepTask w2)) w2 = true
            ∧ Success (PrepTask w2) = bool_decide (r = None)
            ∧ Progress (PrepTask w2) = Progress (PrepTask w1)) as (Ha2 & Hf2 & Hs2 & Hp2).
    { subst w2. unfold fired.
      destruct r; simpl; rewrite Ha, Hact, Hd, Hdone;
        (split; [done|]); (split; [|done]);
        apply bool_decide_eq_true, elem_of_app; right;
        by apply list_elem_of_singleton. }
    destruct (handlePrep_fired fs w2 Hmet Ha2 Hf2) as (Hres & Hstatus & Ht & _).
    split; [done|]. split; [done|]. rewrite Hstatus, Hs2, Hp2.
    destruct r as [err|].
    + destruct Hout as (_ & e & Hpipe & -> & Hprog). exists e.
      rewrite bool_decide_false by done. by rewrite Hprog.
    + destruct Hout as (_ & _ & Hprog). rewrite bool_decide_true by done.
      by rewrite Hprog.
Qed.

(** X20.  The goroutine closes the completion signal before it writes the
    outcome.  A reconcile that runs in between, on a run that the dispatcher
    has started (so with [Success] unset) and whose worker has returned no
    error, finds the signal fired and [Success] not yet set: it sets the
    prep status to failed, with the message "Prep completed successfully",
    and resets the task.  The write of the outcome then lands on the task
    that has been reset, and leaves it inactive with [Success] set. *)
Theorem handlePrep_between_close_and_outcome env fuel ibu fs w ch :
  preconditionsMet fs →
  Active (PrepTask w) = true →
  Success (PrepTask w) = false →
  done (PrepTask w) = Some ch →
  ch ∉ closed w →
  (prepGoroutineClosing env fuel ibu w).1 = wait.Returned None →
  let w1 := (prepGoroutineClosing env fuel ibu w).2 in
  let w2 := (handlePrep fs w1).2 in
  (prepGoroutine env fuel ibu w).2 = (prepGoroutineOutcome None w1).2
  ∧ (handlePrep fs w1).1 = (doNotRequeue, None)
  ∧ prepStatus w2 = utils.Failed "Prep completed successfully"
  ∧ PrepTask w2
    = {| Active := false; Success := false; Cancel := None;
         Progress := ""; done := None |}
  ∧ PrepTask (prepGoroutineOutcome None w2).2
    = {| Active := false; Success := true; Cancel := None;
         Progress := ""; done := None |}
  ∧ prepStatus (handlePrep fs (prepGoroutine env fuel ibu w).2).2
    = utils.Completed "Prep completed successfully".
Proof.
  intros Hmet Hact Hsucc Hdone Hopen Hret w1 w2. subst w2 w1.
  destruct (framed_prepStageWorker env fuel ibu w) as (Ha&Hs&Hd&Hc&_).
  pose proof (prepStageWorker_outcome env fuel ibu w) as (_ & _ & Hout).
  rewrite prepGoroutine_split. revert Hret.
  rewrite (prepGoroutineClosing_run env fuel ibu w ch Hdone Hopen).
  destruct (prepStageWorker env fuel ibu w) as [[|r] w1]; [done|].
  simpl in *. intros [= ->]. destruct Hout as (_ & _ & Hprog).
  set (w2 := withClosed _ w1).
  assert (fired (done (PrepTask w2)) w2 = true) as Hfired.
  { unfold fired. simpl. rewrite Hd, Hdone.
    apply bool_decide_eq_true, elem_of_app. right.
    by apply list_elem_of_singleton. }
  destruct (handlePrep_fired fs w2 Hmet) as (Hres & Hstatus & Ht & _);
    [by rewrite <-Hact, <-Ha|done|].
  split; [done|]. split; [done|].
  split; [rewrite Hstatus; simpl; by rewrite Hs, Hsucc, Hprog|].
  split; [done|].
  split; [simpl; by rewrite Ht|].
  set (w3 := (prepGoroutineOutcome None w2).2).
  destruct (handlePrep_fired fs w3 Hmet) as (_ & Hstatus3 & _);
    [subst w3; simpl; by rewrite Ha|done|].
  rewrite Hstatus3. subst w3. simpl. by rewrite Hprog.
Qed.

(** X21.  A reconcile that fails one of its two checks returns the error
    with a result that asks for no requeue, and does nothing else: the task,
    the prep status of the resource, the channels and the allocator are as
    they were, and no worker is started, whether a run is under way or not.
    The workspace is made only when the host directory is there and the
    workspace is missing, and the error of a host directory that cannot be
    read wraps the error of the file system. *)
Theorem handlePrep_failed_check fs w :
  ¬ preconditionsMet fs →
  let w' := (handlePrep fs w).2 in
  (∃ err, (handlePrep fs w).1 = (doNotRequeue, Some err)
          ∧ match statErr (statHost fs) with
            | Some e => errors.Unwrap err = Some e
                        ∧ Error err = "host dir does not exist: " +:+ Error e
            | None => workspaceErr fs = Some err
            end)
  ∧ PrepTask w' = PrepTask w
  ∧ prepStatus w' = prepStatus w
  ∧ closed w' = closed w
  ∧ nextId w' = nextId w
  ∧ started w' = started w
  ∧ trace w'
    = trace w ++ match statErr (statHost fs), statWorkspace fs with
                 | None, StatNotExist => [EvMkdir utils.IBUWorkspacePath]
                 | _, _ => []
                 end.
Proof.
  intros Hnot w'. subst w'. rewrite handlePrep_run.
  destruct (prepared_frame fs w) as (Ht & Hc & Hn & Hs).
  destruct (statErr (statHost fs)) as [e|] eqn:Hhost.
  { simpl. rewrite app_nil_r. split_and!; try done. by eexists. }
  destruct (workspaceErr fs) as [e|] eqn:Hws; [|by destruct Hnot].
  simpl. split; [by eexists|]. split_and!; try done;
    unfold prepared; destruct (statWorkspace fs); simpl; by rewrite ?app_nil_r.
Qed.

End Lifecycle.

(** ** A status that comes with a query error *)

Section StatusWithError.

Implicit Types (env : Env) (w : World) (st : precache.Status).

(** X22.  The poller goes by the status whenever there is one, also when
    the query has returned an error with it, unless that error is the
    failure of the job.  With such an answer a job that has succeeded makes
    it return "done" and a job in progress "not yet", both without error and
    after that one query; and a job that has failed is not taken for failed:
    the poller sleeps and, if its budget allows, asks again. *)
Theorem verifyPrecachingCompleteFunc_status_with_error env retries interval w st e :
  (1 ≤ retries)%Z →
  queryJobStatus env (queries w) = (Some st, Some e) →
  errors.Is e precache.ErrFailed = false →
  let run := verifyPrecachingCompleteFunc env retries interval w in
  match precache.Status_ st with
  | precache.Succeeded =>
      run.1 = (true, None) ∧ trace run.2 = trace w ++ [EvQueryJobStatus]
  | precache.Active =>
      run.1 = (false, None) ∧ trace run.2 = trace w ++ [EvQueryJobStatus]
  | _ =>
      trace w ++ [EvQueryJobStatus; EvSleep interval] `prefix_of` trace run.2
      ∧ (retries = 1%Z → run.1 = (false, Some (budgetSpent 1)))
  end.
Proof.
  intros Hn Hans Hfail run. subst run. rewrite verifyPrecachingCompleteFunc_run.
  destruct (Z.to_nat retries) as [|n] eqn:Hr; [lia|].
  set (w0 := withLogs _ w).
  pose proof (queryPrecachingStatus_frame env w0) as (Htr & Hq & _).
  pose proof (queryPrecachingStatus_result env w0) as Hres.
  change (queries w0) with (queries w) in Hres. rewrite Hans in Hres.
  cbn [verifyLoop].
  destruct (queryPrecachingStatus env w0) as [a w1] eqn:Hrun.
  rewrite (bind_run _ _ _ _ _ Hrun). simpl in Hres, Htr, Hq. subst a.
  rewrite Hfail. unfold bind, setProgress, modify, ret.
  assert (∀ w2, trace w2 = trace w1 →
            trace w ++ [EvQueryJobStatus; EvSleep interval]
              `prefix_of` trace (verifyLoop env n interval
                (withTrace (λ t, t ++ [EvSleep interval]) w2)).2
            ∧ (retries = 1%Z →
               (verifyLoop env n interval
                  (withTrace (λ t, t ++ [EvSleep interval]) w2)).1 = None))
    as Hretry.
  { intros w2 Hw2.
    destruct (verifyLoop_stage env interval n
                (withTrace (λ t, t ++ [EvSleep interval]) w2))
      as (evs & Htr' & _).
    split.
    - rewrite Htr'. simpl. rewrite Hw2, Htr. simpl.
      rewrite <-(app_assoc (trace w)). by apply prefix_app_r.
    - intros ->. assert (n = 0) as -> by lia. done. }
  destruct (precache.Status_ st) eqn:Hphase;
    destruct (bool_decide (precache.Message st ≠ "")); simpl;
    rewrite ?Htr; try done.
  all: match goal with
       | |- context [verifyLoop ?env0 ?k ?i (withTrace ?f ?w2)] =>
           destruct (Hretry w2 eq_refl) as [Hpre Hone];
           destruct (verifyLoop env0 k i (withTrace f w2)) as [[res|] w3]
       end; simpl in *.
  all: split; [done|]; intros ->; by specialize (Hone eq_refl).
Qed.

End StatusWithError.

(** * Further runs on concrete inputs *)

Module MoreExamples.

Import testing fixtures.

Lemma GetConfigMaps_error_transparent_witness :
  (common.GetConfigMaps oneMissing [ref "a"; ref "missing"; ref "a"] []).1
  = inl (fmt.Errorf_w "failed to get configMap "
           (StatusError StatusReasonNotFound 404 "configmaps missing not found"))
  ∧ ∃ history r e,
      oneMissing history r = inl e
      ∧ r ∈ [ref "a"; ref "missing"; ref "a"]
      ∧ errors.Unwrap (fmt.Errorf_w "failed to get configMap "
          (StatusError StatusReasonNotFound 404 "configmaps missing not found"))
        = Some e.
Proof.
  assert ((common.GetConfigMaps oneMissing [ref "a"; ref "missing"; ref "a"] []).1
          = inl (fmt.Errorf_w "failed to get configMap "
                   (StatusError StatusReasonNotFound 404 "configmaps missing not found")))
    as Hrun by (vm_compute; reflexivity).
  split; [exact Hrun|].
  destruct (GetConfigMaps_error_transparent _ _ _ _ Hrun)
    as (history & r & e & Hget & Hin & Hunwrap & _).
  by exists history, r, e.
Defined.

Lemma getPodEnvVars_manager_witness :
  (getPodEnvVars happy idle).1
  = inr [ {| envName := "HTTP_PROXY"; envValue := "http://proxy";
             ValueFrom := None |} ]
  ∧ Forall (λ v, ValueFrom v = None)
      [ {| envName := "HTTP_PROXY"; envValue := "http://proxy";
           ValueFrom := None |} ].
Proof.
  assert ((getPodEnvVars happy idle).1
          = inr [ {| envName := "HTTP_PROXY"; envValue := "http://proxy";
                     ValueFrom := None |} ]) as Hrun by reflexivity.
  split; [exact Hrun|].
  destruct (getPodEnvVars_manager happy idle _ Hrun) as (pod & _ & Hall & _).
  exact Hall.
Defined.


Lemma prepStageWorker_returns_witness :
  (prepStageWorker happy 4 (ibu "4.14.0") running).1 = wait.Returned None
  ∧ canceled (prepStageWorker happy 4 (ibu "4.14.0") running).2 = [1]
  ∧ Progress (PrepTask (prepStageWorker happy 4 (ibu "4.14.0") running).2)
    = "Prep completed successfully".
Proof.
  assert ((prepStageWorker happy 4 (ibu "4.14.0") running).1 = wait.Returned None)
    as Hrun by (vm_compute; reflexivity).
  split; [exact Hrun|].
  pose proof (prepStageWorker_returns happy 4 (ibu "4.14.0") running None Hrun)
    as Hc.
  cbv zeta in Hc. destruct Hc as (_ & Hcan & _ & _ & _ & _ & Hprog).
  split; [exact Hcan|exact Hprog].
Defined.


Lemma prepStageWorker_success_witness :
  (prepStageWorker happy 4 (ibu "4.14.0") running).1 = wait.Returned None
  ∧ gatePassed happy (ibu "4.14.0")
  ∧ acquired happy (ibu "4.14.0")
  ∧ staterootReady happy
  ∧ launched happy.
Proof.
  assert ((prepStageWorker happy 4 (ibu "4.14.0") running).1 = wait.Returned None)
    as Hrun by (vm_compute; reflexivity).
  split; [exact Hrun|].
  destruct (prepStageWorker_success happy 4 (ibu "4.14.0") running Hrun)
    as (Hg & Ha & Hs & Hl & _).
  split; [exact Hg|]. split; [exact Ha|]. split; [exact Hs|exact Hl].
Defined.

Lemma prep_lifecycle_one_worker_witness :
  Active (PrepTask idle) = false
  ∧ started idle = length (closed idle)
  ∧ rtc life idle running
  ∧ panicked running = false
  ∧ started running ≤ S (length (closed running)).
Proof.
  assert (allocated idle) as Halloc.
  { intros c Hc. by apply elem_of_nil in Hc. }
  assert (rtc life idle running) as Hrun.
  { apply rtc_once. apply (life_reconcile hostReady idle). }
  destruct (prep_lifecycle_one_worker idle running eq_refl eq_refl eq_refl
              Halloc (NoDup_nil_2 (A:=nat)) Hrun) as (Hp & _ & [_ Hle] & _).
  split; [reflexivity|]. split; [reflexivity|]. split; [exact Hrun|].
  split; [exact Hp|exact Hle].
Defined.

Lemma handlePrep_publishes_outcome_witness :
  preconditionsMet hostReady
  ∧ Active (PrepTask running) = true
  ∧ done (PrepTask running) = Some 0
  ∧ (prepGoroutine happy 4 (ibu "4.14.0") running).1 = wait.Returned None
  ∧ prepStatus (handlePrep hostReady (prepGoroutine happy 4 (ibu "4.14.0") running).2).2
    = utils.Completed "Prep completed successfully".
Proof.
  assert (preconditionsMet hostReady) as Hmet by (split; reflexivity).
  assert (0 ∉ closed running) as Hopen.
  { intros Hin. by apply elem_of_nil in Hin. }
  assert ((prepGoroutine happy 4 (ibu "4.14.0") running).1 = wait.Returned None)
    as Hrun by (vm_compute; reflexivity).
  pose proof (handlePrep_publishes_outcome happy 4 (ibu "4.14.0") hostReady
                running 0 Hmet eq_refl eq_refl Hopen) as Hc.
  cbv zeta in Hc. rewrite Hrun in Hc. destruct Hc as (_ & _ & Hstatus).
  split; [exact Hmet|]. split; [reflexivity|]. split; [reflexivity|].
  split; [exact Hrun|exact Hstatus].
Defined.

Lemma handlePrep_between_close_and_outcome_witness :
  preconditionsMet hostReady
  ∧ Success (PrepTask running) = false
  ∧ (prepGoroutineClosing happy 4 (ibu "4.14.0") running).1 = wait.Returned None
  ∧ prepStatus
      (handlePrep hostReady
         (prepGoroutineClosing happy 4 (ibu "4.14.0") running).2).2
    = utils.Failed "Prep completed successfully".
Proof.
  assert (preconditionsMet hostReady) as Hmet by (split; reflexivity).
  assert (0 ∉ closed running) as Hopen.
  { intros Hin. by apply elem_of_nil in Hin. }
  assert ((prepGoroutineClosing happy 4 (ibu "4.14.0") running).1
          = wait.Returned None) as Hrun by (vm_compute; reflexivity).
  pose proof (handlePrep_between_close_and_outcome happy 4 (ibu "4.14.0")
                hostReady running 0 Hmet eq_refl eq_refl eq_refl Hopen Hrun) as Hc.
  cbv zeta in Hc. destruct Hc as (_ & _ & Hstatus & _).
  split; [exact Hmet|]. split; [reflexivity|]. split; [exact Hrun|exact Hstatus].
Defined.

Lemma handlePrep_failed_check_witness :
  ¬ preconditionsMet noHost
  ∧ PrepTask (handlePrep noHost running).2 = PrepTask running
  ∧ trace (handlePrep noHost running).2 = trace running.
Proof.
  assert (¬ preconditionsMet noHost) as Hnot.
  { intros [Hhost _]. discriminate Hhost. }
  pose proof (handlePrep_failed_check noHost running Hnot) as Hc.
  cbv zeta in Hc. destruct Hc as (_ & Ht & _ & _ & _ & _ & Htr).
  split; [exact Hnot|]. split; [exact Ht|].
  rewrite Htr. apply app_nil_r.
Defined.

Lemma verifyPrecachingCompleteFunc_status_with_error_witness :
  (1 ≤ 1)%Z
  ∧ (verifyPrecachingCompleteFunc failedWithError 1 (30 * time.Second) running).1
    = (false, Some (budgetSpent 1)).
Proof.
  pose proof (verifyPrecachingCompleteFunc_status_with_error failedWithError 1
                (30 * time.Second) running
                {| precache.Status_ := precache.Failed;
                   precache.Message := "pull error" |}
                (errorString "connection reset")
                ltac:(lia) eq_refl eq_refl) as Hc.
  cbv zeta in Hc. simpl precache.Status_ in Hc. destruct Hc as [_ Hone].
  split; [lia|exact (Hone eq_refl)].
Defined.

Example unnamed_reason_retried_by_code :
  common.isConflictOrRetriable
    (fmt.Errorf_w "failed to get configMap "
       (StatusError "StorageError" 503 "etcd is not ready"))
  = true.
Proof. reflexivity. Qed.

Example named_reason_not_retried_by_code :
  common.isConflictOrRetriable
    (StatusError StatusReasonNotFound 409 "configmaps missing not found")
  = false.
Proof. reflexivity. Qed.

End MoreExamples.
